(** * Partition consumer of kafka-client: model and properties

    Shallow embedding of [internal/consumer/partition.go].  The two loops
    of a partition consumer ([messageLoop], [commitLoop]), the callers of
    [Stop]/[Drain], the downstream workers and the broker feed run
    concurrently; they are modelled as threads of one interleaving
    transition system whose control points are the statements of the Go
    source at which a goroutine can be observed by another one (channel
    operations, calls into the mutex-guarded ack manager, calls to the
    broker client). *)

From Stdlib Require Import ZArith List String Bool Lia Sorted.
Import ListNotations.
Open Scope string_scope.
Open Scope Z_scope.

(** ** Machine integers and durations *)

(** Go's [int64] (and [int] on 64-bit platforms): two's complement
    wrap-around of the mathematical result. *)
Definition wrap64 (z : Z) : Z := (z + 2 ^ 63) mod 2 ^ 64 - 2 ^ 63.
Definition int64_min : Z := - 2 ^ 63.
Definition int64_max : Z := 2 ^ 63 - 1.
Definition add_int (a b : Z) : Z := wrap64 (a + b).
Definition sub_int64 (a b : Z) : Z := wrap64 (a - b).

(** [time.Duration] is an [int64] count of nanoseconds. *)
Definition Duration := Z.
Definition Millisecond : Duration := 1000000.

(** [Time.Sub] saturates at the bounds of [Duration]; instants are
    nanosecond counts. *)
Definition time_Sub (t u : Z) : Duration :=
  Z.max int64_min (Z.min int64_max (t - u)).

(** ** Configuration and records *)

(** The fields of [Options] that partition.go reads. *)
Record Options := mkOptions {
  Concurrency : Z;
  RcvBufferSize : Z;
  MaxProcessingTime : Duration
}.

(** [sarama.ConsumerMessage]. *)
Record ConsumerMessage := mkConsumerMessage {
  Topic : string;
  Partition : Z;
  Offset : Z;
  Value : string;
  Timestamp : Z
}.

Inductive error :=
| ErrCapacity                (* list.ErrCapacity *)
| Errorf (msg : string).     (* any other error value *)

Definition is_ErrCapacity (e : error) : bool :=
  match e with ErrCapacity => true | Errorf _ => false end.

(** ** The ack manager *)

(** The handle returned when an offset is registered.  Handles are
    opaque to their holders; [ackID_zero] is the zero value [ackID{}]
    that [trackOffset] returns next to an error. *)
Definition ackID := nat.
Definition ackID_zero : ackID := 0%nat.

Record entry := mkEntry {
  e_id : ackID;
  e_offset : Z;
  e_acked : bool
}.

Record ackManager := mkAckManager {
  maxOutstanding : Z;
  unacked : list entry;      (* arrival order, head first *)
  commitLevel : Z;
  nextID : ackID
}.

(** The value [CommitLevel] yields while nothing has been resolved;
    [markOffset] tells it from a real offset by [latestOff >= 0]. *)
Definition noCommit : Z := -1.

(** Modelled from the spec: the file of the ack manager
    (ackmanager.go, with internal/list) is missing.  A fresh manager
    tracks nothing and has resolved nothing. *)
Definition newAckManager (maxOutstanding : Z) : ackManager :=
  {| maxOutstanding := maxOutstanding;
     unacked := [];
     commitLevel := noCommit;
     nextID := 1%nat |}.

Definition pending (e : entry) : bool := negb (e_acked e).

Definition pendingCount (m : ackManager) : nat :=
  List.length (filter pending (unacked m)).

(** Modelled from the spec: [Track(offset)] of section 4.1, named
    [GetAckID] in partition.go.  It registers a Pending entry at the
    tail, and fails with the capacity error when the Pending count
    already equals [maxOutstanding]; it never blocks. *)
Definition GetAckID (offset : Z) (m : ackManager) : (ackID + error) * ackManager :=
  if Z.of_nat (pendingCount m) =? maxOutstanding m
  then (inr ErrCapacity, m)
  else (inl (nextID m),
        {| maxOutstanding := maxOutstanding m;
           unacked := unacked m ++ [mkEntry (nextID m) offset false];
           commitLevel := commitLevel m;
           nextID := S (nextID m) |}).

Definition mark_acked (id : ackID) (e : entry) : entry :=
  if Nat.eqb (e_id e) id then mkEntry (e_id e) (e_offset e) true else e.

Definition find_entry (id : ackID) (l : list entry) : option entry :=
  find (fun e => Nat.eqb (e_id e) id) l.

(** Modelled from the spec: [Ack(handle)] marks the entry Acked;
    resolving a handle that is already resolved (or no longer tracked)
    is a contract violation, reported and without effect. *)
Definition Ack (id : ackID) (m : ackManager) : option error * ackManager :=
  match find_entry id (unacked m) with
  | Some e =>
      if e_acked e then (Some (Errorf "handle already resolved"), m)
      else (None,
            {| maxOutstanding := maxOutstanding m;
               unacked := map (mark_acked id) (unacked m);
               commitLevel := commitLevel m;
               nextID := nextID m |})
  | None => (Some (Errorf "handle not tracked"), m)
  end.

(** Modelled from the spec: [Nack(handle)] leaves the entry Pending
    (it still occupies capacity) until the caller, after the hand-off
    to the dead-letter collaborator, calls [Ack]. *)
Definition Nack (id : ackID) (m : ackManager) : option error * ackManager :=
  match find_entry id (unacked m) with
  | Some e =>
      if e_acked e then (Some (Errorf "handle already resolved"), m)
      else (None, m)
  | None => (Some (Errorf "handle not tracked"), m)
  end.

(** Scan from the head: drop the Acked prefix, remembering the offset
    of its last entry. *)
Fixpoint evict (lvl : Z) (l : list entry) : Z * list entry :=
  match l with
  | e :: l' => if e_acked e then evict (e_offset e) l' else (lvl, l)
  | [] => (lvl, [])
  end.

(** Modelled from the spec: [CommitLevel()] returns the offset of the
    last entry of the longest Acked prefix and evicts that prefix; the
    level is kept between calls (scenario B of section 8), and is the
    sentinel until something was resolved. *)
Definition CommitLevel (m : ackManager) : Z * ackManager :=
  let (lvl, rest) := evict (commitLevel m) (unacked m) in
  (lvl,
   {| maxOutstanding := maxOutstanding m;
      unacked := rest;
      commitLevel := lvl;
      nextID := nextID m |}).

(** ** Messages *)

(** [newMessage(scm, ackID, p.ackMgr, p.dlq)]: the record and its
    handle; the manager and the dead-letter queue it is bound to are the
    consumer's own. *)
Record Message := mkMessage {
  msg_scm : ConsumerMessage;
  msg_ackID : ackID
}.

Definition newMessage (scm : ConsumerMessage) (id : ackID) : Message :=
  mkMessage scm id.

(** ** Observable effects *)

Inductive metric :=
| KafkaPartitionStarted
| KafkaPartitionStopped
| KafkaPartitionLag
| KafkaPartitionReadOffset
| KafkaPartitionMessagesIn
| KafkaPartitionCommitOffset
| KafkaPartitionBacklog
| KafkaPartitionAckMgrListFull.

Inductive level := Debug | Info | Error.

(** The three places that call [markOffset]: the ticker case of
    [commitLoop] (line 143), its stop case (line 145) and the body of
    [stop] (line 207). *)
Inductive call_site := AtTick | AtLoopExit | AtStop.

(** Gauges take a [float64]; the model records the integer that is
    converted.  The conversion is monotone and keeps 0, so
    [math.Max(float64(0), float64(x))] is the conversion of
    [Z.max 0 x]. *)
Inductive event :=
| EvCloseStopC                                   (* close(p.stopC) *)
| EvSleep (d : Duration)                         (* time.Sleep(d) in stop *)
| EvCommitLevel (site : call_site) (off : Z)     (* p.ackMgr.CommitLevel() returned off *)
| EvMarkPartitionOffset (site : call_site) (tp : string) (part : Z) (off : Z) (metadata : string)
| EvPartitionClose                               (* p.pConsumer.Close() *)
| EvCounter (m : metric) (delta : Z)
| EvGauge (m : metric) (v : Z)
| EvLog (l : level) (msg : string)
| EvSend (msg : Message)                         (* p.msgCh <- msg *)
| EvAck (id : ackID)                             (* a worker resolved a handle *)
| EvNack (id : ackID)
| EvDLQ (scm : ConsumerMessage).                 (* hand-off to the dead-letter queue *)

(** ** The partition consumer *)

(** Modelled from the spec: util.RunLifecycle is missing.  Section 3:
    NotStarted, Running, Stopped (Draining is a phase of the shutdown
    body, not a state of its own). *)
Inductive RunLifecycle := NotStarted | Running | Stopped.

Definition NewRunLifecycle : RunLifecycle := NotStarted.

(** Modelled from the spec: [lifecycle.Start(fn)] runs [fn] on the
    transition to Running and reports an error (without running it) when
    the consumer was already started or already stopped. *)
Definition lifecycle_Start (l : RunLifecycle) : bool * RunLifecycle :=
  match l with
  | NotStarted => (true, Running)
  | Running | Stopped => (false, l)
  end.

(** Modelled from the spec: [lifecycle.Stop(fn)] is guarded; the first
    caller moves the consumer to Stopped and runs [fn], every later
    caller finds it Stopped and does nothing. *)
Definition lifecycle_Stop (l : RunLifecycle) : bool * RunLifecycle :=
  match l with
  | Stopped => (false, Stopped)
  | NotStarted | Running => (true, Stopped)
  end.

(** The struct [partitionConsumer].  The collaborators ([sarama],
    [pConsumer], [dlq], [tally], [logger]) are seen through the trace of
    the calls made to them; [stopC] is a channel that is only ever
    closed, so its state is whether it has been. *)
Record partitionConsumer := mkPartitionConsumer {
  id : Z;
  topic : string;
  options : Options;
  msgCh : list Message;      (* buffer of the output channel, oldest first *)
  msgCap : nat;              (* cap(msgCh) *)
  ackMgr : ackManager;
  stopC : bool;              (* closed? *)
  lifecycle : RunLifecycle
}.

(** [newPartitionConsumer]: lines 61-85. *)
Definition newPartitionConsumer (pTopic : string) (pPartition : Z)
    (opts : Options) (cap : nat) : partitionConsumer :=
  let maxUnAcked := add_int (add_int (Concurrency opts) (RcvBufferSize opts)) 1 in
  {| id := pPartition;
     topic := pTopic;
     options := opts;
     msgCh := [];
     msgCap := cap;
     ackMgr := newAckManager maxUnAcked;
     stopC := false;
     lifecycle := NewRunLifecycle |}.

(** The broker-partition client [cluster.PartitionConsumer], as far as
    the consumer reads it: the channel [Messages()] and the high water
    mark. *)
Record PartitionFeed := mkFeed {
  feed : list ConsumerMessage;     (* records not yet received, oldest first *)
  feed_closed : bool;
  hwm : Z                          (* HighWaterMarkOffset() *)
}.

(** *** Control points *)

(** [stop(d)], lines 203-211. *)
Inductive stop_pc :=
| SP_Enter (d : Duration)      (* 204: about to call lifecycle.Stop *)
| SP_CloseStopC (d : Duration) (* 205 *)
| SP_Sleep (d : Duration)      (* 206 *)
| SP_MarkRead                  (* 207, markOffset at 153 *)
| SP_MarkPush (latestOff : Z)  (* markOffset at 154 *)
| SP_Close                     (* 208 *)
| SP_Counter                   (* 209 *)
| SP_Return.

Definition stop (d : Duration) : stop_pc := SP_Enter d.

(** [Stop] and [Drain], lines 100-110. *)
Definition Stop : stop_pc := stop 0.
Definition Drain (d : Duration) : stop_pc := stop d.

(** [messageLoop] with [deliver], [trackOffset] and [sleep] inlined. *)
Inductive intake_pc :=
| ML_NotStarted
| ML_Entry                                   (* 115 *)
| ML_Select                                  (* 117 *)
| ML_Drain (sp : stop_pc)                    (* 121: inside p.Drain *)
| ML_Track (scm : ConsumerMessage)           (* 182: about to call GetAckID *)
| ML_Sleep (scm : ConsumerMessage) (d : Duration)   (* 194, select at 214 *)
| ML_Tracked (scm : ConsumerMessage) (r : ackID * option error) (* 167: trackOffset returned *)
| ML_Send (msg : Message)                    (* 171: select *)
| ML_Return.

(** What [commitLoop] does after [markOffset]: next iteration (143) or
    return (145-146). *)
Inductive after_mark := ThenLoop | ThenReturn.

Definition site_of (k : after_mark) : call_site :=
  match k with ThenLoop => AtTick | ThenReturn => AtLoopExit end.

Inductive commit_pc :=
| CL_NotStarted
| CL_Entry                                           (* 138 *)
| CL_Select (ticker : Duration)                      (* 141 *)
| CL_MarkRead (ticker : Duration) (k : after_mark)   (* 153 *)
| CL_MarkPush (ticker : Duration) (k : after_mark) (latestOff : Z)  (* 154 *)
| CL_Return.

(** A [select] with two cases: the first one written, or [<-p.stopC]. *)
Inductive select_case := TakeFirst | TakeStop.

(** *** The whole system *)

Record system := mkSystem {
  p : partitionConsumer;
  pConsumer : PartitionFeed;
  now : Z;                       (* what time.Now() reads *)
  intake : intake_pc;            (* goroutine of messageLoop *)
  commit : commit_pc;            (* goroutine of commitLoop *)
  callers : list stop_pc;        (* invocations of Stop/Drain from outside *)
  held : list Message;           (* messages received by downstream workers *)
  abandoned : list Message;      (* messages dropped by deliver at shutdown *)
  trace : list event;            (* calls to the collaborators, oldest first *)
  panicked : bool
}.

Definition with_p (f : partitionConsumer -> partitionConsumer) (s : system) : system :=
  mkSystem (f (p s)) (pConsumer s) (now s) (intake s) (commit s) (callers s)
           (held s) (abandoned s) (trace s) (panicked s).

Definition set_ackMgr (m : ackManager) : system -> system :=
  with_p (fun c => mkPartitionConsumer (id c) (topic c) (options c) (msgCh c)
                     (msgCap c) m (stopC c) (lifecycle c)).

Definition set_msgCh (q : list Message) : system -> system :=
  with_p (fun c => mkPartitionConsumer (id c) (topic c) (options c) q
                     (msgCap c) (ackMgr c) (stopC c) (lifecycle c)).

Definition set_stopC (b : bool) : system -> system :=
  with_p (fun c => mkPartitionConsumer (id c) (topic c) (options c) (msgCh c)
                     (msgCap c) (ackMgr c) b (lifecycle c)).

Definition set_lifecycle (l : RunLifecycle) : system -> system :=
  with_p (fun c => mkPartitionConsumer (id c) (topic c) (options c) (msgCh c)
                     (msgCap c) (ackMgr c) (stopC c) l).

Definition set_pConsumer (f : PartitionFeed) (s : system) : system :=
  mkSystem (p s) f (now s) (intake s) (commit s) (callers s)
           (held s) (abandoned s) (trace s) (panicked s).

Definition set_now (t : Z) (s : system) : system :=
  mkSystem (p s) (pConsumer s) t (intake s) (commit s) (callers s)
           (held s) (abandoned s) (trace s) (panicked s).

Definition set_intake (i : intake_pc) (s : system) : system :=
  mkSystem (p s) (pConsumer s) (now s) i (commit s) (callers s)
           (held s) (abandoned s) (trace s) (panicked s).

Definition set_commit (c : commit_pc) (s : system) : system :=
  mkSystem (p s) (pConsumer s) (now s) (intake s) c (callers s)
           (held s) (abandoned s) (trace s) (panicked s).

Definition set_callers (l : list stop_pc) (s : system) : system :=
  mkSystem (p s) (pConsumer s) (now s) (intake s) (commit s) l
           (held s) (abandoned s) (trace s) (panicked s).

Definition set_held (l : list Message) (s : system) : system :=
  mkSystem (p s) (pConsumer s) (now s) (intake s) (commit s) (callers s)
           l (abandoned s) (trace s) (panicked s).

Definition set_abandoned (l : list Message) (s : system) : system :=
  mkSystem (p s) (pConsumer s) (now s) (intake s) (commit s) (callers s)
           (held s) l (trace s) (panicked s).

Definition emit (evs : list event) (s : system) : system :=
  mkSystem (p s) (pConsumer s) (now s) (intake s) (commit s) (callers s)
           (held s) (abandoned s) (trace s ++ evs) (panicked s).

Definition panic (s : system) : system :=
  mkSystem (p s) (pConsumer s) (now s) (intake s) (commit s) (callers s)
           (held s) (abandoned s) (trace s) true.

(** A consumer that was just built, on a feed that has produced nothing. *)
Definition boot (pTopic : string) (pPartition : Z) (opts : Options)
    (cap : nat) (highWaterMark : Z) : system :=
  {| p := newPartitionConsumer pTopic pPartition opts cap;
     pConsumer := mkFeed [] false highWaterMark;
     now := 0;
     intake := ML_NotStarted;
     commit := CL_NotStarted;
     callers := [];
     held := [];
     abandoned := [];
     trace := [];
     panicked := false |}.

(** ** Transitions *)

(** [markOffset], lines 152-162, in its two observable halves: the call
    to [CommitLevel] (atomic under the manager's mutex) and what
    follows when the level is a real offset. *)
Definition markOffset_read (site : call_site) (s : system) : Z * system :=
  let (latestOff, m') := CommitLevel (ackMgr (p s)) in
  (latestOff, emit [EvCommitLevel site latestOff] (set_ackMgr m' s)).

Definition markOffset_push (site : call_site) (latestOff : Z) (s : system) : system :=
  if 0 <=? latestOff then
    emit [ EvMarkPartitionOffset site (topic (p s)) (id (p s)) latestOff "";
           EvGauge KafkaPartitionCommitOffset latestOff;
           EvGauge KafkaPartitionBacklog
                   (Z.max 0 (sub_int64 (hwm (pConsumer s)) latestOff));
           EvLog Debug "kafka checkpoint" ] s
  else s.

(** [markOffset] run without interruption. *)
Definition markOffset (site : call_site) (s : system) : system :=
  let (latestOff, s') := markOffset_read site s in
  markOffset_push site latestOff s'.

(** One step of an invocation of [stop(d)]. *)
Definition stop_step (sp : stop_pc) (s : system) : option (stop_pc * system) :=
  match sp with
  | SP_Enter d =>
      match lifecycle_Stop (lifecycle (p s)) with
      | (true, l') => Some (SP_CloseStopC d, set_lifecycle l' s)
      | (false, _) => Some (SP_Return, s)
      end
  | SP_CloseStopC d =>
      if stopC (p s) then Some (SP_Sleep d, panic s)   (* close of closed channel *)
      else Some (SP_Sleep d, emit [EvCloseStopC] (set_stopC true s))
  | SP_Sleep d => Some (SP_MarkRead, emit [EvSleep d] s)
  | SP_MarkRead =>
      let (latestOff, s') := markOffset_read AtStop s in
      Some (SP_MarkPush latestOff, s')
  | SP_MarkPush latestOff => Some (SP_Close, markOffset_push AtStop latestOff s)
  | SP_Close => Some (SP_Counter, emit [EvPartitionClose] s)
  | SP_Counter => Some (SP_Return, emit [EvCounter KafkaPartitionStopped 1] s)
  | SP_Return => None
  end.

(** What [trackOffset] does with the answer of [GetAckID], lines
    182-199: return the handle, return an error that is not the capacity
    error, or count the failure, log it and go to sleep. *)
Inductive track_outcome :=
| TrackReturn (res : ackID * option error)
| TrackRetry.

Definition after_GetAckID (r : ackID + error) : track_outcome :=
  match r with
  | inl aid => TrackReturn (aid, None)
  | inr err =>
      if is_ErrCapacity err then TrackRetry
      else TrackReturn (ackID_zero, Some err)
  end.

(** [messageLoop], lines 114-134; [deliver], 165-177; [trackOffset],
    180-201; [sleep], 213-220. *)
Definition messageLoop_step (c : select_case) (s : system) : option system :=
  match intake s with
  | ML_NotStarted | ML_Return => None
  | ML_Entry =>
      Some (set_intake ML_Select (emit [EvLog Info "partition consumer started"] s))
  | ML_Select =>
      match c with
      | TakeFirst =>
          match feed (pConsumer s) with
          | m :: rest =>
              Some (set_intake (ML_Track m)
                     (emit [ EvGauge KafkaPartitionLag (time_Sub (now s) (Timestamp m));
                             EvGauge KafkaPartitionReadOffset (Offset m);
                             EvCounter KafkaPartitionMessagesIn 1 ]
                        (set_pConsumer
                           (mkFeed rest (feed_closed (pConsumer s)) (hwm (pConsumer s))) s)))
          | [] =>
              if feed_closed (pConsumer s) then
                Some (set_intake (ML_Drain (Drain (MaxProcessingTime (options (p s)))))
                       (emit [EvLog Info "partition message channel closed"] s))
              else None
          end
      | TakeStop =>
          if stopC (p s) then
            Some (set_intake ML_Return
                   (emit [EvLog Info "partition consumer stopped"] s))
          else None
      end
  | ML_Drain sp =>
      match stop_step sp s with
      | Some (sp', s') => Some (set_intake (ML_Drain sp') s')
      | None => Some (set_intake ML_Return s)        (* Drain returned; 122: return *)
      end
  | ML_Track scm =>
      let (r, m') := GetAckID (Offset scm) (ackMgr (p s)) in
      match after_GetAckID r with
      | TrackReturn res => Some (set_intake (ML_Tracked scm res) (set_ackMgr m' s))
      | TrackRetry =>
          Some (set_intake (ML_Sleep scm (Millisecond * 100))
                 (emit [ EvCounter KafkaPartitionAckMgrListFull 1;
                         EvLog Error "ackMgr list ran out of capacity" ]
                    (set_ackMgr m' s)))
      end
  | ML_Sleep scm d =>
      match c with
      | TakeFirst => Some (set_intake (ML_Track scm) s)      (* timer fired: continue *)
      | TakeStop =>
          if stopC (p s) then
            Some (set_intake (ML_Tracked scm (ackID_zero, Some (Errorf "consumer stopped"))) s)
          else None
      end
  | ML_Tracked scm (_, Some _) => Some (set_intake ML_Select s)      (* 168: return *)
  | ML_Tracked scm (aid, None) => Some (set_intake (ML_Send (newMessage scm aid)) s)
  | ML_Send msg =>
      match c with
      | TakeFirst =>
          if (List.length (msgCh (p s)) <? msgCap (p s))%nat then
            Some (set_intake ML_Select
                   (emit [EvSend msg] (set_msgCh (msgCh (p s) ++ [msg]) s)))
          else None
      | TakeStop =>
          if stopC (p s) then
            Some (set_intake ML_Select (set_abandoned (abandoned s ++ [msg]) s))
          else None
      end
  end.

(** [commitLoop], lines 137-149.  [time.NewTicker] panics on a period
    that is not positive. *)
Definition commitLoop_step (c : select_case) (s : system) : option system :=
  match commit s with
  | CL_NotStarted | CL_Return => None
  | CL_Entry =>
      let d := MaxProcessingTime (options (p s)) in
      if 0 <? d then Some (set_commit (CL_Select d) s) else Some (panic s)
  | CL_Select t =>
      match c with
      | TakeFirst => Some (set_commit (CL_MarkRead t ThenLoop) s)
      | TakeStop =>
          if stopC (p s) then Some (set_commit (CL_MarkRead t ThenReturn) s) else None
      end
  | CL_MarkRead t k =>
      let (latestOff, s') := markOffset_read (site_of k) s in
      Some (set_commit (CL_MarkPush t k latestOff) s')
  | CL_MarkPush t k latestOff =>
      Some (set_commit (match k with ThenLoop => CL_Select t | ThenReturn => CL_Return end)
             (markOffset_push (site_of k) latestOff s))
  end.

Fixpoint update {A : Type} (i : nat) (x : A) (l : list A) : list A :=
  match l, i with
  | [], _ => []
  | _ :: t, O => x :: t
  | h :: t, S i' => h :: update i' x t
  end.

Definition caller_step (i : nat) (s : system) : option system :=
  match nth_error (callers s) i with
  | Some sp =>
      match stop_step sp s with
      | Some (sp', s') => Some (set_callers (update i sp' (callers s')) s')
      | None => None
      end
  | None => None
  end.

(** [Start], lines 88-95. *)
Definition Start (s : system) : system :=
  match lifecycle_Start (lifecycle (p s)) with
  | (true, l') =>
      emit [EvCounter KafkaPartitionStarted 1]
        (set_commit CL_Entry (set_intake ML_Entry (set_lifecycle l' s)))
  | (false, _) => s
  end.

Definition holds (aid : ackID) (l : list Message) : option Message :=
  find (fun m => Nat.eqb (msg_ackID m) aid) l.

(** What the scheduler and the environment can do next. *)
Inductive action :=
| Call_Start
| Call_Stop
| Call_Drain (d : Duration)
| Caller (i : nat)               (* the i-th invocation of Stop/Drain goes on *)
| Intake (c : select_case)
| Commit (c : select_case)
| Worker_Recv                    (* <-msgCh *)
| Worker_Handoff                 (* a waiting receiver takes the message of a blocked send *)
| Worker_Ack (aid : ackID)
| Worker_Nack (aid : ackID)
| Broker_Produce (scm : ConsumerMessage)
| Broker_CloseFeed
| Broker_HWM (z : Z)
| Clock (t : Z).

Definition step (a : action) (s : system) : option system :=
  if panicked s then None else
  match a with
  | Call_Start => Some (Start s)
  | Call_Stop => Some (set_callers (callers s ++ [Stop]) s)
  | Call_Drain d => Some (set_callers (callers s ++ [Drain d]) s)
  | Caller i => caller_step i s
  | Intake c => messageLoop_step c s
  | Commit c => commitLoop_step c s
  | Worker_Recv =>
      match msgCh (p s) with
      | m :: rest => Some (set_held (held s ++ [m]) (set_msgCh rest s))
      | [] => None
      end
  | Worker_Handoff =>
      match intake s, msgCh (p s) with
      | ML_Send msg, [] =>
          Some (set_intake ML_Select (emit [EvSend msg] (set_held (held s ++ [msg]) s)))
      | _, _ => None
      end
  | Worker_Ack aid =>
      match holds aid (held s) with
      | Some _ => Some (emit [EvAck aid] (set_ackMgr (snd (Ack aid (ackMgr (p s)))) s))
      | None => None
      end
  | Worker_Nack aid =>
      match holds aid (held s) with
      | Some m =>
          Some (emit [EvDLQ (msg_scm m); EvNack aid]
                  (set_ackMgr (snd (Nack aid (ackMgr (p s)))) s))
      | None => None
      end
  | Broker_Produce scm =>
      if feed_closed (pConsumer s) then None
      else Some (set_pConsumer
                   (mkFeed (feed (pConsumer s) ++ [scm]) false (hwm (pConsumer s))) s)
  | Broker_CloseFeed =>
      Some (set_pConsumer (mkFeed (feed (pConsumer s)) true (hwm (pConsumer s))) s)
  | Broker_HWM z =>
      Some (set_pConsumer (mkFeed (feed (pConsumer s)) (feed_closed (pConsumer s)) z) s)
  | Clock t => Some (set_now t s)
  end.

(** A schedule is run action by action; it is refused as soon as one
    action is not enabled. *)
Fixpoint run (sched : list action) (s : system) : option system :=
  match sched with
  | [] => Some s
  | a :: rest =>
      match step a s with
      | Some s' => run rest s'
      | None => None
      end
  end.

(** The checkpoints pushed to the broker, in the order of the calls to
    [MarkPartitionOffset]. *)
Fixpoint checkpoints (tr : list event) : list Z :=
  match tr with
  | EvMarkPartitionOffset _ _ _ off _ :: tr' => off :: checkpoints tr'
  | _ :: tr' => checkpoints tr'
  | [] => []
  end.

(** The levels [CommitLevel] returned to [markOffset], in call order. *)
Fixpoint commit_levels (tr : list event) : list Z :=
  match tr with
  | EvCommitLevel _ off :: tr' => off :: commit_levels tr'
  | _ :: tr' => commit_levels tr'
  | [] => []
  end.

(** ** Predicates used in the statements *)

(** The manager of a running consumer only changes through its four
    operations. *)
Inductive ackMgr_op (m : ackManager) : ackManager -> Prop :=
| op_none : ackMgr_op m m
| op_GetAckID offset : ackMgr_op m (snd (GetAckID offset m))
| op_Ack aid : ackMgr_op m (snd (Ack aid m))
| op_Nack aid : ackMgr_op m (snd (Nack aid m))
| op_CommitLevel : ackMgr_op m (snd (CommitLevel m)).

Definition checkpoint_events (site : call_site) (latestOff : Z) (s : system) : list event :=
  if 0 <=? latestOff then
    [ EvMarkPartitionOffset site (topic (p s)) (id (p s)) latestOff "";
      EvGauge KafkaPartitionCommitOffset latestOff;
      EvGauge KafkaPartitionBacklog (Z.max 0 (sub_int64 (hwm (pConsumer s)) latestOff));
      EvLog Debug "kafka checkpoint" ]
  else [].

(** The bound that [newPartitionConsumer] computes at line 69, in Go's
    arithmetic on [int]. *)
Definition maxUnAcked (opts : Options) : Z :=
  add_int (add_int (Concurrency opts) (RcvBufferSize opts)) 1.

Definition pending_inv (bound : Z) (s : system) : Prop :=
  maxOutstanding (ackMgr (p s)) = bound /\
  Z.of_nat (pendingCount (ackMgr (p s))) <= bound.


(** *** Shutdown *)

(** The invocations of [stop] in progress: the one of [messageLoop]
    (through [Drain]) and those of outside callers. *)
Definition stop_threads (s : system) : list stop_pc :=
  match intake s with ML_Drain sp => [sp] | _ => [] end ++ callers s.

(** Inside the function passed to [lifecycle.Stop]. *)
Definition in_body (sp : stop_pc) : bool :=
  match sp with
  | SP_Enter _ | SP_Return => false
  | _ => true
  end.

Definition site_eqb (a b : call_site) : bool :=
  match a, b with
  | AtTick, AtTick | AtLoopExit, AtLoopExit | AtStop, AtStop => true
  | _, _ => false
  end.

(** The calls that make up the shutdown body, lines 205-209. *)
Definition is_shutdown (e : event) : bool :=
  match e with
  | EvCloseStopC | EvSleep _ | EvPartitionClose => true
  | EvCommitLevel site _ => site_eqb site AtStop
  | EvMarkPartitionOffset site _ _ _ _ => site_eqb site AtStop
  | EvCounter KafkaPartitionStopped _ => true
  | _ => false
  end.

Definition shutdown_trace (tr : list event) : list event := filter is_shutdown tr.

(** One [markOffset] as the broker client and the manager see it: the
    level is read, and pushed when it is a real offset. *)
Definition mark_events (site : call_site) (tp : string) (part : Z) (l : Z) : list event :=
  EvCommitLevel site l ::
  (if 0 <=? l then [EvMarkPartitionOffset site tp part l ""] else []).

(** The whole body, for a wait of [d] and a final level [l]. *)
Definition shutdown_body (tp : string) (part : Z) (d : Duration) (l : Z) : list event :=
  [EvCloseStopC; EvSleep d] ++ mark_events AtStop tp part l ++
  [EvPartitionClose; EvCounter KafkaPartitionStopped 1].

(** What the invocation that runs the body has done when it stands at
    [sp]. *)
Definition body_done (tp : string) (part : Z) (sp : stop_pc) (tr : list event) : Prop :=
  match sp with
  | SP_CloseStopC _ => tr = []
  | SP_Sleep _ => tr = [EvCloseStopC]
  | SP_MarkRead => exists d, tr = [EvCloseStopC; EvSleep d]
  | SP_MarkPush l => exists d, tr = [EvCloseStopC; EvSleep d; EvCommitLevel AtStop l]
  | SP_Close =>
      exists d l, tr = ([EvCloseStopC; EvSleep d] ++ mark_events AtStop tp part l)%list
  | SP_Counter =>
      exists d l,
        tr = ([EvCloseStopC; EvSleep d] ++ mark_events AtStop tp part l
              ++ [EvPartitionClose])%list
  | SP_Enter _ | SP_Return => False
  end.

Definition waiting (sp : stop_pc) : Prop := exists d, sp = SP_Enter d.

(** The guard of [lifecycle.Stop] lets one invocation into the body;
    what the body has done so far is what that invocation has done. *)
Definition shutdown_inv_on (threads : list stop_pc) (c : partitionConsumer)
    (tr : list event) : Prop :=
  let st := shutdown_trace tr in
  stopC c = match st with [] => false | _ => true end /\
  match lifecycle c with
  | Stopped =>
      (exists sp, filter in_body threads = [sp] /\ body_done (topic c) (id c) sp st) \/
      (filter in_body threads = [] /\
       exists d l, st = shutdown_body (topic c) (id c) d l)
  | NotStarted | Running =>
      st = [] /\ Forall waiting threads
  end.

Definition shutdown_inv (s : system) : Prop :=
  shutdown_inv_on (stop_threads s) (p s) (trace s).

(** The shutdown body has run to its end. *)
Definition shutdown_complete (s : system) : Prop :=
  lifecycle (p s) = Stopped /\ filter in_body (stop_threads s) = [].

Definition prefix_of (l1 l2 : list event) : Prop := exists rest, (l1 ++ rest)%list = l2.

(** *** The commit loop *)

Definition by_site (site : call_site) (e : event) : bool :=
  match e with
  | EvCommitLevel site' _ => site_eqb site' site
  | EvMarkPartitionOffset site' _ _ _ _ => site_eqb site' site
  | _ => false
  end.

(** The ticker of a started loop has the configured period, and the
    loop calls [markOffset] at line 145 once, on its way out. *)
Definition commit_inv (opts : Options) (s : system) : Prop :=
  options (p s) = opts /\
  (lifecycle (p s) = NotStarted -> commit s = CL_NotStarted) /\
  match commit s with
  | CL_NotStarted | CL_Entry => filter (by_site AtLoopExit) (trace s) = []
  | CL_Select t | CL_MarkRead t ThenLoop | CL_MarkPush t ThenLoop _ =>
      t = MaxProcessingTime opts /\ 0 < t /\
      filter (by_site AtLoopExit) (trace s) = []
  | CL_MarkRead t ThenReturn =>
      t = MaxProcessingTime opts /\ 0 < t /\ stopC (p s) = true /\
      filter (by_site AtLoopExit) (trace s) = []
  | CL_MarkPush t ThenReturn l =>
      t = MaxProcessingTime opts /\ 0 < t /\ stopC (p s) = true /\
      filter (by_site AtLoopExit) (trace s) = [EvCommitLevel AtLoopExit l]
  | CL_Return =>
      stopC (p s) = true /\
      exists l, filter (by_site AtLoopExit) (trace s) = mark_events AtLoopExit (topic (p s)) (id (p s)) l
  end.

(** *** Order of offsets and of checkpoints *)

(** [lo < x1 < x2 < ... < xn <= hi]. *)
Fixpoint chain (lo : Z) (l : list Z) (hi : Z) : Prop :=
  match l with
  | [] => lo <= hi
  | x :: l' => lo < x /\ chain x l' hi
  end.

Fixpoint nondecreasing_from (lo : Z) (l : list Z) : bool :=
  match l with
  | [] => true
  | x :: l' => (lo <=? x) && nondecreasing_from x l'
  end.

(** Each element is at most its successor. *)
Definition nondecreasing (l : list Z) : bool :=
  match l with
  | [] => true
  | x :: l' => nondecreasing_from x l'
  end.

(** The record [messageLoop] has received and not yet registered. *)
Definition untracked (i : intake_pc) : list Z :=
  match i with
  | ML_Track scm | ML_Sleep scm _ => [Offset scm]
  | _ => []
  end.

(** Offsets on their way through the consumer, oldest first: tracked,
    being tracked, still in the feed. *)
Definition offsets_in_order (s : system) : list Z :=
  map e_offset (unacked (ackMgr (p s))) ++ untracked (intake s)
  ++ map Offset (feed (pConsumer s)).

(** The broker produces offsets in strictly increasing order, above
    [last]. *)
Fixpoint feed_ordered (last : Z) (sched : list action) : bool :=
  match sched with
  | [] => true
  | Broker_Produce scm :: rest =>
      (last <? Offset scm) && feed_ordered (Offset scm) rest
  | _ :: rest => feed_ordered last rest
  end.

Definition order_inv (last : Z) (s : system) : Prop :=
  noCommit <= commitLevel (ackMgr (p s)) /\
  chain (commitLevel (ackMgr (p s))) (offsets_in_order s) last /\
  Forall (fun r => r <= commitLevel (ackMgr (p s))) (commit_levels (trace s)) /\
  nondecreasing_from noCommit (commit_levels (trace s)) = true.

(** No call of [markOffset] overlaps another: every push to the broker
    comes directly after the read of the level it pushes, made at the
    same call site ([pending] is that read, when no push has used it). *)
Fixpoint marks_atomic (pending : option (call_site * Z)) (tr : list event) : bool :=
  match tr with
  | [] => true
  | EvCommitLevel site off :: tr' => marks_atomic (Some (site, off)) tr'
  | EvMarkPartitionOffset site _ _ off _ :: tr' =>
      match pending with
      | Some (site', off') =>
          site_eqb site site' && (off =? off') && marks_atomic None tr'
      | None => false
      end
  | _ :: tr' => marks_atomic pending tr'
  end.

(** *** Handles *)

(** The message [deliver] holds between [trackOffset] and the send. *)
Definition inflight (i : intake_pc) : list Message :=
  match i with
  | ML_Tracked scm (aid, None) => [newMessage scm aid]
  | ML_Send msg => [msg]
  | _ => []
  end.

(** The entry a message was registered with, as long as nobody resolves
    its handle. *)
Definition entry_of (m : Message) : entry :=
  mkEntry (msg_ackID m) (Offset (msg_scm m)) false.

Definition handle_inv (s : system) : Prop :=
  (forall m, In m (inflight (intake s)) \/ In m (msgCh (p s)) \/ In m (held s)
             \/ In m (abandoned s) ->
             (msg_ackID m < nextID (ackMgr (p s)))%nat) /\
  (forall m m', In m (inflight (intake s)) ->
                In m' (msgCh (p s)) \/ In m' (held s) \/ In m' (abandoned s) ->
                msg_ackID m <> msg_ackID m') /\
  (forall m m', In m (abandoned s) ->
                In m' (msgCh (p s)) \/ In m' (held s) ->
                msg_ackID m <> msg_ackID m') /\
  (forall m, In m (inflight (intake s)) \/ In m (abandoned s) ->
             In (entry_of m) (unacked (ackMgr (p s)))) /\
  (forall aid, In (EvAck aid) (trace s) \/ In (EvNack aid) (trace s) ->
               exists m, In m (held s) /\ msg_ackID m = aid) /\
  (forall m, In (EvSend m) (trace s) -> In m (msgCh (p s)) \/ In m (held s)).

(** *** Scenarios *)

Definition demo_options : Options := mkOptions 1 1 1000.

Definition demo_record (off : Z) : ConsumerMessage :=
  mkConsumerMessage "orders" 0 off "payload" 0.

Definition demo_boot : system := boot "orders" 0 demo_options 2 10.

(** Offsets 0 and 1 are delivered and received by workers. *)
Definition two_delivered : list action :=
  [ Broker_Produce (demo_record 0); Broker_Produce (demo_record 1); Call_Start;
    Intake TakeFirst; Commit TakeFirst;
    Intake TakeFirst; Intake TakeFirst; Intake TakeFirst; Intake TakeFirst;
    Intake TakeFirst; Intake TakeFirst; Intake TakeFirst; Intake TakeFirst;
    Worker_Recv; Worker_Recv ].

(** The ticker fires and [commitLoop] reads level 0; before it pushes
    it, offset 1 is acknowledged and [Stop] runs its [markOffset] from
    the caller's goroutine: level 1 is pushed, then the stale 0. *)
Definition race_schedule : list action :=
  two_delivered ++
  [ Worker_Ack 1%nat;
    Commit TakeFirst; Commit TakeFirst;
    Worker_Ack 2%nat;
    Call_Stop; Caller 0%nat; Caller 0%nat; Caller 0%nat; Caller 0%nat; Caller 0%nat;
    Commit TakeFirst ].

(** The same work with each [markOffset] left alone. *)
Definition calm_schedule : list action :=
  two_delivered ++
  [ Worker_Ack 1%nat;
    Commit TakeFirst; Commit TakeFirst; Commit TakeFirst;
    Worker_Ack 2%nat;
    Call_Stop; Caller 0%nat; Caller 0%nat; Caller 0%nat; Caller 0%nat; Caller 0%nat;
    Caller 0%nat; Caller 0%nat;
    Commit TakeStop; Commit TakeFirst; Commit TakeFirst ].

Definition final_state (sched : list action) (s : system) : system :=
  match run sched s with Some s' => s' | None => s end.

Definition calm_final : system := Eval vm_compute in final_state calm_schedule demo_boot.

(** How many steps an invocation of [stop] still has to make at most. *)
Definition rank (sp : stop_pc) : nat :=
  match sp with
  | SP_Enter _ => 7
  | SP_CloseStopC _ => 6
  | SP_Sleep _ => 5
  | SP_MarkRead => 4
  | SP_MarkPush _ => 3
  | SP_Close => 2
  | SP_Counter => 1
  | SP_Return => 0
  end.

Definition delivered_state : system :=
  Eval vm_compute in final_state two_delivered demo_boot.

(** The feed is closed after the two records. *)
Definition feed_end_schedule : list action := two_delivered ++ [Broker_CloseFeed].

Definition feed_end_state : system :=
  Eval vm_compute in final_state feed_end_schedule demo_boot.

(** A consumer whose manager has room for one offset only. *)
Definition tight_boot : system := boot "orders" 0 (mkOptions 0 0 1000) 1 10.

(** Offset 0 is delivered and stays unresolved; offset 1 is received. *)
Definition full_schedule : list action :=
  [ Broker_Produce (demo_record 0); Broker_Produce (demo_record 1); Call_Start;
    Intake TakeFirst; Intake TakeFirst; Intake TakeFirst; Intake TakeFirst;
    Intake TakeFirst; Intake TakeFirst ].

Definition full_state : system :=
  Eval vm_compute in final_state full_schedule tight_boot.

(** [trackOffset] waits for room; [Stop] is called and closes the stop
    channel; the wait sees it. *)
Definition stopped_waiting_schedule : list action :=
  full_schedule ++
  [ Intake TakeFirst; Call_Stop; Caller 0%nat; Caller 0%nat; Intake TakeStop ].

Definition stopped_waiting_state : system :=
  Eval vm_compute in final_state stopped_waiting_schedule tight_boot.

(** Offset 0 is tracked; before it can be sent [Stop] closes the stop
    channel and [deliver] takes that case. *)
Definition abandon_schedule : list action :=
  [ Broker_Produce (demo_record 0); Call_Start;
    Intake TakeFirst; Intake TakeFirst; Intake TakeFirst; Intake TakeFirst;
    Call_Stop; Caller 0%nat; Caller 0%nat; Intake TakeStop;
    Caller 0%nat; Caller 0%nat; Caller 0%nat; Caller 0%nat; Caller 0%nat;
    Commit TakeFirst; Commit TakeStop; Commit TakeFirst; Commit TakeFirst ].

Definition abandon_state : system :=
  Eval vm_compute in final_state abandon_schedule demo_boot.

Definition abandoned_message : Message := newMessage (demo_record 0) 1%nat.

(** *** The wait of the shutdown body *)

(** The invocation [sp] is going to wait for [d]. *)
Definition waits_for (sp : stop_pc) (d : Duration) : Prop :=
  sp = SP_Enter d \/ sp = SP_CloseStopC d \/ sp = SP_Sleep d.

(** The duration an action asks [stop] to wait for. *)
Definition asked (a : action) : list Duration :=
  match a with
  | Call_Stop => [0]
  | Call_Drain d => [d]
  | _ => []
  end.

(** Every duration a shutdown may wait for: the one [messageLoop]
    passes to [Drain] and those of the outside invocations. *)
Definition requested (opts : Options) (sched : list action) : list Duration :=
  MaxProcessingTime opts :: flat_map asked sched.

Definition duration_inv (opts : Options) (R : list Duration) (s : system) : Prop :=
  options (p s) = opts /\
  In (MaxProcessingTime opts) R /\
  (forall sp d, In sp (stop_threads s) -> waits_for sp d -> In d R) /\
  (forall d, In (EvSleep d) (trace s) -> In d R).
(** ** Further predicates on runs *)

(** Offsets of the messages sent on the output channel, in the order of
    the sends. *)
Fixpoint sent_offsets (tr : list event) : list Z :=
  match tr with
  | EvSend m :: tr' => Offset (msg_scm m) :: sent_offsets tr'
  | _ :: tr' => sent_offsets tr'
  | [] => []
  end.

(** The record [deliver] is working on, unless it is about to drop it. *)
Definition in_deliver (i : intake_pc) : list Z :=
  match i with
  | ML_Track scm | ML_Sleep scm _ => [Offset scm]
  | ML_Tracked scm (_, None) => [Offset scm]
  | ML_Send msg => [Offset (msg_scm msg)]
  | _ => []
  end.

Definition msg_offset (m : Message) : Z := Offset (msg_scm m).

Fixpoint increasing_from (lo : Z) (l : list Z) : bool :=
  match l with
  | [] => true
  | x :: l' => (lo <? x) && increasing_from x l'
  end.

Definition delivery_inv (last : Z) (s : system) : Prop :=
  chain noCommit
    (sent_offsets (trace s) ++ in_deliver (intake s) ++ map Offset (feed (pConsumer s)))
    last /\
  chain noCommit
    (map msg_offset (msgCh (p s)) ++ in_deliver (intake s)
     ++ map Offset (feed (pConsumer s)))
    last.

(** A call to [MarkPartitionOffset] as line 155 makes it. *)
Definition good_checkpoint (tp : string) (part : Z) (e : event) : Prop :=
  match e with
  | EvMarkPartitionOffset _ tp' part' off metadata =>
      tp' = tp /\ part' = part /\ 0 <= off /\ metadata = ""
  | _ => True
  end.

Fixpoint counter_total (name : metric) (tr : list event) : Z :=
  match tr with
  | EvCounter m delta :: tr' =>
      match name, m with
      | KafkaPartitionMessagesIn, KafkaPartitionMessagesIn
      | KafkaPartitionStarted, KafkaPartitionStarted
      | KafkaPartitionStopped, KafkaPartitionStopped
      | KafkaPartitionAckMgrListFull, KafkaPartitionAckMgrListFull =>
          delta + counter_total name tr'
      | _, _ => counter_total name tr'
      end
  | _ :: tr' => counter_total name tr'
  | [] => 0
  end.

(** Offsets the broker produced in a schedule, in order. *)
Fixpoint produced (sched : list action) : list Z :=
  match sched with
  | Broker_Produce scm :: rest => Offset scm :: produced rest
  | _ :: rest => produced rest
  | [] => []
  end.

(** The level held by a [markOffset] between its read and its push. *)
Definition holds_level (sp : stop_pc) (l : Z) : Prop := sp = SP_MarkPush l.

Definition read_before_push (s : system) : Prop :=
  (forall site tp part off md,
     In (EvMarkPartitionOffset site tp part off md) (trace s) ->
     In (EvCommitLevel site off) (trace s)) /\
  (forall t k l, commit s = CL_MarkPush t k l ->
                 In (EvCommitLevel (site_of k) l) (trace s)) /\
  (forall sp l, In sp (stop_threads s) -> holds_level sp l ->
                In (EvCommitLevel AtStop l) (trace s)).

(** With a period that is not positive the commit loop gets no further
    than its first statement. *)
Definition early_inv (opts : Options) (s : system) : Prop :=
  options (p s) = opts /\
  (commit s = CL_NotStarted \/ commit s = CL_Entry) /\
  (forall site tp part off md,
     In (EvMarkPartitionOffset site tp part off md) (trace s) -> site = AtStop).

(** A consumer configured with a commit period of zero, started. *)
Definition hasty_options : Options := mkOptions 1 1 0.

Definition hasty_boot : system := boot "orders" 0 hasty_options 2 10.

Definition hasty_state : system := Eval vm_compute in final_state [Call_Start] hasty_boot.

(** Offset 0 is acknowledged and pushed while offset 1 is still with its
    worker. *)
Definition one_acked_schedule : list action :=
  two_delivered ++ [Worker_Ack 1%nat; Commit TakeFirst; Commit TakeFirst; Commit TakeFirst].

Definition one_acked_state : system :=
  Eval vm_compute in final_state one_acked_schedule demo_boot.

(** A worker was sent the record of offset [off] and acknowledged its
    handle. *)
Definition acked_offset (tr : list event) (off : Z) : Prop :=
  exists m, In (EvSend m) tr /\ Offset (msg_scm m) = off /\ In (EvAck (msg_ackID m)) tr.

Definition level_ok (tr : list event) (l : Z) : Prop :=
  l = noCommit \/ acked_offset tr l.

(** The messages that carry a handle somebody may still resolve. *)
Definition in_flight_msgs (s : system) : list Message :=
  inflight (intake s) ++ msgCh (p s) ++ held s.

Definition ack_inv (s : system) : Prop :=
  (forall e, In e (unacked (ackMgr (p s))) -> (e_id e < nextID (ackMgr (p s)))%nat) /\
  (forall m, In m (in_flight_msgs s) -> (msg_ackID m < nextID (ackMgr (p s)))%nat) /\
  (forall m e, In m (in_flight_msgs s) -> In e (unacked (ackMgr (p s))) ->
               e_id e = msg_ackID m -> e_offset e = Offset (msg_scm m)) /\
  (forall m, In m (msgCh (p s) ++ held s) -> In (EvSend m) (trace s)) /\
  (forall e, In e (unacked (ackMgr (p s))) -> e_acked e = true ->
             acked_offset (trace s) (e_offset e)) /\
  level_ok (trace s) (commitLevel (ackMgr (p s))) /\
  (forall l, In l (commit_levels (trace s)) -> level_ok (trace s) l).

(** *** The invocation that runs the shutdown body *)

(** The wait asked for by the invocation of [stop] that [lifecycle.Stop]
    lets into the body, when the step [a] is the one that takes the
    guard. *)
Definition enters (a : action) (s : system) : option Duration :=
  if panicked s then None else
  match lifecycle_Stop (lifecycle (p s)) with
  | (true, _) =>
      match a with
      | Caller i =>
          match nth_error (callers s) i with
          | Some (SP_Enter d) => Some d
          | _ => None
          end
      | Intake _ =>
          match intake s with
          | ML_Drain (SP_Enter d) => Some d
          | _ => None
          end
      | _ => None
      end
  | (false, _) => None
  end.

(** The wait of the first invocation that gets through the guard in a
    schedule run from [s]. *)
Fixpoint winner (sched : list action) (s : system) : option Duration :=
  match sched with
  | [] => None
  | a :: rest =>
      match enters a s with
      | Some d => Some d
      | None =>
          match step a s with
          | Some s' => winner rest s'
          | None => None
          end
      end
  end.

(** The wait of the body is the one of the invocation that got through
    the guard; [w] is that wait, once there is one. *)
Definition wait_inv (w : option Duration) (s : system) : Prop :=
  (w = None <-> lifecycle (p s) <> Stopped) /\
  (forall sp d, In sp (stop_threads s) ->
                sp = SP_CloseStopC d \/ sp = SP_Sleep d -> w = Some d) /\
  (forall d, In (EvSleep d) (trace s) -> w = Some d).

Definition next_winner (w : option Duration) (a : action) (s : system) : option Duration :=
  match w with
  | Some d => Some d
  | None => enters a s
  end.

(** [Drain(7)] and [Stop()] are both called; the invocation of [Stop]
    reaches the guard first and runs the body, the one of [Drain] finds
    the consumer stopped. *)
Definition contended_schedule : list action :=
  two_delivered ++
  [ Call_Drain 7; Call_Stop;
    Caller 1%nat; Caller 0%nat;
    Caller 1%nat; Caller 1%nat; Caller 1%nat; Caller 1%nat; Caller 1%nat; Caller 1%nat ].

Definition contended_state : system :=
  Eval vm_compute in final_state contended_schedule demo_boot.

(** A configuration with a negative number of workers: the bound of
    line 69 is [-5 + 2 + 1 = -2]. *)
Definition negative_options : Options := mkOptions (-5) 2 1000.

Definition negative_boot : system := boot "orders" 0 negative_options 4 10.

(** Four records are read, tracked and sent on. *)
Definition overrun_schedule : list action :=
  [ Broker_Produce (demo_record 0); Broker_Produce (demo_record 1);
    Broker_Produce (demo_record 2); Broker_Produce (demo_record 3); Call_Start ] ++
  repeat (Intake TakeFirst) 17.

(** * The test doubles of the broker side

    The mocks of the consumer tests: a partition consumer that feeds a
    hundred records, a cluster consumer that keeps the offsets marked,
    and a dead-letter producer that fails the first sends. *)

From Stdlib Require Import DecimalString FMapAVL FMapFacts OrderedTypeEx.

(** [map[int32]T] and [map[string]T]. *)
Module Int32Map := FMapAVL.Make Z_as_OT.
Module Int32MapFacts := FMapFacts.WFacts_fun Z_as_OT Int32Map.
Module Int32MapProps := FMapFacts.WProperties_fun Z_as_OT Int32Map.
Module StringMap := FMapAVL.Make String_as_OT.
Module StringMapFacts := FMapFacts.WFacts_fun String_as_OT StringMap.

(** The conversion [int32(x)] of a wider integer keeps the low 32 bits. *)
Definition wrap32 (z : Z) : Z := (z + 2 ^ 31) mod 2 ^ 32 - 2 ^ 31.
Definition int32_min : Z := - 2 ^ 31.
Definition int32_max : Z := 2 ^ 31 - 1.

Definition add_int64 (a b : Z) : Z := wrap64 (a + b).

(** [fmt.Sprintf("%v", z)] for an integer: its decimal digits, with a
    minus sign when negative. *)
Definition Sprintf_v (z : Z) : string := NilZero.string_of_int (Z.to_int z).

(** ** Channels *)

(** A channel as the Go runtime keeps it: the buffer, its capacity, the
    values of the senders parked on it, and whether it was closed.  A
    receiver that waits is simply not enabled. *)
Record chan (A : Type) := mkChan {
  ch_buf : list A;         (* oldest first *)
  ch_cap : Z;
  ch_sendq : list A;       (* values of the parked senders, oldest first *)
  ch_closed : bool
}.

Arguments mkChan {A} _ _ _ _.
Arguments ch_buf {A} _.
Arguments ch_cap {A} _.
Arguments ch_sendq {A} _.
Arguments ch_closed {A} _.

(** [make(chan T, n)] panics for a negative size. *)
Definition make_chan {A : Type} (n : Z) : option (chan A) :=
  if n <? 0 then None else Some (mkChan [] n [] false).

Inductive send_result (A : Type) :=
| Sent (c : chan A)        (* the value went into the buffer *)
| Parked (c : chan A)      (* no room: the sender waits for a receiver *)
| SendPanics.              (* send on a closed channel *)

Arguments Sent {A} _.
Arguments Parked {A} _.
Arguments SendPanics {A}.

Definition chan_send {A : Type} (x : A) (c : chan A) : send_result A :=
  if ch_closed c then SendPanics
  else if Z.of_nat (List.length (ch_buf c)) <? ch_cap c
       then Sent (mkChan (ch_buf c ++ [x]) (ch_cap c) (ch_sendq c) false)
       else Parked (mkChan (ch_buf c) (ch_cap c) (ch_sendq c ++ [x]) false).

(** A receive takes the oldest value; the first parked sender, if any,
    is released, its value moving into the buffer (or straight to the
    receiver when there is no buffer).  On a closed and empty channel
    the receive yields no value; on an open and empty one it blocks. *)
Definition chan_recv {A : Type} (c : chan A) : option (option A * chan A) :=
  match ch_buf c, ch_sendq c with
  | x :: rest, y :: q => Some (Some x, mkChan (rest ++ [y]) (ch_cap c) q (ch_closed c))
  | x :: rest, [] => Some (Some x, mkChan rest (ch_cap c) [] (ch_closed c))
  | [], y :: q => Some (Some y, mkChan [] (ch_cap c) q (ch_closed c))
  | [], [] => if ch_closed c then Some (None, c) else None
  end.

(** [close(c)] panics on a closed channel; the senders parked on the
    channel panic as they are released, which ends the process as well. *)
Definition chan_close {A : Type} (c : chan A) : option (chan A) :=
  if ch_closed c then None
  else match ch_sendq c with
       | [] => Some (mkChan (ch_buf c) (ch_cap c) [] true)
       | _ :: _ => None
       end.

(** ** [mockPartitionedConsumer] *)

(** A record as [sendMsg] makes them for a topic and a partition. *)
Definition mock_record (tp : string) (part : Z) (msg : ConsumerMessage) : Prop :=
  Topic msg = tp /\ Partition msg = part /\
  Value msg = ("msg-" ++ Sprintf_v (Offset msg))%string.

Module PartitionedMock.

Record mockPartitionedConsumer := mkMock {
  id : Z;                          (* int32 *)
  topic : string;
  closed : Z;                      (* int64, accessed atomically *)
  beginOffset : Z;                 (* int64 *)
  msgC : chan ConsumerMessage
}.

Definition set_msgC (c : chan ConsumerMessage) (m : mockPartitionedConsumer)
  : mockPartitionedConsumer :=
  mkMock (id m) (topic m) (closed m) (beginOffset m) c.

(** Lines 58-65. *)
Definition newMockPartitionedConsumer (topic : string) (id beginOffset rcvBufSize : Z)
  : option mockPartitionedConsumer :=
  match make_chan rcvBufSize with
  | Some c => Some (mkMock id topic 0 beginOffset c)
  | None => None
  end.

(** [sendMsg], lines 85-94; [now] is what [time.Now()] reads. *)
Definition sendMsg (m : mockPartitionedConsumer) (offset now : Z)
  : send_result ConsumerMessage :=
  let msg := mkConsumerMessage (topic m) (id m) offset
                               ("msg-" ++ Sprintf_v offset)%string now in
  chan_send msg (msgC m).

(** [stop], lines 81-83. *)
Definition stop (m : mockPartitionedConsumer) : option mockPartitionedConsumer :=
  match chan_close (msgC m) with
  | Some c => Some (set_msgC c m)
  | None => None
  end.

(** [Close], lines 96-99: [atomic.StoreInt64(&m.closed, 1)]. *)
Definition Close (m : mockPartitionedConsumer) : mockPartitionedConsumer :=
  mkMock (id m) (topic m) 1 (beginOffset m) (msgC m).

(** [isClosed], lines 101-103. *)
Definition isClosed (m : mockPartitionedConsumer) : bool := closed m =? 1.

Definition Messages (m : mockPartitionedConsumer) : chan ConsumerMessage := msgC m.

Definition HighWaterMarkOffset (m : mockPartitionedConsumer) : Z := 0.

(** The goroutine of [start], lines 70-77. *)
Inductive start_pc :=
| GO_NotStarted
| GO_Entry                          (* 71 *)
| GO_Loop (offset : Z) (i : Z)      (* 72: the loop test *)
| GO_Parked (offset : Z) (i : Z)    (* 93: waiting in the send *)
| GO_Done.                          (* 76: wg.Done() was called *)

(** The mock, the goroutine of [start], and the receiving end of
    [Messages()]. *)
Record world := mkWorld {
  mock : mockPartitionedConsumer;
  sender : start_pc;
  received : list ConsumerMessage;
  crashed : bool
}.

Definition init (m : mockPartitionedConsumer) : world :=
  mkWorld m GO_NotStarted [] false.

Definition crash (w : world) : world :=
  mkWorld (mock w) (sender w) (received w) true.

(** One step of the goroutine. *)
Definition start_step (now : Z) (w : world) : option world :=
  match sender w with
  | GO_NotStarted | GO_Done => None
  | GO_Entry =>
      Some (mkWorld (mock w) (GO_Loop (add_int64 (beginOffset (mock w)) 1) 0)
                    (received w) false)
  | GO_Loop offset i =>
      if i <? 100 then
        match sendMsg (mock w) offset now with
        | Sent c =>
            Some (mkWorld (set_msgC c (mock w)) (GO_Loop (add_int64 offset 1) (i + 1))
                          (received w) false)
        | Parked c =>
            Some (mkWorld (set_msgC c (mock w)) (GO_Parked offset i) (received w) false)
        | SendPanics => Some (crash w)
        end
      else Some (mkWorld (mock w) GO_Done (received w) false)
  | GO_Parked offset i =>
      match ch_sendq (msgC (mock w)) with
      | [] => Some (mkWorld (mock w) (GO_Loop (add_int64 offset 1) (i + 1))
                            (received w) false)
      | _ :: _ => None
      end
  end.

Inductive act :=
| Call_start                (* [start()], once *)
| Sender (now : Z)          (* the goroutine goes on *)
| Receive                   (* [<-m.Messages()] *)
| Call_stop
| Call_Close.

Definition step (a : act) (w : world) : option world :=
  if crashed w then None else
  match a with
  | Call_start =>
      match sender w with
      | GO_NotStarted => Some (mkWorld (mock w) GO_Entry (received w) false)
      | _ => None
      end
  | Sender now => start_step now w
  | Receive =>
      match chan_recv (Messages (mock w)) with
      | Some (Some x, c) =>
          Some (mkWorld (set_msgC c (mock w)) (sender w) (received w ++ [x]) false)
      | Some (None, _) => Some w
      | None => None
      end
  | Call_stop =>
      match stop (mock w) with
      | Some m => Some (mkWorld m (sender w) (received w) false)
      | None => Some (crash w)
      end
  | Call_Close => Some (mkWorld (Close (mock w)) (sender w) (received w) false)
  end.

Fixpoint run (sched : list act) (w : world) : option world :=
  match sched with
  | [] => Some w
  | a :: rest =>
      match step a w with
      | Some w' => run rest w'
      | None => None
      end
  end.

(** Every record the channel has accepted so far, oldest first. *)
Definition history (w : world) : list ConsumerMessage :=
  received w ++ ch_buf (msgC (mock w)) ++ ch_sendq (msgC (mock w)).

(** How many sends the goroutine has made. *)
Definition sent_count (pc : start_pc) : Z :=
  match pc with
  | GO_NotStarted | GO_Entry => 0
  | GO_Loop _ i => i
  | GO_Parked _ i => i + 1
  | GO_Done => 100
  end.

(** The offsets of the first [k] records of a mock that begins after
    [b]. *)
Definition offsets_from (b : Z) (k : nat) : list Z :=
  map (fun i => wrap64 (b + 1 + Z.of_nat i)) (seq 0 k).

Definition well_formed (m : mockPartitionedConsumer) (msg : ConsumerMessage) : Prop :=
  mock_record (topic m) (id m) msg.

Definition start_inv (m0 : mockPartitionedConsumer) (w : world) : Prop :=
  id (mock w) = id m0 /\ topic (mock w) = topic m0 /\
  beginOffset (mock w) = beginOffset m0 /\
  ch_cap (msgC (mock w)) = ch_cap (msgC m0) /\
  0 <= sent_count (sender w) <= 100 /\
  map Offset (history w)
  = offsets_from (beginOffset m0) (Z.to_nat (sent_count (sender w))) /\
  Forall (well_formed m0) (history w) /\
  Z.of_nat (List.length (ch_buf (msgC (mock w)))) <= ch_cap (msgC m0) /\
  (ch_closed (msgC (mock w)) = true -> ch_sendq (msgC (mock w)) = []) /\
  match sender w with
  | GO_Loop offset i =>
      offset = wrap64 (beginOffset m0 + 1 + i) /\ ch_sendq (msgC (mock w)) = []
  | GO_Parked offset i =>
      offset = wrap64 (beginOffset m0 + 1 + i) /\ i < 100 /\
      (List.length (ch_sendq (msgC (mock w))) <= 1)%nat /\
      (ch_sendq (msgC (mock w)) <> [] ->
       Z.of_nat (List.length (ch_buf (msgC (mock w)))) = ch_cap (msgC m0))
  | _ => ch_sendq (msgC (mock w)) = []
  end.

(** Nobody receives and nobody closes the channel. *)
Definition sender_only (a : act) : bool :=
  match a with
  | Call_start | Sender _ | Call_Close => true
  | Receive | Call_stop => false
  end.

(** After [stop], with sends still to come. *)
Definition stopped_early (w : world) : Prop :=
  sent_count (sender w) < 100 /\
  (crashed w = true \/ ch_closed (msgC (mock w)) = true).

(** A mock for partition 3 that begins after offset 41, with a buffer
    of one record; two records get sent and one of them received. *)
Definition demo_mock : mockPartitionedConsumer :=
  mkMock 3 "orders" 0 41 (mkChan [] 1 [] false).

Definition demo_sched : list act :=
  [Call_start; Sender 7; Sender 8; Sender 9; Receive; Sender 10].

Definition demo_world : world :=
  Eval vm_compute in
    match run demo_sched (init demo_mock) with
    | Some w => w
    | None => init demo_mock
    end.

(** A mock with room for all its records. *)
Definition roomy_mock : mockPartitionedConsumer :=
  mkMock 3 "orders" 0 41 (mkChan [] 100 [] false).

(** The channel of [demo_world] closed. *)
Definition closed_world : world :=
  Eval vm_compute in
    match step Call_stop demo_world with
    | Some w => w
    | None => demo_world
    end.

(** [Topic] and [Partition], lines 119-126. *)
Definition Topic (m : mockPartitionedConsumer) : string := topic m.

Definition Partition (m : mockPartitionedConsumer) : Z := id m.

End PartitionedMock.

(** The records the broker produced in a schedule, in order. *)
Fixpoint produced_records (sched : list action) : list ConsumerMessage :=
  match sched with
  | Broker_Produce scm :: rest => scm :: produced_records rest
  | _ :: rest => produced_records rest
  | [] => []
  end.

(** The records of the messages sent on the output channel. *)
Fixpoint sent_records (tr : list event) : list ConsumerMessage :=
  match tr with
  | EvSend m :: tr' => msg_scm m :: sent_records tr'
  | _ :: tr' => sent_records tr'
  | [] => []
  end.

(** The record [deliver] is working on. *)
Definition in_hand (i : intake_pc) : list ConsumerMessage :=
  match i with
  | ML_Track scm | ML_Sleep scm _ | ML_Tracked scm _ => [scm]
  | ML_Send msg => [msg_scm msg]
  | _ => []
  end.

(** Every record the consumer has sent on, holds, or still has in its
    feed. *)
Definition known (s : system) : list ConsumerMessage :=
  sent_records (trace s) ++ in_hand (intake s) ++ feed (pConsumer s).

(** The partition consumer fed with the records of [demo_world]. *)
Definition fed_schedule : list action :=
  map Broker_Produce (PartitionedMock.history PartitionedMock.demo_world) ++
  [ Call_Start; Intake TakeFirst; Commit TakeFirst;
    Intake TakeFirst; Intake TakeFirst; Intake TakeFirst; Intake TakeFirst;
    Intake TakeFirst; Intake TakeFirst; Intake TakeFirst; Intake TakeFirst;
    Worker_Recv; Worker_Recv ].

Definition fed_boot : system := boot "orders" 3 demo_options 2 0.

Definition fed_state : system := Eval vm_compute in final_state fed_schedule fed_boot.

(** ** [mockSaramaConsumer] *)

Module SaramaMock.

Record mockSaramaConsumer := mkMock {
  closed : Z;                       (* int64, accessed atomically *)
  offsets : Int32Map.t Z;           (* map[int32]int64, under the mutex *)
  errorC : chan error;
  messages : chan ConsumerMessage
}.

(** Lines 128-136.  The notification and partition channels, which no
    function of the mock uses, are left out. *)
Definition newMockSaramaConsumer : mockSaramaConsumer :=
  mkMock 0 (Int32Map.empty Z) (mkChan [] 1 [] false) (mkChan [] 1 [] false).

Definition set_offsets (o : Int32Map.t Z) (m : mockSaramaConsumer) : mockSaramaConsumer :=
  mkMock (closed m) o (errorC m) (messages m).

(** [offset], lines 138-146; [id] is an [int]. *)
Definition offset (m : mockSaramaConsumer) (id : Z) : Z :=
  match Int32Map.find (wrap32 id) (offsets m) with
  | Some off => off
  | None => 0
  end.

Definition CommitOffsets (m : mockSaramaConsumer) : option error := None.

(** [MarkOffset], lines 168-172. *)
Definition MarkOffset (m : mockSaramaConsumer) (msg : ConsumerMessage) (metadata : string)
  : mockSaramaConsumer :=
  set_offsets (Int32Map.add (Partition msg) (Offset msg) (offsets m)) m.

(** [MarkPartitionOffset], lines 174-178. *)
Definition MarkPartitionOffset (m : mockSaramaConsumer) (topic : string)
           (partition offset : Z) (metadata : string) : mockSaramaConsumer :=
  set_offsets (Int32Map.add partition offset (offsets m)) m.

(** [HighWaterMarks], lines 180-189.  The loop assigns
    [result["test"][k] = v] for each entry of [offsets]. *)
Definition HighWaterMarks (m : mockSaramaConsumer) : StringMap.t (Int32Map.t Z) :=
  let result := StringMap.add "test" (Int32Map.empty Z) (StringMap.empty (Int32Map.t Z)) in
  Int32Map.fold
    (fun k v result =>
       match StringMap.find "test" result with
       | Some inner => StringMap.add "test" (Int32Map.add k v inner) result
       | None => result
       end)
    (offsets m) result.

(** [Close], lines 191-194: [atomic.AddInt64(&m.closed, 1)]. *)
Definition Close (m : mockSaramaConsumer) : mockSaramaConsumer :=
  mkMock (add_int64 (closed m) 1) (offsets m) (errorC m) (messages m).

(** [isClosed], lines 196-198. *)
Definition isClosed (m : mockSaramaConsumer) : bool := closed m =? 1.

(** What the calls of a partition consumer, as its trace records them,
    do to the mock. *)
Definition apply_event (m : mockSaramaConsumer) (e : event) : mockSaramaConsumer :=
  match e with
  | EvMarkPartitionOffset _ tp part off metadata =>
      MarkPartitionOffset m tp part off metadata
  | _ => m
  end.

Definition replay (tr : list event) (m : mockSaramaConsumer) : mockSaramaConsumer :=
  fold_left apply_event tr m.

(** A sequence of calls of [MarkPartitionOffset], each with its topic,
    partition and offset, in the order in which they get the mutex. *)
Definition mark_all (m : mockSaramaConsumer) (marks : list (string * Z * Z))
  : mockSaramaConsumer :=
  fold_left (fun m mk => MarkPartitionOffset m (fst (fst mk)) (snd (fst mk)) (snd mk) "")
            marks m.

(** The offsets marked for a partition, in order. *)
Definition marked_for (part : Z) (marks : list (string * Z * Z)) : list Z :=
  map snd (filter (fun mk => snd (fst mk) =? part) marks).

End SaramaMock.

(** ** [mockDLQProducer] *)

Module DLQMock.

(** [sarama.Encoder] and the part of [sarama.ProducerMessage] that the
    mock reads. *)
Inductive Encoder :=
| StringEncoder (s : string)
| ByteEncoder (b : string).

Record ProducerMessage := mkProducerMessage {
  Topic : string;
  Key : option Encoder;            (* an interface: nil when not set *)
  Value : option Encoder
}.

Record mockDLQProducer := mkMock {
  closed : Z;                       (* int64 *)
  size : Z;                         (* int *)
  keys : StringMap.t unit           (* map[string]struct{} *)
}.

(** Lines 200-204. *)
Definition newMockDLQProducer : mockDLQProducer := mkMock 0 0 (StringMap.empty unit).

(** What a call of [SendMessage] returns next to the partition and the
    offset, which are always zero. *)
Record sent := mkSent {
  s_partition : Z;
  s_offset : Z;
  s_err : option error;
  s_mock : mockDLQProducer
}.

(** [SendMessage], lines 205-219, under the mutex.  The type assertion
    of line 208 panics for a key that is no [StringEncoder]. *)
Definition SendMessage (d : mockDLQProducer) (msg : ProducerMessage) : option sent :=
  match Key msg with
  | Some (StringEncoder key) =>
      let succeed :=
        Some (mkSent 0 0 None
                (mkMock (closed d) (add_int (size d) 1) (StringMap.add key tt (keys d)))) in
      if size d <? 5 then
        if StringMap.mem key (keys d) then succeed
        else Some (mkSent 0 0 (Some (Errorf "intermittent error"))
                     (mkMock (closed d) (size d) (StringMap.add key tt (keys d))))
      else succeed
  | _ => None
  end.

(** [SendMessages], lines 221-223. *)
Definition SendMessages (d : mockDLQProducer) (msgs : list ProducerMessage) : option error :=
  Some (Errorf "not supported").

(** [Close], lines 224-229. *)
Definition Close (d : mockDLQProducer) : mockDLQProducer :=
  mkMock (add_int64 (closed d) 1) (size d) (keys d).

(** [isClosed], lines 230-234. *)
Definition isClosed (d : mockDLQProducer) : bool := closed d =? 1.

(** [backlog], lines 235-239. *)
Definition backlog (d : mockDLQProducer) : Z := size d.

(** A sequence of calls of [SendMessage], in the order in which they get
    the mutex; the errors they return. *)
Fixpoint send_all (d : mockDLQProducer) (msgs : list ProducerMessage)
  : option (list (option error) * mockDLQProducer) :=
  match msgs with
  | [] => Some ([], d)
  | msg :: rest =>
      match SendMessage d msg with
      | Some r =>
          match send_all (s_mock r) rest with
          | Some (errs, d') => Some (s_err r :: errs, d')
          | None => None
          end
      | None => None
      end
  end.

Definition has_key (k : string) (msg : ProducerMessage) : bool :=
  match Key msg with
  | Some (StringEncoder key) => String.eqb key k
  | _ => false
  end.

Definition failed (r : option error) : bool :=
  match r with Some _ => true | None => false end.

(** The sends with key [k] that failed. *)
Fixpoint failures (k : string) (msgs : list ProducerMessage) (errs : list (option error))
  : nat :=
  match msgs, errs with
  | msg :: msgs', r :: errs' =>
      ((if has_key k msg && failed r then 1 else 0) + failures k msgs' errs')%nat
  | _, _ => 0%nat
  end.

Definition successes (errs : list (option error)) : nat :=
  List.length (filter (fun r => negb (failed r)) errs).

Definition string_key (msg : ProducerMessage) : bool :=
  match Key msg with
  | Some (StringEncoder _) => true
  | _ => false
  end.

(** Two records are sent, and the first of them once more. *)
Definition keyed (k : string) : ProducerMessage :=
  mkProducerMessage "orders-dlq" (Some (StringEncoder k)) (Some (ByteEncoder "payload")).

Definition demo_sends : list ProducerMessage := [keyed "k1"; keyed "k2"; keyed "k1"].

Definition demo_errs : list (option error) :=
  [Some (Errorf "intermittent error"); Some (Errorf "intermittent error"); None].

Definition demo_producer : mockDLQProducer :=
  match send_all newMockDLQProducer demo_sends with
  | Some (_, d) => d
  | None => newMockDLQProducer
  end.

End DLQMock.
(** * Properties *)

(** ** The ack manager *)

Create HintDb ackmgr.
#[local] Hint Constructors ackMgr_op : ackmgr.

Lemma evict_pending lvl l :
  filter pending (snd (evict lvl l)) = filter pending l.
Proof.
  revert lvl; induction l as [|e l IH]; intros lvl; simpl; [reflexivity|].
  unfold pending at 2. destruct (e_acked e) eqn:E; simpl.
  - apply IH.
  - unfold pending at 1. rewrite E. reflexivity.
Qed.

Lemma mark_acked_pending aid l :
  (List.length (filter pending (map (mark_acked aid) l))
   <= List.length (filter pending l))%nat.
Proof.
  induction l as [|e l IH]; simpl; [lia|].
  unfold mark_acked at 1.
  destruct e as [i o a]; simpl.
  destruct (Nat.eqb i aid); destruct a; simpl; lia.
Qed.

Lemma ackMgr_op_max m m' : ackMgr_op m m' -> maxOutstanding m' = maxOutstanding m.
Proof.
  intros [ | offset | aid | aid | ]; try reflexivity.
  - unfold GetAckID. destruct (_ =? _); reflexivity.
  - unfold Ack. destruct (find_entry _ _) as [e|]; [destruct (e_acked e)|]; reflexivity.
  - unfold Nack. destruct (find_entry _ _) as [e|]; [destruct (e_acked e)|]; reflexivity.
  - unfold CommitLevel. destruct (evict _ _). reflexivity.
Qed.

Lemma ackMgr_op_pending m m' :
  ackMgr_op m m' ->
  Z.of_nat (pendingCount m) <= maxOutstanding m ->
  Z.of_nat (pendingCount m') <= maxOutstanding m.
Proof.
  intros [ | offset | aid | aid | ] Hle; try assumption.
  - unfold GetAckID. destruct (_ =? _) eqn:E; simpl; [assumption|].
    apply Z.eqb_neq in E. unfold pendingCount in *. simpl.
    rewrite filter_app, length_app. simpl. lia.
  - unfold Ack. destruct (find_entry _ _) as [e|]; [destruct (e_acked e)|];
      simpl; try assumption.
    unfold pendingCount in *. simpl.
    pose proof (mark_acked_pending aid (unacked m)). lia.
  - unfold Nack. destruct (find_entry _ _) as [e|]; [destruct (e_acked e)|];
      simpl; assumption.
  - unfold CommitLevel, pendingCount in *.
    pose proof (evict_pending (commitLevel m) (unacked m)) as E.
    destruct (evict _ _) as [lvl rest]. simpl in *. rewrite E. assumption.
Qed.

(** ** Inverting a step *)

Lemma markOffset_push_emit site l s :
  markOffset_push site l s = emit (checkpoint_events site l s) s.
Proof.
  unfold markOffset_push, checkpoint_events. destruct (0 <=? l); [reflexivity|].
  destruct s; unfold emit; simpl. rewrite app_nil_r. reflexivity.
Qed.

Ltac break_step H :=
  repeat (cbv beta iota zeta in H;
          match type of H with
          | context [match ?x with _ => _ end] =>
              lazymatch x with
              | context [match _ with _ => _ end] => fail
              | _ => destruct x eqn:?
              end
          end);
  cbv beta iota zeta in H;
  try discriminate H.

(** After [step_inv H], with [H : step a s = Some s'], there is one
    goal per enabled transition, and [s'] is written out. *)
Ltac step_inv H :=
  unfold step in H;
  match type of H with
  | (if panicked ?s then _ else _) = _ =>
      let P := fresh "Hlive" in destruct (panicked s) eqn:P; [discriminate H|]
  end;
  try match type of H with
      | (match ?a with _ => _ end) = _ => is_var a; destruct a
      end;
  cbv beta iota delta [caller_step messageLoop_step commitLoop_step Start stop_step
                       markOffset_read CommitLevel GetAckID after_GetAckID
                       lifecycle_Start lifecycle_Stop Stop Drain stop] in H;
  try rewrite !markOffset_push_emit in H;
  break_step H;
  try rewrite !markOffset_push_emit in H;
  inversion H; subst; clear H.

(** ** Every step, seen from the ack manager *)

Lemma CommitLevel_evict m lvl rest :
  evict (commitLevel m) (unacked m) = (lvl, rest) ->
  mkAckManager (maxOutstanding m) rest lvl (nextID m) = snd (CommitLevel m).
Proof. intros E. unfold CommitLevel. rewrite E. reflexivity. Qed.

Lemma GetAckID_room offset m :
  (Z.of_nat (pendingCount m) =? maxOutstanding m) = false ->
  mkAckManager (maxOutstanding m)
    (unacked m ++ [mkEntry (nextID m) offset false]) (commitLevel m) (S (nextID m))
  = snd (GetAckID offset m).
Proof. intros E. unfold GetAckID. rewrite E. reflexivity. Qed.

Lemma step_ackMgr a s s' :
  step a s = Some s' -> ackMgr_op (ackMgr (p s)) (ackMgr (p s')).
Proof.
  intros H. step_inv H; simpl; auto with ackmgr.
  all: try (erewrite CommitLevel_evict by eassumption; auto with ackmgr).
  all: try (erewrite GetAckID_room by eassumption; auto with ackmgr).
Qed.

(** ** Invariants of runs *)

Lemma run_invariant (P : system -> Prop) :
  (forall a s s', P s -> step a s = Some s' -> P s') ->
  forall sched s s', P s -> run sched s = Some s' -> P s'.
Proof.
  intros Hstep sched. induction sched as [|a rest IH]; intros s s' HP Hrun; simpl in Hrun.
  - inversion Hrun; subst; assumption.
  - destruct (step a s) as [s1|] eqn:E; [|discriminate].
    eapply IH; [|eassumption]. eapply Hstep; eassumption.
Qed.

Lemma run_app sched1 sched2 s :
  run (sched1 ++ sched2) s =
  match run sched1 s with Some s1 => run sched2 s1 | None => None end.
Proof.
  revert s; induction sched1 as [|a rest IH]; intros s; simpl; [reflexivity|].
  destruct (step a s); [apply IH | reflexivity].
Qed.

Lemma maxUnAcked_exact opts :
  0 <= Concurrency opts -> 0 <= RcvBufferSize opts ->
  Concurrency opts + RcvBufferSize opts + 1 <= int64_max ->
  maxUnAcked opts = Concurrency opts + RcvBufferSize opts + 1.
Proof.
  unfold maxUnAcked, add_int, wrap64, int64_max. intros HC HR Hfit.
  rewrite (Z.mod_small (Concurrency opts + RcvBufferSize opts + 2 ^ 63)) by lia.
  replace (Concurrency opts + RcvBufferSize opts + 2 ^ 63 - 2 ^ 63 + 1 + 2 ^ 63)
    with (Concurrency opts + RcvBufferSize opts + 1 + 2 ^ 63) by lia.
  rewrite Z.mod_small by lia. lia.
Qed.

Lemma pending_inv_step bound a s s' :
  pending_inv bound s -> step a s = Some s' -> pending_inv bound s'.
Proof.
  intros [Hmax Hle] H. apply step_ackMgr in H.
  split.
  - rewrite (ackMgr_op_max _ _ H). assumption.
  - rewrite <- Hmax in *. eapply ackMgr_op_pending; eassumption.
Qed.

(** ** Traces *)

Lemma site_of_not_AtStop k : site_eqb (site_of k) AtStop = false.
Proof. destruct k; reflexivity. Qed.

Lemma filter_by_site_checkpoint site' site l s :
  filter (by_site site') (checkpoint_events site l s) =
  if site_eqb site site'
  then (if 0 <=? l then [EvMarkPartitionOffset site (topic (p s)) (id (p s)) l ""] else [])
  else [].
Proof.
  unfold checkpoint_events. destruct (0 <=? l); simpl; destruct (site_eqb site site'); reflexivity.
Qed.

Lemma shutdown_checkpoint site l s :
  shutdown_trace (checkpoint_events site l s) =
  if site_eqb site AtStop
  then (if 0 <=? l then [EvMarkPartitionOffset site (topic (p s)) (id (p s)) l ""] else [])
  else [].
Proof.
  unfold checkpoint_events, shutdown_trace.
  destruct (0 <=? l); simpl; destruct (site_eqb site AtStop); reflexivity.
Qed.

(** ** The commit loop keeps its ticker and leaves through one markOffset *)

Ltac use_eqs :=
  repeat match goal with
         | H : commit _ = _ |- _ => progress (rewrite H in * )
         | H : intake _ = _ |- _ => progress (rewrite H in * )
         | H : lifecycle _ = _ |- _ => progress (rewrite H in * )
         | H : stopC _ = _ |- _ => progress (rewrite H in * )
         | H : feed _ = _ |- _ => progress (rewrite H in * )
         | H : msgCh _ = _ |- _ => progress (rewrite H in * )
         end.

Lemma commit_inv_step opts a s s' :
  commit_inv opts s -> step a s = Some s' -> commit_inv opts s'.
Proof.
  intros Hinv H.
  step_inv H; unfold commit_inv in *; simpl;
    rewrite ?filter_app, ?filter_by_site_checkpoint; simpl; rewrite ?app_nil_r;
    use_eqs; simpl in *.
  all: try assumption.
  all: try (intuition (congruence || lia || auto); fail).
  all: unfold mark_events in *; simpl in *; destruct Hinv as (Hopt & Hns & Hc).
  all: try (rewrite (Hns eq_refl) in Hc; simpl in Hc).
  all: repeat match goal with
              | |- context [match ?k with ThenLoop => _ | ThenReturn => _ end] =>
                  destruct k
              | |- context [match commit ?s with CL_Return => _ | _ => _ end] =>
                  destruct (commit s)
              end; simpl in *; rewrite ?app_nil_r.
  all: try (intuition (congruence || lia || auto); fail).
  all: destruct Hc as (? & ? & Hstop & Hc); rewrite Hc.
  all: repeat split; try assumption;
    try (intros E; apply Hns in E; discriminate); eexists; reflexivity.
Qed.

(** ** The shutdown body runs once *)

Lemma update_split {A : Type} i (x y : A) l :
  nth_error l i = Some x ->
  exists l1 l2, l = (l1 ++ x :: l2)%list /\ update i y l = (l1 ++ y :: l2)%list.
Proof.
  revert i; induction l as [|h t IH]; intros [|i] E; simpl in E; try discriminate.
  - inversion E; subst. exists [], t. split; reflexivity.
  - destruct (IH i E) as (l1 & l2 & -> & Hu).
    exists (h :: l1), l2. simpl. rewrite Hu. split; reflexivity.
Qed.

Lemma owner_unique l1 l2 sp sp0 :
  in_body sp = true ->
  filter in_body (l1 ++ sp :: l2) = [sp0] ->
  sp0 = sp /\ filter in_body l1 = [] /\ filter in_body l2 = [].
Proof.
  intros Hb E. rewrite filter_app in E. simpl in E. rewrite Hb in E.
  destruct (filter in_body l1) as [|a l1'].
  - simpl in E. inversion E; subst. repeat split; reflexivity.
  - simpl in E. inversion E as [[Ha E']]. destruct l1'; discriminate.
Qed.

Lemma owner_present l1 l2 sp :
  in_body sp = true -> filter in_body (l1 ++ sp :: l2) <> [].
Proof.
  intros Hb E. rewrite filter_app in E. simpl in E. rewrite Hb in E.
  destruct (filter in_body l1); discriminate.
Qed.

Lemma waiting_not_in_body l : Forall waiting l -> filter in_body l = [].
Proof.
  induction 1 as [|sp l [d ->] _ IH]; simpl; [reflexivity|assumption].
Qed.

Lemma Forall_waiting_mid l1 l2 sp :
  Forall waiting (l1 ++ sp :: l2) -> waiting sp /\ Forall waiting (l1 ++ l2).
Proof.
  intros H. apply Forall_app in H as [H1 H2]. inversion H2; subst.
  split; [assumption|]. apply Forall_app. split; assumption.
Qed.

Lemma inv_owner l1 l2 sp c tr :
  in_body sp = true ->
  shutdown_inv_on (l1 ++ sp :: l2) c tr ->
  lifecycle c = Stopped /\ filter in_body l1 = [] /\ filter in_body l2 = [] /\
  body_done (topic c) (id c) sp (shutdown_trace tr) /\
  stopC c = match shutdown_trace tr with [] => false | _ => true end.
Proof.
  intros Hb [Hstop Hinv].
  assert (~ Forall waiting (l1 ++ sp :: l2)) as Hnw.
  { intros HF. apply Forall_waiting_mid in HF as [[d ->] _]. discriminate. }
  destruct (lifecycle c); try (destruct Hinv as [_ HF]; contradiction).
  destruct Hinv as [(sp0 & Hf & Hdone) | (Hf & _)].
  - apply owner_unique in Hf as (-> & H1 & H2); [|assumption].
    repeat split; assumption.
  - exfalso. eapply owner_present; eassumption.
Qed.

Lemma inv_make_owner l1 l2 sp c tr :
  lifecycle c = Stopped -> filter in_body l1 = [] -> filter in_body l2 = [] ->
  in_body sp = true ->
  body_done (topic c) (id c) sp (shutdown_trace tr) ->
  stopC c = match shutdown_trace tr with [] => false | _ => true end ->
  shutdown_inv_on (l1 ++ sp :: l2) c tr.
Proof.
  intros Hl H1 H2 Hb Hdone Hstop. split; [assumption|]. rewrite Hl. left.
  exists sp. split; [|assumption].
  rewrite filter_app. simpl. rewrite Hb, H1, H2. reflexivity.
Qed.

Lemma inv_make_done l1 l2 sp c tr d l :
  lifecycle c = Stopped -> filter in_body l1 = [] -> filter in_body l2 = [] ->
  in_body sp = false ->
  shutdown_trace tr = shutdown_body (topic c) (id c) d l ->
  stopC c = true ->
  shutdown_inv_on (l1 ++ sp :: l2) c tr.
Proof.
  intros Hl H1 H2 Hb Hdone Hstop. split.
  - rewrite Hdone. assumption.
  - rewrite Hl. right. split.
    + rewrite filter_app. simpl. rewrite Hb, H1, H2. reflexivity.
    + exists d, l. assumption.
Qed.

(** A thread outside the body comes, goes or returns without effect. *)
Lemma inv_idle l1 l2 sp sp' c tr :
  in_body sp = false -> in_body sp' = false ->
  (lifecycle c <> Stopped -> waiting sp') ->
  shutdown_inv_on (l1 ++ sp :: l2) c tr ->
  shutdown_inv_on (l1 ++ sp' :: l2) c tr.
Proof.
  intros Hb Hb' Hw [Hstop Hinv]. split; [assumption|].
  rewrite !filter_app in *. simpl in *. rewrite Hb in Hinv. rewrite Hb'.
  destruct (lifecycle c); try assumption.
  all: destruct Hinv as [Hst HF]; split; [assumption|].
  all: apply Forall_app in HF as [HF1 HF2]; inversion HF2; subst.
  all: apply Forall_app; split; [assumption|constructor; [apply Hw; discriminate|assumption]].
Qed.

Lemma inv_leave l1 l2 sp c tr :
  in_body sp = false ->
  shutdown_inv_on (l1 ++ sp :: l2) c tr ->
  shutdown_inv_on (l1 ++ l2) c tr.
Proof.
  intros Hb [Hstop Hinv]. split; [assumption|].
  rewrite !filter_app in *. simpl in *. rewrite Hb in Hinv.
  destruct (lifecycle c); try assumption.
  all: destruct Hinv as [Hst HF]; split; [assumption|].
  all: apply Forall_waiting_mid in HF as [_ HF]; assumption.
Qed.

Lemma inv_arrive l1 l2 d c tr :
  shutdown_inv_on (l1 ++ l2) c tr ->
  shutdown_inv_on (l1 ++ SP_Enter d :: l2) c tr.
Proof.
  intros [Hstop Hinv]. split; [assumption|].
  rewrite !filter_app in *. simpl in *.
  destruct (lifecycle c); try assumption.
  all: destruct Hinv as [Hst HF]; split; [assumption|].
  all: apply Forall_app in HF as [HF1 HF2]; apply Forall_app; split; [assumption|].
  all: constructor; [exists d; reflexivity|assumption].
Qed.

Lemma stop_step_on sp s sp' s1 l1 l2 :
  stop_step sp s = Some (sp', s1) ->
  shutdown_inv_on (l1 ++ sp :: l2) (p s) (trace s) ->
  shutdown_inv_on (l1 ++ sp' :: l2) (p s1) (trace s1).
Proof.
  intros H Hinv.
  destruct sp; simpl in H; unfold markOffset_read, CommitLevel in H;
    rewrite ?markOffset_push_emit in H; break_step H;
    inversion H; subst; clear H.
  - (* the guard is taken *)
    destruct Hinv as [Hstop Hinv].
    destruct (lifecycle (p s)) eqn:Hl; simpl in Heqp0; inversion Heqp0; subst.
    all: destruct Hinv as [Hst HF]; apply Forall_waiting_mid in HF as [_ HF].
    all: apply waiting_not_in_body in HF; rewrite filter_app in HF.
    all: apply app_eq_nil in HF as [H1 H2].
    all: apply inv_make_owner; simpl; try assumption; try reflexivity.
    all: rewrite Hst; assumption.
  - (* the guard is closed *)
    destruct (lifecycle (p s1)) eqn:Hl; simpl in Heqp0; inversion Heqp0; subst.
    eapply inv_idle; [| | |eassumption]; try reflexivity.
    intros Hne. congruence.
  - apply inv_owner in Hinv as (Hl & H1 & H2 & Hdone & Hstop); [|reflexivity].
    simpl in Hdone. rewrite Hdone in Hstop. congruence.
  - apply inv_owner in Hinv as (Hl & H1 & H2 & Hdone & Hstop); [|reflexivity].
    simpl in Hdone.
    apply inv_make_owner; simpl; try assumption; try reflexivity;
      unfold shutdown_trace in *; rewrite filter_app, Hdone; reflexivity.
  - apply inv_owner in Hinv as (Hl & H1 & H2 & Hdone & Hstop); [|reflexivity].
    simpl in Hdone.
    apply inv_make_owner; simpl; try assumption; try reflexivity;
      unfold shutdown_trace in *; rewrite filter_app, Hdone; simpl.
    + exists d. reflexivity.
    + rewrite Hstop, Hdone. reflexivity.
  - apply inv_owner in Hinv as (Hl & H1 & H2 & (d & Hdone) & Hstop); [|reflexivity].
    apply inv_make_owner; simpl; try assumption; try reflexivity;
      unfold shutdown_trace in *; rewrite filter_app, Hdone; simpl.
    + exists d. reflexivity.
    + rewrite Hstop, Hdone. reflexivity.
  - apply inv_owner in Hinv as (Hl & H1 & H2 & (d & Hdone) & Hstop); [|reflexivity].
    apply inv_make_owner; simpl; try assumption; try reflexivity;
      unfold shutdown_trace in *;
      rewrite filter_app; fold (shutdown_trace (checkpoint_events AtStop latestOff s));
      rewrite shutdown_checkpoint, Hdone; simpl.
    + exists d, latestOff. unfold mark_events. reflexivity.
    + rewrite Hstop, Hdone. reflexivity.
  - apply inv_owner in Hinv as (Hl & H1 & H2 & (d & l & Hdone) & Hstop); [|reflexivity].
    apply inv_make_owner; simpl; try assumption; try reflexivity;
      unfold shutdown_trace in *; rewrite filter_app, Hdone; simpl.
    + exists d, l. reflexivity.
    + rewrite Hstop, Hdone. reflexivity.
  - apply inv_owner in Hinv as (Hl & H1 & H2 & (d & l & Hdone) & Hstop); [|reflexivity].
    apply (inv_make_done _ _ _ _ _ d l); simpl; try assumption; try reflexivity.
    + unfold shutdown_trace in *. rewrite filter_app, Hdone. simpl.
      unfold shutdown_body. simpl. rewrite <- ?app_assoc. reflexivity.
    + rewrite Hstop, Hdone. reflexivity.
Qed.

Lemma stop_step_frame sp s sp' s1 :
  stop_step sp s = Some (sp', s1) ->
  intake s1 = intake s /\ commit s1 = commit s /\ callers s1 = callers s /\
  held s1 = held s /\ abandoned s1 = abandoned s /\ pConsumer s1 = pConsumer s /\
  msgCh (p s1) = msgCh (p s) /\ options (p s1) = options (p s) /\
  topic (p s1) = topic (p s) /\ id (p s1) = id (p s).
Proof.
  intros H.
  destruct sp; simpl in H; unfold markOffset_read, CommitLevel in H;
    rewrite ?markOffset_push_emit in H; break_step H;
    inversion H; subst; clear H; simpl; repeat split; reflexivity.
Qed.

Lemma inv_on_ext threads c c' tr tr' :
  stopC c' = stopC c -> lifecycle c' = lifecycle c ->
  topic c' = topic c -> id c' = id c ->
  shutdown_trace tr' = shutdown_trace tr ->
  shutdown_inv_on threads c tr -> shutdown_inv_on threads c' tr'.
Proof.
  unfold shutdown_inv_on. intros -> -> -> -> ->. trivial.
Qed.

Lemma caller_step_shutdown i s s' :
  caller_step i s = Some s' -> shutdown_inv s -> shutdown_inv s'.
Proof.
  unfold caller_step. intros H Hinv.
  destruct (nth_error (callers s) i) as [sp|] eqn:Hn; [|discriminate].
  destruct (stop_step sp s) as [[sp' s1]|] eqn:Hs; [|discriminate].
  inversion H; subst; clear H.
  pose proof (stop_step_frame _ _ _ _ Hs) as (Hi & _ & Hc & _).
  destruct (update_split i sp sp' _ Hn) as (c1 & c2 & Hsplit & Hupd).
  unfold shutdown_inv, stop_threads in *. simpl.
  rewrite Hi, Hc, Hupd. rewrite Hsplit in Hinv.
  rewrite app_assoc in *. eapply stop_step_on; eassumption.
Qed.

Lemma drain_step_shutdown c s s' sp :
  intake s = ML_Drain sp ->
  messageLoop_step c s = Some s' -> shutdown_inv s -> shutdown_inv s'.
Proof.
  unfold messageLoop_step. intros Hi H Hinv. rewrite Hi in H.
  unfold shutdown_inv, stop_threads in *. rewrite Hi in Hinv.
  destruct (stop_step sp s) as [[sp' s1]|] eqn:Hs; inversion H; subst; clear H; simpl.
  - pose proof (stop_step_frame _ _ _ _ Hs) as (_ & _ & Hc & _). rewrite Hc.
    apply (stop_step_on _ _ _ _ [] _ Hs). assumption.
  - destruct sp; try discriminate.
    + simpl in Hs. destruct (lifecycle_Stop _) as [[|] ?]; discriminate.
    + simpl in Hs. destruct (stopC _); discriminate.
    + simpl in Hs. destruct (markOffset_read _ _); discriminate.
    + apply (inv_leave [] _ SP_Return); [reflexivity|assumption].
Qed.

Lemma shutdown_trace_app tr1 tr2 :
  shutdown_trace (tr1 ++ tr2) = (shutdown_trace tr1 ++ shutdown_trace tr2)%list.
Proof. apply filter_app. Qed.

Ltac shutdown_frame :=
  eapply inv_on_ext; [.. | eassumption]; simpl; try reflexivity;
  rewrite shutdown_trace_app, ?shutdown_checkpoint; simpl;
  try match goal with |- context [site_of ?k] => destruct k end; simpl;
  rewrite ?app_nil_r; reflexivity.

Lemma shutdown_inv_step a s s' :
  shutdown_inv s -> step a s = Some s' -> shutdown_inv s'.
Proof.
  intros Hinv H.
  destruct a.
  4: { unfold step in H. destruct (panicked s); [discriminate|].
       eapply caller_step_shutdown; eassumption. }
  4: { destruct (intake s) eqn:Hi.
       4: { unfold step in H. destruct (panicked s); [discriminate|].
            eapply drain_step_shutdown; eassumption. }
       all: step_inv H; try congruence.
       all: unfold shutdown_inv, stop_threads in *; simpl; use_eqs; simpl in *.
       all: try assumption.
       all: try shutdown_frame.
       all: try (apply (inv_arrive []); simpl; shutdown_frame). }
  all: step_inv H.
  all: unfold shutdown_inv, stop_threads in *; simpl; use_eqs; simpl in *.
  all: try assumption.
  all: try shutdown_frame.
  all: try (rewrite app_assoc; apply inv_arrive; rewrite app_nil_r; assumption).
  - (* Start *)
    unfold shutdown_inv_on in *. rewrite Heqr in Hinv. simpl.
    destruct Hinv as (Hstop & Hst & HF).
    rewrite shutdown_trace_app. simpl. rewrite app_nil_r.
    repeat split; try assumption.
    apply Forall_app in HF as [_ HF]. assumption.
Qed.

(** ** Commit levels never decrease *)

Lemma chain_lower lo lo' l hi : lo' <= lo -> chain lo l hi -> chain lo' l hi.
Proof. destruct l; simpl; intros; [lia|intuition lia]. Qed.

Lemma chain_bounds lo l hi : chain lo l hi -> lo <= hi.
Proof.
  revert lo; induction l as [|x l IH]; simpl; intros lo H; [assumption|].
  destruct H as [Hlt H]. apply IH in H. lia.
Qed.

Lemma chain_remove lo l1 x l2 hi :
  chain lo (l1 ++ x :: l2) hi -> chain lo (l1 ++ l2) hi.
Proof.
  revert lo; induction l1 as [|y l1 IH]; simpl; intros lo H.
  - destruct H as [Hlt H]. eapply chain_lower; [|eassumption]. lia.
  - destruct H as [Hlt H]. split; [assumption|]. apply IH; assumption.
Qed.

Lemma chain_drop lo l1 l2 l3 hi :
  chain lo (l1 ++ l2 ++ l3) hi -> chain lo (l1 ++ l3) hi.
Proof.
  induction l2 as [|x l2 IH]; simpl; intros H; [assumption|].
  apply IH. eapply chain_remove; eassumption.
Qed.

Lemma chain_snoc lo l hi x :
  chain lo l hi -> hi < x -> chain lo (l ++ [x]) x.
Proof.
  revert lo; induction l as [|y l IH]; simpl; intros lo H Hx.
  - split; lia.
  - destruct H as [Hlt H]. split; [assumption|]. apply IH; assumption.
Qed.

Lemma chain_member lo l hi x : chain lo l hi -> In x l -> lo < x.
Proof.
  revert lo; induction l as [|y l IH]; simpl; intros lo H Hin; [contradiction|].
  destruct H as [Hlt H]. destruct Hin as [->|Hin]; [assumption|].
  specialize (IH _ H Hin). lia.
Qed.

Lemma evict_chain l : forall lvl rest hi z l',
  evict lvl l = (z, l') ->
  chain lvl (map e_offset l ++ rest) hi ->
  lvl <= z /\ chain z (map e_offset l' ++ rest) hi.
Proof.
  induction l as [|e l IH]; simpl; intros lvl rest hi z l' E H.
  - inversion E; subst. split; [lia|assumption].
  - destruct (e_acked e).
    + destruct H as [Hlt H]. destruct (IH _ _ _ _ _ E H) as [Hle Hc].
      split; [lia|assumption].
    + inversion E; subst. split; [lia|assumption].
Qed.

Lemma mark_acked_offsets aid l :
  map e_offset (map (mark_acked aid) l) = map e_offset l.
Proof.
  induction l as [|e l IH]; simpl; [reflexivity|]. rewrite IH. f_equal.
  unfold mark_acked. destruct (Nat.eqb (e_id e) aid); reflexivity.
Qed.

Lemma commit_levels_app tr1 tr2 :
  commit_levels (tr1 ++ tr2) = (commit_levels tr1 ++ commit_levels tr2)%list.
Proof.
  induction tr1 as [|e tr1 IH]; simpl; [reflexivity|].
  destruct e; simpl; rewrite ?IH; reflexivity.
Qed.

Lemma checkpoints_app tr1 tr2 :
  checkpoints (tr1 ++ tr2) = (checkpoints tr1 ++ checkpoints tr2)%list.
Proof.
  induction tr1 as [|e tr1 IH]; simpl; [reflexivity|].
  destruct e; simpl; rewrite ?IH; reflexivity.
Qed.

Lemma commit_levels_checkpoint site l s :
  commit_levels (checkpoint_events site l s) = [].
Proof. unfold checkpoint_events. destruct (0 <=? l); reflexivity. Qed.

Lemma nondecreasing_from_snoc lo l x :
  nondecreasing_from lo l = true -> Forall (fun r => r <= x) l -> lo <= x ->
  nondecreasing_from lo (l ++ [x]) = true.
Proof.
  revert lo; induction l as [|y l IH]; simpl; intros lo H HF Hlo.
  - rewrite andb_true_r. apply Z.leb_le. assumption.
  - apply andb_true_iff in H as [H1 H2]. inversion HF; subst.
    rewrite H1. simpl. apply IH; assumption.
Qed.

Lemma nondecreasing_from_weaken lo l :
  nondecreasing_from lo l = true -> nondecreasing l = true.
Proof.
  destruct l; simpl; [reflexivity|]. intros H.
  apply andb_true_iff in H as [_ H]. assumption.
Qed.

Lemma order_inv_step last a s s' :
  (forall scm, a <> Broker_Produce scm) ->
  order_inv last s -> step a s = Some s' -> order_inv last s'.
Proof.
  intros Hnp Hinv H.
  step_inv H; try (exfalso; eapply Hnp; reflexivity);
    unfold order_inv, offsets_in_order in *; simpl;
    rewrite ?commit_levels_app, ?commit_levels_checkpoint; simpl;
    rewrite ?app_nil_r, ?mark_acked_offsets; use_eqs; simpl in *.
  all: try assumption.
  all: try (unfold Ack, Nack;
            destruct (find_entry _ _) as [e|]; [destruct (e_acked e)|]; simpl;
            rewrite ?mark_acked_offsets; assumption).
  all: destruct Hinv as (H0 & Hc & HF & Hn).
  all: try (repeat split; try assumption;
            first [ eapply chain_remove; eassumption
                  | eapply chain_drop; eassumption
                  | rewrite map_app, <- app_assoc; assumption ]).
  all: match goal with
       | E : evict _ _ = _ |- _ =>
           destruct (evict_chain _ _ _ _ _ _ E Hc) as [Hle Hc']
       end.
  all: repeat split; [lia|assumption| |].
  all: try (apply Forall_app; split;
            [eapply Forall_impl; [|eassumption]; simpl; intros; lia
            |constructor; [lia|constructor]]).
  all: apply nondecreasing_from_snoc;
    [assumption | eapply Forall_impl; [|eassumption]; simpl; intros; lia | lia].
Qed.

Lemma order_inv_produce last scm s s' :
  last < Offset scm ->
  order_inv last s -> step (Broker_Produce scm) s = Some s' ->
  order_inv (Offset scm) s'.
Proof.
  intros Hlt (H0 & Hc & HF & Hn) H.
  step_inv H. unfold order_inv, offsets_in_order. simpl.
  repeat split; try assumption.
  rewrite map_app. simpl. rewrite !app_assoc. apply (chain_snoc _ _ last); [|assumption].
  rewrite <- app_assoc. assumption.
Qed.

Lemma order_inv_run sched : forall last s s',
  order_inv last s -> feed_ordered last sched = true ->
  run sched s = Some s' ->
  exists last', order_inv last' s'.
Proof.
  induction sched as [|a rest IH]; intros last s s' Hinv Hord Hrun; simpl in Hrun.
  - inversion Hrun; subst. exists last. assumption.
  - destruct (step a s) as [s1|] eqn:E; [|discriminate].
    destruct a;
      try (apply (IH last s1 s'); [|assumption|assumption];
           eapply order_inv_step; [|eassumption|eassumption];
           intros scm0 Habs; discriminate).
    simpl in Hord. apply andb_true_iff in Hord as [Hlt Hord].
    apply Z.ltb_lt in Hlt.
    apply (IH (Offset scm) s1 s'); [|assumption|assumption].
    eapply order_inv_produce; eassumption.
Qed.

Lemma order_inv_boot pTopic pPartition opts cap highWaterMark :
  order_inv noCommit (boot pTopic pPartition opts cap highWaterMark).
Proof.
  unfold order_inv, offsets_in_order. simpl. unfold noCommit.
  repeat split; try lia. constructor.
Qed.

Lemma atomic_pushes tr : forall pending lr lp,
  lp <= lr ->
  (forall site off, pending = Some (site, off) -> off = lr) ->
  nondecreasing_from lr (commit_levels tr) = true ->
  marks_atomic pending tr = true ->
  nondecreasing_from lp (checkpoints tr) = true.
Proof.
  induction tr as [|e tr IH]; intros pending lr lp Hle Hpend Hreads Hatom;
    [reflexivity|].
  destruct e; simpl in *; try (eapply IH; eassumption).
  - (* a level is read *)
    apply andb_true_iff in Hreads as [Hlo Hreads]. apply Z.leb_le in Hlo.
    eapply (IH _ off lp); [lia| |eassumption|eassumption].
    intros site0 off0 E. inversion E; subst. reflexivity.
  - (* a checkpoint is pushed *)
    destruct pending as [[site' off']|]; [|discriminate].
    apply andb_true_iff in Hatom as [Hsame Hatom].
    apply andb_true_iff in Hsame as [_ Hoff]. apply Z.eqb_eq in Hoff. subst off'.
    rewrite (Hpend _ _ eq_refl) in *.
    apply andb_true_iff. split; [apply Z.leb_le; assumption|].
    eapply (IH None lr lr); [lia| |eassumption|eassumption].
    intros site0 off0 E. discriminate.
Qed.

(** ** Handles of abandoned messages stay unresolved *)

Lemma evict_keeps_pending e l : forall lvl,
  In e l -> e_acked e = false -> In e (snd (evict lvl l)).
Proof.
  induction l as [|x l IH]; simpl; intros lvl Hin Hp; [contradiction|].
  destruct (e_acked x) eqn:Hx.
  - destruct Hin as [->|Hin]; [congruence|]. apply IH; assumption.
  - simpl. assumption.
Qed.

Lemma mark_acked_other e aid l :
  In e l -> e_id e <> aid -> In e (map (mark_acked aid) l).
Proof.
  intros Hin Hne. apply in_map_iff. exists e. split; [|assumption].
  unfold mark_acked. destruct (Nat.eqb (e_id e) aid) eqn:E; [|reflexivity].
  apply Nat.eqb_eq in E. contradiction.
Qed.

Lemma holds_some aid l m : holds aid l = Some m -> In m l /\ msg_ackID m = aid.
Proof.
  unfold holds. intros H. apply find_some in H as [Hin Heq].
  apply Nat.eqb_eq in Heq. split; assumption.
Qed.

Lemma checkpoint_events_marks e site l s :
  In e (checkpoint_events site l s) ->
  match e with EvAck _ | EvNack _ | EvSend _ => False | _ => True end.
Proof.
  unfold checkpoint_events. destruct (0 <=? l); simpl; [|contradiction].
  intros [<-|[<-|[<-|[<-|[]]]]]; exact I.
Qed.

Lemma Nack_same aid m : snd (Nack aid m) = m.
Proof.
  unfold Nack. destruct (find_entry _ _) as [e|]; [destruct (e_acked e)|]; reflexivity.
Qed.

Lemma Ack_nextID aid m : nextID (snd (Ack aid m)) = nextID m.
Proof.
  unfold Ack. destruct (find_entry _ _) as [e|]; [destruct (e_acked e)|]; reflexivity.
Qed.

Lemma Ack_keeps aid m e :
  In e (unacked m) -> e_id e <> aid -> In e (unacked (snd (Ack aid m))).
Proof.
  intros Hin Hne. unfold Ack.
  destruct (find_entry _ _) as [e'|]; [destruct (e_acked e')|]; simpl; try assumption.
  apply mark_acked_other; assumption.
Qed.

Ltac split_cases :=
  repeat match goal with
         | H : _ \/ _ |- _ => destruct H
         | H : False |- _ => contradiction
         | H : In _ [] |- _ => contradiction
         | H : In _ (checkpoint_events _ _ _) |- _ =>
             apply checkpoint_events_marks in H; contradiction
         | H : @eq event _ _ |- _ => discriminate H || (inversion H; subst; clear H)
         | H : @eq Message _ ?m |- _ => is_var m; subst m
         | H : @eq Message ?m _ |- _ => is_var m; subst m
         end.

Lemma handle_inv_step a s s' :
  handle_inv s -> step a s = Some s' -> handle_inv s'.
Proof.
  intros Hinv H.
  step_inv H; unfold handle_inv in *; simpl; use_eqs; simpl in *;
    rewrite ?Nack_same, ?Ack_nextID.
  all: try assumption.
  all: destruct Hinv as (I1 & I2 & I3 & I4 & I5 & I6).
  all: repeat match goal with
              | H : holds _ _ = Some _ |- _ => apply holds_some in H as [? ?]
              end.
  all: repeat split; intros; rewrite ?in_app_iff in *; simpl in *; split_cases.
  all: try solve [eauto 7].
  all: try solve [simpl; lia].
  all: try solve [match goal with
                  | |- (msg_ackID ?m < _)%nat =>
                      assert (msg_ackID m < nextID (ackMgr (p s)))%nat
                        by (apply I1; tauto); lia
                  | |- msg_ackID (newMessage _ _) <> msg_ackID ?m =>
                      assert (msg_ackID m < nextID (ackMgr (p s)))%nat
                        by (apply I1; tauto); simpl; lia
                  | E : evict ?a ?b = (_, ?l) |- In _ ?l =>
                      replace l with (snd (evict a b)) by (rewrite E; reflexivity);
                      apply evict_keeps_pending; [apply I4; tauto|reflexivity]
                  | H : In (EvSend ?m) (trace _) |- _ => destruct (I6 m H); tauto
                  | H : In (EvAck ?aid) (trace _) |- exists _, _ =>
                      destruct (I5 aid) as (mh & ? & ?); [tauto|];
                      exists mh; rewrite ?in_app_iff; tauto
                  | H : In (EvNack ?aid) (trace _) |- exists _, _ =>
                      destruct (I5 aid) as (mh & ? & ?); [tauto|];
                      exists mh; rewrite ?in_app_iff; tauto
                  | |- msg_ackID _ <> msg_ackID _ =>
                      first [ apply I2; tauto | apply I3; tauto
                            | apply not_eq_sym; apply I2; tauto
                            | apply not_eq_sym; apply I3; tauto ]
                  | |- In _ (unacked (snd (Ack _ _))) =>
                      apply Ack_keeps; [apply I4; tauto|];
                      simpl; subst;
                      first [ apply I2; tauto | apply I3; tauto ]
                  | |- _ => tauto
                  end].
Qed.

Lemma handle_inv_boot pTopic pPartition opts cap highWaterMark :
  handle_inv (boot pTopic pPartition opts cap highWaterMark).
Proof.
  unfold handle_inv. simpl. repeat split; intros; tauto.
Qed.

Lemma shutdown_inv_boot pTopic pPartition opts cap highWaterMark :
  shutdown_inv (boot pTopic pPartition opts cap highWaterMark).
Proof.
  unfold shutdown_inv, shutdown_inv_on. simpl. repeat split. constructor.
Qed.

Lemma commit_inv_boot pTopic pPartition opts cap highWaterMark :
  commit_inv opts (boot pTopic pPartition opts cap highWaterMark).
Proof.
  unfold commit_inv. simpl. repeat split.
Qed.

(** ** Reachable states *)

Lemma reachable_commit_inv pTopic pPartition opts cap highWaterMark sched s :
  run sched (boot pTopic pPartition opts cap highWaterMark) = Some s ->
  commit_inv opts s.
Proof.
  apply run_invariant; [|apply commit_inv_boot].
  intros a s1 s2. apply commit_inv_step.
Qed.

Lemma reachable_shutdown_inv pTopic pPartition opts cap highWaterMark sched s :
  run sched (boot pTopic pPartition opts cap highWaterMark) = Some s ->
  shutdown_inv s.
Proof.
  apply run_invariant; [|apply shutdown_inv_boot].
  intros a s1 s2. apply shutdown_inv_step.
Qed.

Lemma reachable_handle_inv pTopic pPartition opts cap highWaterMark sched s :
  run sched (boot pTopic pPartition opts cap highWaterMark) = Some s ->
  handle_inv s.
Proof.
  apply run_invariant; [|apply handle_inv_boot].
  intros a s1 s2. apply handle_inv_step.
Qed.

Lemma names_kept a s s' :
  step a s = Some s' -> topic (p s') = topic (p s) /\ id (p s') = id (p s).
Proof. intros H. step_inv H; simpl; split; reflexivity. Qed.

Lemma reachable_names pTopic pPartition opts cap highWaterMark sched s :
  run sched (boot pTopic pPartition opts cap highWaterMark) = Some s ->
  topic (p s) = pTopic /\ id (p s) = pPartition.
Proof.
  apply (run_invariant (fun s => topic (p s) = pTopic /\ id (p s) = pPartition)).
  - intros a s1 s2 [Ht Hi] H. apply names_kept in H as [-> ->]. split; assumption.
  - split; reflexivity.
Qed.

Lemma wrap64_exact z : int64_min <= z <= int64_max -> wrap64 z = z.
Proof.
  unfold wrap64, int64_min, int64_max. intros H.
  rewrite Z.mod_small by lia. lia.
Qed.

Lemma set_ackMgr_same s : set_ackMgr (ackMgr (p s)) s = s.
Proof. destruct s as [[] ? ? ? ? ? ? ? ? ?]. reflexivity. Qed.

Lemma GetAckID_failed offset m e :
  fst (GetAckID offset m) = inr e -> GetAckID offset m = (inr ErrCapacity, m).
Proof.
  unfold GetAckID. destruct (_ =? _); simpl; [reflexivity|discriminate].
Qed.

(** ** The shutdown body as a whole *)

Lemma body_prefix tp part sp st :
  body_done tp part sp st ->
  exists d l, prefix_of st (shutdown_body tp part d l).
Proof.
  unfold prefix_of, shutdown_body.
  destruct sp; simpl; intros H; try contradiction.
  - subst. exists d, 0. eexists. reflexivity.
  - subst. exists d, 0. eexists. reflexivity.
  - destruct H as (d & ->). exists d, 0. eexists. reflexivity.
  - destruct H as (d & ->). exists d, latestOff. eexists. reflexivity.
  - destruct H as (d & l & ->). exists d, l. eexists.
    simpl. rewrite <- ?app_assoc. reflexivity.
  - destruct H as (d & l & ->). exists d, l. exists [EvCounter KafkaPartitionStopped 1].
    simpl. rewrite <- ?app_assoc. reflexivity.
Qed.

Lemma shutdown_inv_prefix s :
  shutdown_inv s ->
  exists d l, prefix_of (shutdown_trace (trace s))
                (shutdown_body (topic (p s)) (id (p s)) d l).
Proof.
  intros [_ Hinv].
  destruct (lifecycle (p s)).
  - destruct Hinv as [-> _]. exists 0, 0. eexists. reflexivity.
  - destruct Hinv as [-> _]. exists 0, 0. eexists. reflexivity.
  - destruct Hinv as [(sp & _ & Hdone) | (_ & d & l & ->)].
    + eapply body_prefix; eassumption.
    + exists d, l, []. apply app_nil_r.
Qed.

Lemma shutdown_inv_complete s :
  shutdown_inv s -> shutdown_complete s ->
  exists d l, shutdown_trace (trace s) = shutdown_body (topic (p s)) (id (p s)) d l.
Proof.
  intros [_ Hinv] [Hl Hnone]. rewrite Hl in Hinv.
  destruct Hinv as [(sp & Hf & _) | (_ & Hbody)]; [|assumption].
  rewrite Hnone in Hf. discriminate.
Qed.

Lemma shutdown_inv_single s :
  shutdown_inv s -> (List.length (filter in_body (stop_threads s)) <= 1)%nat.
Proof.
  intros [_ Hinv]. destruct (lifecycle (p s)).
  - destruct Hinv as [_ HF]. rewrite (waiting_not_in_body _ HF). simpl. lia.
  - destruct Hinv as [_ HF]. rewrite (waiting_not_in_body _ HF). simpl. lia.
  - destruct Hinv as [(sp & -> & _) | (-> & _)]; simpl; lia.
Qed.

Lemma by_site_AtStop_shutdown tr :
  filter (by_site AtStop) tr = filter (by_site AtStop) (shutdown_trace tr).
Proof.
  unfold shutdown_trace. induction tr as [|e tr IH]; simpl; [reflexivity|].
  destruct e; simpl; rewrite ?IH; try reflexivity.
  - destruct (site_eqb site AtStop) eqn:E; simpl; rewrite ?E; reflexivity.
  - destruct (site_eqb site AtStop) eqn:E; simpl; rewrite ?E; reflexivity.
  - destruct m; simpl; rewrite ?IH; reflexivity.
Qed.

Lemma shutdown_body_marks tp part d l :
  filter (by_site AtStop) (shutdown_body tp part d l) = mark_events AtStop tp part l.
Proof.
  unfold shutdown_body, mark_events. simpl. destruct (0 <=? l); reflexivity.
Qed.

(** ** The drain started by the intake loop comes to its end *)

Lemma drain_progress s sp :
  shutdown_inv s -> panicked s = false -> intake s = ML_Drain sp ->
  sp <> SP_Return ->
  exists s1 sp', step (Intake TakeFirst) s = Some s1 /\ intake s1 = ML_Drain sp' /\
                 panicked s1 = false /\ (rank sp' < rank sp)%nat.
Proof.
  intros Hinv Hlive Hi Hsp. unfold step. rewrite Hlive. unfold messageLoop_step. rewrite Hi.
  destruct sp; try congruence; simpl.
  - destruct (lifecycle_Stop (lifecycle (p s))) as [[|] l'];
      eexists; eexists; (split; [reflexivity|]); simpl; repeat split; try assumption; simpl; lia.
  - unfold shutdown_inv, stop_threads in Hinv. rewrite Hi in Hinv. simpl in Hinv.
    apply (inv_owner [] _ (SP_CloseStopC d)) in Hinv as (_ & _ & _ & Hdone & Hstop);
      [|reflexivity].
    simpl in Hdone. rewrite Hdone in Hstop. rewrite Hstop.
    eexists; eexists; (split; [reflexivity|]); simpl; repeat split; try assumption; simpl; lia.
  - eexists; eexists; (split; [reflexivity|]); simpl; repeat split; try assumption; simpl; lia.
  - unfold markOffset_read. destruct (CommitLevel (ackMgr (p s))) as [lvl m'].
    eexists; eexists; (split; [reflexivity|]); simpl; repeat split; try assumption; simpl; lia.
  - rewrite markOffset_push_emit.
    eexists; eexists; (split; [reflexivity|]); simpl; repeat split; try assumption; simpl; lia.
  - eexists; eexists; (split; [reflexivity|]); simpl; repeat split; try assumption; simpl; lia.
  - eexists; eexists; (split; [reflexivity|]); simpl; repeat split; try assumption; simpl; lia.
Qed.

Lemma drain_terminates k : forall sp s,
  (rank sp <= k)%nat ->
  shutdown_inv s -> panicked s = false -> intake s = ML_Drain sp ->
  exists n s', run (repeat (Intake TakeFirst) n) s = Some s' /\ intake s' = ML_Return.
Proof.
  induction k as [|k IH]; intros sp s Hk Hinv Hlive Hi.
  - destruct sp; simpl in Hk; try lia.
    exists 1%nat. eexists. simpl. unfold step. rewrite Hlive.
    unfold messageLoop_step. rewrite Hi. simpl. split; reflexivity.
  - destruct sp.
    8: { exists 1%nat. eexists. simpl. unfold step. rewrite Hlive.
         unfold messageLoop_step. rewrite Hi. simpl. split; reflexivity. }
    all: match goal with
         | _ : intake ?s0 = ML_Drain ?sp0 |- _ =>
             destruct (drain_progress s0 sp0 Hinv Hlive Hi) as
               (s1 & sp' & Hstep & Hi1 & Hlive1 & Hrank); [discriminate|]
         end.
    all: destruct (IH sp' s1) as (n & s' & Hrun & Hret);
      [lia | eapply shutdown_inv_step; eassumption | assumption | assumption |].
    all: exists (S n), s'; simpl; rewrite Hstep; split; assumption.
Qed.

(** ** markOffset without interruption *)

Lemma markOffset_steps s t k c1 c2 :
  panicked s = false -> commit s = CL_MarkRead t k ->
  run [Commit c1; Commit c2] s =
  Some (set_commit (match k with ThenLoop => CL_Select t | ThenReturn => CL_Return end)
          (markOffset (site_of k) s)).
Proof.
  intros Hlive Hc. simpl. unfold step at 1. rewrite Hlive.
  unfold commitLoop_step. rewrite Hc. unfold markOffset, markOffset_read.
  destruct (CommitLevel (ackMgr (p s))) as [lvl m']. unfold step. simpl.
  rewrite Hlive. simpl. rewrite !markOffset_push_emit. reflexivity.
Qed.

(** ** The shutdown waits for a duration that was asked for *)

Lemma in_update {A : Type} (x y : A) i l :
  In x (update i y l) -> x = y \/ In x l.
Proof.
  revert i; induction l as [|h t IH]; intros [|i]; simpl; try tauto.
  all: intros [<-|H]; auto; destruct (IH _ H); auto.
Qed.

Lemma duration_inv_incl opts R R' s :
  incl R R' -> duration_inv opts R s -> duration_inv opts R' s.
Proof.
  intros Hincl (Ho & Hm & Ht & Hs). repeat split; auto.
  intros sp d Hin Hw. apply Hincl. eapply Ht; eassumption.
Qed.

Lemma duration_inv_step opts R a s s' :
  duration_inv opts R s -> step a s = Some s' ->
  duration_inv opts (asked a ++ R) s'.
Proof.
  intros Hinv H.
  step_inv H; unfold duration_inv, stop_threads, waits_for in *; simpl;
    use_eqs; simpl in *.
  all: try assumption.
  all: destruct Hinv as (Ho & Hm & Ht & Hs).
  all: repeat match goal with
              | H : nth_error _ _ = Some _ |- _ => apply nth_error_In in H
              end.
  all: repeat split; auto; intros; rewrite ?in_app_iff in *; simpl in *.
  all: repeat match goal with
              | H : In _ (update _ _ _) |- _ => apply in_update in H
              | H : _ \/ _ |- _ => destruct H
              | H : False |- _ => contradiction
              | H : In _ (checkpoint_events _ _ _) |- _ =>
                  unfold checkpoint_events in H;
                  destruct (0 <=? _); simpl in H
              | H : @eq event _ _ |- _ =>
                  discriminate H || (injection H; intros; clear H; subst)
              | H : @eq stop_pc _ _ |- _ =>
                  discriminate H || (injection H; intros; clear H; subst)
              end.
  all: try solve [eauto 8 | right; eauto 8 | left; reflexivity | congruence].
  all: subst;
    repeat match goal with
           | H : @eq stop_pc _ _ |- _ =>
               discriminate H || (injection H; intros; clear H; subst)
           end.
  all: try (right; assumption).
  all: try solve [left; reflexivity].
  all: try solve [ match goal with
                   | H : In ?sp _ |- _ =>
                       first [ apply (Ht sp) | right; apply (Ht sp) ];
                       [rewrite ?in_app_iff; simpl; tauto | intuition auto]
                   | _ : forall sp d, ?sp0 = sp \/ _ -> _ |- _ =>
                       first [ apply (Ht sp0) | right; apply (Ht sp0) ];
                       [left; reflexivity | intuition auto]
                   end ].
Qed.

Lemma duration_inv_run opts sched : forall R s s',
  duration_inv opts R s -> run sched s = Some s' ->
  duration_inv opts (flat_map asked sched ++ R) s'.
Proof.
  induction sched as [|a rest IH]; intros R s s' Hinv Hrun; simpl in Hrun.
  - inversion Hrun; subst. exact Hinv.
  - destruct (step a s) as [s1|] eqn:E; [|discriminate].
    pose proof (duration_inv_step _ _ _ _ _ Hinv E) as H1.
    apply (IH _ _ _ H1) in Hrun.
    eapply duration_inv_incl; [|eassumption].
    simpl. intros d Hd. rewrite !in_app_iff in *. tauto.
Qed.

Lemma duration_inv_boot pTopic pPartition opts cap highWaterMark :
  duration_inv opts [MaxProcessingTime opts]
    (boot pTopic pPartition opts cap highWaterMark).
Proof.
  unfold duration_inv. simpl. repeat split; auto; intros; contradiction.
Qed.

(** ** The wait of the body is the winner's *)

Lemma checkpoint_events_no_sleep d site l s :
  ~ In (EvSleep d) (checkpoint_events site l s).
Proof.
  unfold checkpoint_events. destruct (0 <=? l); simpl; [|tauto].
  intros [H|[H|[H|[H|[]]]]]; discriminate H.
Qed.

Lemma wait_inv_keep w a s s' :
  enters a s = None -> wait_inv w s -> step a s = Some s' -> wait_inv w s'.
Proof.
  intros E Hinv H.
  step_inv H; unfold enters, lifecycle_Stop in E; rewrite ?Hlive in E;
    unfold wait_inv, stop_threads in *; simpl; use_eqs; simpl in *;
    repeat match goal with
           | Hn : nth_error _ _ = _ |- _ => rewrite Hn in E
           end;
    try discriminate E.
  all: try assumption.
  all: destruct Hinv as (Hw & Ht & Hs).
  all: repeat match goal with
              | H : nth_error _ _ = Some _ |- _ => apply nth_error_In in H
              end.
  all: split; [first [assumption | split; intros; [congruence|apply Hw; congruence]
                     | split; intros; [apply Hw; assumption|congruence] | idtac]|].
  all: try (split; intros; rewrite ?in_app_iff in *; simpl in * ).
  all: repeat first
         [ progress subst
         | match goal with
           | H : In _ (update _ _ _) |- _ => apply in_update in H
           | H : _ \/ _ |- _ => destruct H
           | H : False |- _ => contradiction
           | H : In (EvSleep _) (checkpoint_events _ _ _) |- _ =>
               apply checkpoint_events_no_sleep in H; contradiction
           | H : @eq event _ _ |- _ =>
               discriminate H || (injection H; intros; clear H; subst)
           | H : @eq stop_pc _ _ |- _ =>
               discriminate H || (injection H; intros; clear H; subst)
           end ].
  all: try solve [ eauto
                 | eapply Ht; [|eauto]; rewrite ?in_app_iff; simpl; eauto
                 | eapply Ht; [|left; reflexivity]; rewrite ?in_app_iff; simpl; eauto
                 | eapply Ht; [|right; reflexivity]; rewrite ?in_app_iff; simpl; eauto ].
Qed.

Lemma wait_inv_enter w a s s' d :
  enters a s = Some d -> wait_inv w s -> step a s = Some s' -> wait_inv (Some d) s'.
Proof.
  intros E Hinv H.
  step_inv H; unfold enters, lifecycle_Stop in E; rewrite ?Hlive in E;
    unfold wait_inv, stop_threads in *; simpl; use_eqs; simpl in *;
    repeat match goal with
           | Hn : nth_error _ _ = _ |- _ => rewrite Hn in E
           end;
    simpl in E; try discriminate E;
    try solve [destruct (lifecycle (p s)); simpl in E; discriminate E].
  all: injection E; intros; subst; clear E.
  all: destruct Hinv as (Hw & Ht & Hs).
  all: assert (Hnone : w = None) by (apply Hw; discriminate).
  all: subst w.
  all: split; [split; intros; [discriminate|congruence]|].
  all: split; intros; rewrite ?in_app_iff in *; simpl in *.
  all: repeat first
         [ progress subst
         | match goal with
           | H : In _ (update _ _ _) |- _ => apply in_update in H
           | H : _ \/ _ |- _ => destruct H
           | H : False |- _ => contradiction
           | H : @eq stop_pc _ _ |- _ =>
               discriminate H || (injection H; intros; clear H; subst)
           end ].
  all: try reflexivity.
  all: exfalso;
    match goal with
    | H : In (SP_CloseStopC ?x) _ |- _ =>
        assert (@None Duration = Some x) as Habs
          by (eapply Ht; [|left; reflexivity]; rewrite ?in_app_iff; tauto);
        discriminate Habs
    | H : In (SP_Sleep ?x) _ |- _ =>
        assert (@None Duration = Some x) as Habs
          by (eapply Ht; [|right; reflexivity]; rewrite ?in_app_iff; tauto);
        discriminate Habs
    | H : In (EvSleep ?x) _ |- _ => discriminate (Hs _ H)
    end.
Qed.

Lemma wait_inv_step w a s s' :
  wait_inv w s -> step a s = Some s' -> wait_inv (next_winner w a s) s'.
Proof.
  intros Hinv H. unfold next_winner.
  destruct (enters a s) as [d|] eqn:E.
  - assert (Hw : w = None).
    { apply Hinv. unfold enters, lifecycle_Stop in E.
      destruct (panicked s); [discriminate|].
      destruct (lifecycle (p s)); simpl in E; discriminate. }
    subst w. eapply wait_inv_enter; eassumption.
  - destruct w; eapply wait_inv_keep; eassumption.
Qed.

Lemma wait_inv_run sched : forall w s s',
  wait_inv w s -> run sched s = Some s' ->
  wait_inv (match w with Some d => Some d | None => winner sched s end) s'.
Proof.
  induction sched as [|a rest IH]; intros w s s' Hinv Hrun; simpl in Hrun.
  - inversion Hrun; subst. destruct w; assumption.
  - destruct (step a s) as [s1|] eqn:E; [|discriminate].
    pose proof (IH _ _ _ (wait_inv_step _ _ _ _ Hinv E) Hrun) as H.
    unfold next_winner in H. simpl. rewrite E.
    destruct w; [assumption|].
    destruct (enters a s); assumption.
Qed.

Lemma wait_inv_boot pTopic pPartition opts cap highWaterMark :
  wait_inv None (boot pTopic pPartition opts cap highWaterMark).
Proof.
  unfold wait_inv, stop_threads. simpl.
  repeat split; intros; try discriminate; try contradiction.
Qed.

(** ** The shutdown body, run by one invocation without interruption *)

Lemma nth_error_last {A : Type} (l : list A) x :
  nth_error (l ++ [x]) (List.length l) = Some x.
Proof. induction l as [|h t IH]; simpl; [reflexivity|assumption]. Qed.

Lemma update_last {A : Type} (l : list A) x y :
  update (List.length l) y (l ++ [x]) = (l ++ [y])%list.
Proof. induction l as [|h t IH]; simpl; [reflexivity|rewrite IH; reflexivity]. Qed.

Lemma checkpoint_events_same site l s s' :
  topic (p s') = topic (p s) -> id (p s') = id (p s) ->
  hwm (pConsumer s') = hwm (pConsumer s) ->
  checkpoint_events site l s' = checkpoint_events site l s.
Proof. unfold checkpoint_events. intros -> -> ->. reflexivity. Qed.

Lemma markOffset_read_eq site s :
  markOffset_read site s
  = (fst (CommitLevel (ackMgr (p s))),
     emit [EvCommitLevel site (fst (CommitLevel (ackMgr (p s))))]
       (set_ackMgr (snd (CommitLevel (ackMgr (p s)))) s)).
Proof.
  unfold markOffset_read. destruct (CommitLevel (ackMgr (p s))). reflexivity.
Qed.

Lemma caller_last_run s cs sp sp' s1 rest :
  panicked s = false -> callers s = (cs ++ [sp])%list ->
  stop_step sp s = Some (sp', s1) ->
  run (Caller (List.length cs) :: rest) s = run rest (set_callers (cs ++ [sp'])%list s1).
Proof.
  intros Hlive Hc Hs. simpl. unfold step. rewrite Hlive. unfold caller_step.
  rewrite Hc, nth_error_last, Hs.
  destruct (stop_step_frame _ _ _ _ Hs) as (_ & _ & Hcs & _).
  rewrite Hcs, Hc, update_last. reflexivity.
Qed.

Lemma intake_drain_run s sp sp' s1 rest :
  panicked s = false -> intake s = ML_Drain sp ->
  stop_step sp s = Some (sp', s1) ->
  run (Intake TakeFirst :: rest) s = run rest (set_intake (ML_Drain sp') s1).
Proof.
  intros Hlive Hi Hs. simpl. unfold step. rewrite Hlive. unfold messageLoop_step.
  rewrite Hi, Hs. reflexivity.
Qed.

Lemma stop_step_Enter d s :
  lifecycle (p s) <> Stopped ->
  stop_step (SP_Enter d) s = Some (SP_CloseStopC d, set_lifecycle Stopped s).
Proof. intros Hl. simpl. destruct (lifecycle (p s)); try congruence; reflexivity. Qed.

Lemma stop_step_Enter_stopped d s :
  lifecycle (p s) = Stopped -> stop_step (SP_Enter d) s = Some (SP_Return, s).
Proof. intros Hl. simpl. rewrite Hl. reflexivity. Qed.

Lemma stop_step_CloseStopC d s :
  stopC (p s) = false ->
  stop_step (SP_CloseStopC d) s = Some (SP_Sleep d, emit [EvCloseStopC] (set_stopC true s)).
Proof. intros Hc. simpl. rewrite Hc. reflexivity. Qed.

Lemma stop_step_MarkRead s :
  stop_step SP_MarkRead s
  = Some (SP_MarkPush (fst (CommitLevel (ackMgr (p s)))),
          emit [EvCommitLevel AtStop (fst (CommitLevel (ackMgr (p s))))]
            (set_ackMgr (snd (CommitLevel (ackMgr (p s)))) s)).
Proof. simpl. rewrite markOffset_read_eq. reflexivity. Qed.

Lemma stop_step_MarkPush l s :
  stop_step (SP_MarkPush l) s = Some (SP_Close, emit (checkpoint_events AtStop l s) s).
Proof. simpl. rewrite markOffset_push_emit. reflexivity. Qed.

Lemma call_Drain_run s d rest :
  panicked s = false ->
  run (Call_Drain d :: rest) s = run rest (set_callers (callers s ++ [Drain d]) s).
Proof. intros Hlive. simpl. unfold step. rewrite Hlive. reflexivity. Qed.

Lemma caller_runs_body s d :
  panicked s = false -> lifecycle (p s) <> Stopped -> stopC (p s) = false ->
  exists s',
    run (Call_Drain d :: repeat (Caller (List.length (callers s))) 7) s = Some s' /\
    trace s'
    = (trace s
       ++ [EvCloseStopC; EvSleep d;
           EvCommitLevel AtStop (fst (CommitLevel (ackMgr (p s))))]
       ++ checkpoint_events AtStop (fst (CommitLevel (ackMgr (p s)))) s
       ++ [EvPartitionClose; EvCounter KafkaPartitionStopped 1])%list /\
    stopC (p s') = true /\ lifecycle (p s') = Stopped /\
    ackMgr (p s') = snd (CommitLevel (ackMgr (p s))) /\
    callers s' = (callers s ++ [SP_Return])%list /\
    panicked s' = false.
Proof.
  intros Hlive Hl Hstop.
  eexists. split.
  - cbn [repeat]. rewrite call_Drain_run by exact Hlive.
    erewrite (caller_last_run _ (callers s) (Drain d));
      [|exact Hlive|reflexivity|apply stop_step_Enter; exact Hl].
    erewrite (caller_last_run _ (callers s));
      [|exact Hlive|reflexivity|apply stop_step_CloseStopC; exact Hstop].
    erewrite (caller_last_run _ (callers s));
      [|exact Hlive|reflexivity|reflexivity].
    erewrite (caller_last_run _ (callers s));
      [|exact Hlive|reflexivity|apply stop_step_MarkRead].
    erewrite (caller_last_run _ (callers s));
      [|exact Hlive|reflexivity|apply stop_step_MarkPush].
    erewrite (caller_last_run _ (callers s));
      [|exact Hlive|reflexivity|reflexivity].
    erewrite (caller_last_run _ (callers s));
      [|exact Hlive|reflexivity|reflexivity].
    reflexivity.
  - cbn -[CommitLevel checkpoint_events]. rewrite <- ?app_assoc.
    repeat split. exact Hlive.
Qed.

Lemma caller_finds_stopped s d :
  panicked s = false -> lifecycle (p s) = Stopped ->
  exists s',
    run [Call_Drain d; Caller (List.length (callers s))] s = Some s' /\
    trace s' = trace s /\ p s' = p s /\
    callers s' = (callers s ++ [SP_Return])%list /\ panicked s' = false.
Proof.
  intros Hlive Hl.
  eexists. split.
  - rewrite call_Drain_run by exact Hlive.
    erewrite (caller_last_run _ (callers s) (Drain d));
      [|exact Hlive|reflexivity|apply stop_step_Enter_stopped; exact Hl].
    reflexivity.
  - simpl. repeat split. exact Hlive.
Qed.

Lemma feed_closed_run s rest :
  panicked s = false -> intake s = ML_Select ->
  feed (pConsumer s) = [] -> feed_closed (pConsumer s) = true ->
  run (Intake TakeFirst :: rest) s
  = run rest (set_intake (ML_Drain (Drain (MaxProcessingTime (options (p s)))))
                (emit [EvLog Info "partition message channel closed"] s)).
Proof.
  intros Hlive Hi Hf Hc. simpl. unfold step. rewrite Hlive. unfold messageLoop_step.
  rewrite Hi, Hf, Hc. reflexivity.
Qed.

Lemma drain_returns_run s rest :
  panicked s = false -> intake s = ML_Drain SP_Return ->
  run (Intake TakeFirst :: rest) s = run rest (set_intake ML_Return s).
Proof.
  intros Hlive Hi. simpl. unfold step. rewrite Hlive. unfold messageLoop_step.
  rewrite Hi. reflexivity.
Qed.

Lemma intake_runs_body s :
  panicked s = false -> intake s = ML_Select ->
  feed (pConsumer s) = [] -> feed_closed (pConsumer s) = true ->
  lifecycle (p s) <> Stopped -> stopC (p s) = false ->
  exists s',
    run (repeat (Intake TakeFirst) 9) s = Some s' /\
    intake s' = ML_Return /\
    trace s'
    = (trace s
       ++ [EvLog Info "partition message channel closed";
           EvCloseStopC; EvSleep (MaxProcessingTime (options (p s)));
           EvCommitLevel AtStop (fst (CommitLevel (ackMgr (p s))))]
       ++ checkpoint_events AtStop (fst (CommitLevel (ackMgr (p s)))) s
       ++ [EvPartitionClose; EvCounter KafkaPartitionStopped 1])%list /\
    stopC (p s') = true /\ lifecycle (p s') = Stopped /\
    ackMgr (p s') = snd (CommitLevel (ackMgr (p s))) /\
    panicked s' = false.
Proof.
  intros Hlive Hi Hf Hc Hl Hstop.
  eexists. split.
  - cbn [repeat]. rewrite feed_closed_run by assumption.
    erewrite intake_drain_run;
      [|exact Hlive|reflexivity|apply stop_step_Enter; exact Hl].
    erewrite intake_drain_run;
      [|exact Hlive|reflexivity|apply stop_step_CloseStopC; exact Hstop].
    erewrite intake_drain_run; [|exact Hlive|reflexivity|reflexivity].
    erewrite intake_drain_run; [|exact Hlive|reflexivity|apply stop_step_MarkRead].
    erewrite intake_drain_run; [|exact Hlive|reflexivity|apply stop_step_MarkPush].
    erewrite intake_drain_run; [|exact Hlive|reflexivity|reflexivity].
    erewrite intake_drain_run; [|exact Hlive|reflexivity|reflexivity].
    rewrite drain_returns_run; [|exact Hlive|reflexivity].
    reflexivity.
  - cbn -[CommitLevel checkpoint_events]. rewrite <- ?app_assoc.
    repeat split. exact Hlive.
Qed.

Lemma intake_finds_stopped s :
  panicked s = false -> intake s = ML_Select ->
  feed (pConsumer s) = [] -> feed_closed (pConsumer s) = true ->
  lifecycle (p s) = Stopped ->
  exists s',
    run (repeat (Intake TakeFirst) 3) s = Some s' /\
    intake s' = ML_Return /\
    trace s' = (trace s ++ [EvLog Info "partition message channel closed"])%list /\
    p s' = p s /\ panicked s' = false.
Proof.
  intros Hlive Hi Hf Hc Hl.
  eexists. split.
  - cbn [repeat]. rewrite feed_closed_run by assumption.
    erewrite intake_drain_run;
      [|exact Hlive|reflexivity|apply stop_step_Enter_stopped; exact Hl].
    rewrite drain_returns_run; [|exact Hlive|reflexivity].
    reflexivity.
  - simpl. repeat split. exact Hlive.
Qed.

(** A consumer that is not stopped has its stop channel open. *)
Lemma open_until_stopped s :
  shutdown_inv s -> lifecycle (p s) <> Stopped -> stopC (p s) = false.
Proof.
  intros [Hstop Hinv] Hl.
  destruct (lifecycle (p s)); try congruence; destruct Hinv as [Hst _];
    rewrite Hst in Hstop; exact Hstop.
Qed.
(** * The claims *)

(** C1, as stated, fails: offsets 0 and 1 are acknowledged in order, yet
    the broker is sent checkpoint 1 and then checkpoint 0, because the
    [markOffset] of [commitLoop] (line 143) had read its level before
    the [markOffset] of [stop] (line 207) read and pushed a later one. *)
Lemma checkpoints_can_go_back :
  feed_ordered noCommit race_schedule = true /\
  option_map (fun s => checkpoints (trace s)) (run race_schedule demo_boot)
    = Some [1; 0] /\
  nondecreasing [1; 0] = false.
Proof. repeat split; vm_compute; reflexivity. Qed.

(** C1, amended.  When the broker produces offsets in increasing order,
    the levels that [CommitLevel] returns to [markOffset] never decrease,
    in the order of the calls and whatever the order of the Ack and Nack
    resolutions; and the checkpoints pushed to the broker never decrease
    in any run in which no [markOffset] overlaps another. *)
Theorem checkpoints_monotone_without_overlap :
  forall pTopic pPartition opts cap highWaterMark sched s,
    feed_ordered noCommit sched = true ->
    run sched (boot pTopic pPartition opts cap highWaterMark) = Some s ->
    nondecreasing (commit_levels (trace s)) = true /\
    (marks_atomic None (trace s) = true ->
     nondecreasing (checkpoints (trace s)) = true).
Proof.
  intros pTopic pPartition opts cap highWaterMark sched s Hord Hrun.
  destruct (order_inv_run sched _ _ _ (order_inv_boot _ _ _ _ _) Hord Hrun)
    as (last & _ & _ & _ & Hreads).
  split.
  - eapply nondecreasing_from_weaken; eassumption.
  - intros Hatom. apply (nondecreasing_from_weaken noCommit).
    eapply (atomic_pushes _ None noCommit noCommit); try eassumption; [lia|].
    intros site off E. discriminate.
Qed.

(** C2, as stated, fails for a configuration with a negative size: with
    [Concurrency = -5] and [RcvBufferSize = 2] the bound computed at line
    69 is [-2], which no count of Pending entries is within; the manager,
    which refuses a registration only when the count equals the bound,
    goes on to track four records. *)
Lemma pending_exceeds_negative_bound :
  maxUnAcked negative_options = -2 /\
  option_map (fun s => (maxOutstanding (ackMgr (p s)), pendingCount (ackMgr (p s))))
             (run overrun_schedule negative_boot)
    = Some (-2, 4%nat) /\
  (Z.of_nat 4 <=? -2) = false.
Proof. repeat split; vm_compute; reflexivity. Qed.

(** C2, amended.  The ack manager of a partition consumer is created with
    capacity [Concurrency + RcvBufferSize + 1] (line 69, in Go's [int]
    arithmetic, which is the exact sum for a configuration of
    non-negative sizes), keeps that capacity, and whenever that bound is
    not negative the number of Pending entries never exceeds it, whatever
    the loops, the workers and the broker do. *)
Theorem pending_within_maxOutstanding :
  forall pTopic pPartition opts cap highWaterMark sched s,
    run sched (boot pTopic pPartition opts cap highWaterMark) = Some s ->
    maxOutstanding (ackMgr (newPartitionConsumer pTopic pPartition opts cap))
      = add_int (add_int (Concurrency opts) (RcvBufferSize opts)) 1 /\
    maxOutstanding (ackMgr (p s)) = maxUnAcked opts /\
    (0 <= Concurrency opts -> 0 <= RcvBufferSize opts ->
     Concurrency opts + RcvBufferSize opts + 1 <= int64_max ->
     maxUnAcked opts = Concurrency opts + RcvBufferSize opts + 1) /\
    (0 <= maxUnAcked opts ->
     Z.of_nat (pendingCount (ackMgr (p s))) <= maxUnAcked opts).
Proof.
  intros pTopic pPartition opts cap highWaterMark sched s Hrun.
  split; [reflexivity|].
  split.
  - revert Hrun. apply (run_invariant (fun s => maxOutstanding (ackMgr (p s)) = maxUnAcked opts)).
    + intros a s1 s2 Hm H. apply step_ackMgr in H.
      rewrite (ackMgr_op_max _ _ H). assumption.
    + reflexivity.
  - split; [apply maxUnAcked_exact|].
    intros Hpos.
    assert (pending_inv (maxUnAcked opts) s) as [_ Hle]; [|assumption].
    revert Hrun. apply run_invariant.
    + intros a s1 s2. apply pending_inv_step.
    + split; [reflexivity|]. simpl. assumption.
Qed.

(** C3.  [Drain(0)] is [Stop()]: both are the invocation [stop(0)], so a
    run in which one is called goes exactly like the run in which the
    other is called, whatever was done before and whatever is scheduled
    after.  Run to its end on a consumer that is not stopped, either of
    them closes the stop channel, waits for a duration of zero, reads
    the commit level and pushes it when it is an offset, closes the
    partition client and counts the stop, in that order, and leaves the
    consumer Stopped; [Drain(d)] does the same with a wait of [d].  On
    a consumer that is stopped either of them returns at once and
    changes nothing. *)
Theorem Drain_zero_is_Stop :
  forall pTopic pPartition opts cap highWaterMark sched s,
    run sched (boot pTopic pPartition opts cap highWaterMark) = Some s ->
    panicked s = false ->
    Drain 0 = Stop /\
    (forall before after s0,
        run (before ++ Call_Drain 0 :: after) s0
        = run (before ++ Call_Stop :: after) s0) /\
    (lifecycle (p s) <> Stopped ->
     forall call, In call [Call_Stop; Call_Drain 0] ->
     exists s',
       run (call :: repeat (Caller (List.length (callers s))) 7) s = Some s' /\
       trace s'
       = (trace s
          ++ [EvCloseStopC; EvSleep 0;
              EvCommitLevel AtStop (fst (CommitLevel (ackMgr (p s))))]
          ++ checkpoint_events AtStop (fst (CommitLevel (ackMgr (p s)))) s
          ++ [EvPartitionClose; EvCounter KafkaPartitionStopped 1])%list /\
       stopC (p s') = true /\ lifecycle (p s') = Stopped /\
       ackMgr (p s') = snd (CommitLevel (ackMgr (p s))) /\
       callers s' = (callers s ++ [SP_Return])%list) /\
    (lifecycle (p s) <> Stopped ->
     forall d,
     exists s',
       run (Call_Drain d :: repeat (Caller (List.length (callers s))) 7) s = Some s' /\
       trace s'
       = (trace s
          ++ [EvCloseStopC; EvSleep d;
              EvCommitLevel AtStop (fst (CommitLevel (ackMgr (p s))))]
          ++ checkpoint_events AtStop (fst (CommitLevel (ackMgr (p s)))) s
          ++ [EvPartitionClose; EvCounter KafkaPartitionStopped 1])%list /\
       stopC (p s') = true /\ lifecycle (p s') = Stopped) /\
    (lifecycle (p s) = Stopped ->
     forall call, In call [Call_Stop; Call_Drain 0] ->
     exists s',
       run [call; Caller (List.length (callers s))] s = Some s' /\
       trace s' = trace s /\ p s' = p s /\
       callers s' = (callers s ++ [SP_Return])%list).
Proof.
  intros pTopic pPartition opts cap highWaterMark sched s Hrun Hlive.
  pose proof (reachable_shutdown_inv _ _ _ _ _ _ _ Hrun) as Hinv.
  split; [reflexivity|].
  split.
  { intros before after s0. rewrite !run_app.
    destruct (run before s0) as [s1|]; reflexivity. }
  split; [|split].
  - intros Hl call Hcall.
    destruct (caller_runs_body s 0 Hlive Hl (open_until_stopped _ Hinv Hl))
      as (s' & Hr & Ht & Hc & Hs & Hm & Hcs & _).
    exists s'. repeat split; try assumption.
    destruct Hcall as [<-|[<-|[]]]; exact Hr.
  - intros Hl d.
    destruct (caller_runs_body s d Hlive Hl (open_until_stopped _ Hinv Hl))
      as (s' & Hr & Ht & Hc & Hs & _).
    exists s'. repeat split; assumption.
  - intros Hl call Hcall.
    destruct (caller_finds_stopped s 0 Hlive Hl) as (s' & Hr & Ht & Hp & Hcs & _).
    exists s'. repeat split; try assumption.
    destruct Hcall as [<-|[<-|[]]]; exact Hr.
Qed.

(** C4.  The ticker of a running commit loop has the period
    [MaxProcessingTime]; on a tick the loop calls [CommitLevel]; a level
    that is a real offset is pushed with [MarkPartitionOffset] and the
    backlog gauge is set to [max(0, HighWaterMarkOffset() - level)] (the
    exact difference when it fits [int64]); for the sentinel nothing is
    pushed and nothing else changes. *)
Theorem commitLoop_tick :
  forall pTopic pPartition opts cap highWaterMark sched s t,
    run sched (boot pTopic pPartition opts cap highWaterMark) = Some s ->
    panicked s = false ->
    commit s = CL_Select t ->
    t = MaxProcessingTime opts /\
    step (Commit TakeFirst) s = Some (set_commit (CL_MarkRead t ThenLoop) s) /\
    (forall s1 c, panicked s1 = false -> commit s1 = CL_MarkRead t ThenLoop ->
       let latestOff := fst (CommitLevel (ackMgr (p s1))) in
       step (Commit c) s1 =
       Some (set_commit (CL_MarkPush t ThenLoop latestOff)
               (emit [EvCommitLevel AtTick latestOff]
                  (set_ackMgr (snd (CommitLevel (ackMgr (p s1)))) s1)))) /\
    (forall s2 c latestOff,
       panicked s2 = false -> commit s2 = CL_MarkPush t ThenLoop latestOff ->
       step (Commit c) s2 =
         Some (set_commit (CL_Select t) (markOffset_push AtTick latestOff s2)) /\
       (0 <= latestOff ->
        markOffset_push AtTick latestOff s2 =
        emit [ EvMarkPartitionOffset AtTick (topic (p s2)) (id (p s2)) latestOff "";
               EvGauge KafkaPartitionCommitOffset latestOff;
               EvGauge KafkaPartitionBacklog
                 (Z.max 0 (sub_int64 (hwm (pConsumer s2)) latestOff));
               EvLog Debug "kafka checkpoint" ] s2) /\
       (int64_min <= hwm (pConsumer s2) - latestOff <= int64_max ->
        sub_int64 (hwm (pConsumer s2)) latestOff = hwm (pConsumer s2) - latestOff) /\
       (latestOff < 0 -> markOffset_push AtTick latestOff s2 = s2)).
Proof.
  intros pTopic pPartition opts cap highWaterMark sched s t Hrun Hlive Hc.
  pose proof (reachable_commit_inv _ _ _ _ _ _ _ Hrun) as (_ & _ & Hinv).
  rewrite Hc in Hinv. destruct Hinv as (Ht & _ & _).
  split; [assumption|]. split.
  - unfold step. rewrite Hlive. unfold commitLoop_step. rewrite Hc. reflexivity.
  - split.
    + intros s1 c Hlive1 Hc1. unfold step. rewrite Hlive1.
      unfold commitLoop_step. rewrite Hc1. unfold markOffset_read.
      destruct (CommitLevel (ackMgr (p s1))) as [lvl m']. reflexivity.
    + intros s2 c latestOff Hlive2 Hc2. split; [|split; [|split]].
      * unfold step. rewrite Hlive2. unfold commitLoop_step. rewrite Hc2. reflexivity.
      * intros Hpos. unfold markOffset_push.
        apply Z.leb_le in Hpos. rewrite Hpos. reflexivity.
      * apply wrap64_exact.
      * intros Hneg. unfold markOffset_push.
        destruct (0 <=? latestOff) eqn:E; [|reflexivity].
        apply Z.leb_le in E. lia.
Qed.

(** C5.  However many invocations of [Stop] and [Drain] are made, and
    in whatever order they and the loops are scheduled, the calls of the
    shutdown body found in the trace are a prefix of one run of the body
    - close the stop channel, wait, read the level and push it if it is
    an offset, close the partition client, count the stop -, at most one
    invocation is inside the body, once it has left the trace holds
    exactly one body, the wait is for the duration passed by the
    invocation that got through the guard of [lifecycle.Stop] (the first
    to reach it), and an invocation that finds the consumer Stopped
    returns without doing anything. *)
Theorem shutdown_body_runs_once :
  forall pTopic pPartition opts cap highWaterMark sched s,
    run sched (boot pTopic pPartition opts cap highWaterMark) = Some s ->
    (exists d l, prefix_of (shutdown_trace (trace s))
                   (shutdown_body pTopic pPartition d l)) /\
    (List.length (filter in_body (stop_threads s)) <= 1)%nat /\
    (shutdown_complete s ->
     exists d l,
       winner sched (boot pTopic pPartition opts cap highWaterMark) = Some d /\
       shutdown_trace (trace s) = shutdown_body pTopic pPartition d l) /\
    (forall d, In (EvSleep d) (trace s) ->
               winner sched (boot pTopic pPartition opts cap highWaterMark) = Some d /\
               In d (requested opts sched)) /\
    (winner sched (boot pTopic pPartition opts cap highWaterMark) = None <->
     lifecycle (p s) <> Stopped) /\
    (lifecycle (p s) <> Stopped -> shutdown_trace (trace s) = []) /\
    (lifecycle (p s) = Stopped ->
     forall d, stop_step (stop d) s = Some (SP_Return, s)).
Proof.
  intros pTopic pPartition opts cap highWaterMark sched s Hrun.
  pose proof (reachable_shutdown_inv _ _ _ _ _ _ _ Hrun) as Hinv.
  pose proof (wait_inv_run _ _ _ _ (wait_inv_boot _ _ _ _ _) Hrun) as (Hw & _ & Hsleep).
  destruct (reachable_names _ _ _ _ _ _ _ Hrun) as [Ht Hi].
  revert Hw Hsleep. rewrite <- Ht, <- Hi. intros Hw Hsleep.
  split; [apply shutdown_inv_prefix; assumption|].
  split; [apply shutdown_inv_single; assumption|].
  split.
  { intros Hdone.
    destruct (shutdown_inv_complete _ Hinv Hdone) as (d & l & Hbody).
    exists d, l. split; [|assumption].
    apply Hsleep.
    assert (Hin : In (EvSleep d) (shutdown_trace (trace s))).
    { rewrite Hbody. unfold shutdown_body. simpl. auto. }
    unfold shutdown_trace in Hin. apply filter_In in Hin. tauto. }
  split; [|split; [|split]].
  - intros d Hd. split; [apply Hsleep; assumption|].
    pose proof (duration_inv_run _ _ _ _ _ (duration_inv_boot _ _ _ _ _) Hrun)
      as (_ & _ & _ & Hs).
    apply Hs in Hd. unfold requested. apply in_app_iff in Hd as [Hd|[<-|[]]].
    + right. exact Hd.
    + left. reflexivity.
  - exact Hw.
  - intros Hl. destruct Hinv as [_ Hinv].
    destruct (lifecycle (p s)); try congruence; destruct Hinv as [Hst _]; exact Hst.
  - intros Hl d. simpl. rewrite Hl. reflexivity.
Qed.

(** C6.  When the feed of the broker is closed and empty, the receive
    of [messageLoop] reports it; the loop logs it, calls [Drain] with
    [MaxProcessingTime] as the wait, and, the drain being a finite
    sequence of steps of its own, returns.  On a consumer that is not
    stopped yet that drain is the whole shutdown: it closes the stop
    channel, waits for [MaxProcessingTime], reads the commit level and
    pushes it when it is an offset, closes the partition client and
    counts the stop, and leaves the consumer Stopped; on a consumer that
    is stopped it does nothing, and the loop returns all the same. *)
Theorem feed_closed_drains :
  forall pTopic pPartition opts cap highWaterMark sched s,
    run sched (boot pTopic pPartition opts cap highWaterMark) = Some s ->
    panicked s = false ->
    intake s = ML_Select ->
    feed (pConsumer s) = [] ->
    feed_closed (pConsumer s) = true ->
    (exists s1,
      step (Intake TakeFirst) s = Some s1 /\
      s1 = set_intake (ML_Drain (Drain (MaxProcessingTime opts)))
             (emit [EvLog Info "partition message channel closed"] s) /\
      exists n s', run (repeat (Intake TakeFirst) n) s1 = Some s' /\
                   intake s' = ML_Return) /\
    (lifecycle (p s) <> Stopped ->
     exists s',
       run (repeat (Intake TakeFirst) 9) s = Some s' /\
       intake s' = ML_Return /\
       trace s'
       = (trace s
          ++ [EvLog Info "partition message channel closed";
              EvCloseStopC; EvSleep (MaxProcessingTime opts);
              EvCommitLevel AtStop (fst (CommitLevel (ackMgr (p s))))]
          ++ checkpoint_events AtStop (fst (CommitLevel (ackMgr (p s)))) s
          ++ [EvPartitionClose; EvCounter KafkaPartitionStopped 1])%list /\
       stopC (p s') = true /\ lifecycle (p s') = Stopped /\
       ackMgr (p s') = snd (CommitLevel (ackMgr (p s)))) /\
    (lifecycle (p s) = Stopped ->
     exists s',
       run (repeat (Intake TakeFirst) 3) s = Some s' /\
       intake s' = ML_Return /\
       trace s' = (trace s ++ [EvLog Info "partition message channel closed"])%list /\
       p s' = p s).
Proof.
  intros pTopic pPartition opts cap highWaterMark sched s Hrun Hlive Hi Hfeed Hclosed.
  pose proof (reachable_commit_inv _ _ _ _ _ _ _ Hrun) as (Hopt & _).
  pose proof (reachable_shutdown_inv _ _ _ _ _ _ _ Hrun) as Hinv.
  assert (Hstep : step (Intake TakeFirst) s =
                  Some (set_intake (ML_Drain (Drain (MaxProcessingTime opts)))
                          (emit [EvLog Info "partition message channel closed"] s))).
  { unfold step. rewrite Hlive. unfold messageLoop_step.
    rewrite Hi, Hfeed, Hclosed, Hopt. reflexivity. }
  split; [|split].
  - eexists. split; [exact Hstep|]. split; [reflexivity|].
    eapply (drain_terminates _ (Drain (MaxProcessingTime opts))).
    + apply Nat.le_refl.
    + eapply shutdown_inv_step; eassumption.
    + simpl. assumption.
    + reflexivity.
  - intros Hl.
    destruct (intake_runs_body s Hlive Hi Hfeed Hclosed Hl
                (open_until_stopped _ Hinv Hl))
      as (s' & Hr & Hret & Ht & Hc & Hs & Hm & _).
    rewrite Hopt in Ht.
    exists s'. repeat split; assumption.
  - intros Hl.
    destruct (intake_finds_stopped s Hlive Hi Hfeed Hclosed Hl)
      as (s' & Hr & Hret & Ht & Hp & _).
    exists s'. repeat split; assumption.
Qed.

(** C7.  When [GetAckID] fails with the capacity error, [trackOffset]
    counts and logs the failure and waits in [sleep] for 100ms; when the
    timer fires it calls [GetAckID] again with the same offset; when the
    stop channel is seen closed during the wait it returns the error
    "consumer stopped" instead; every turn of the loop passes through
    that wait. *)
Theorem trackOffset_backoff :
  forall s scm,
    panicked s = false ->
    intake s = ML_Track scm ->
    fst (GetAckID (Offset scm) (ackMgr (p s))) = inr ErrCapacity ->
    (forall c,
       step (Intake c) s =
       Some (set_intake (ML_Sleep scm (Millisecond * 100))
               (emit [ EvCounter KafkaPartitionAckMgrListFull 1;
                       EvLog Error "ackMgr list ran out of capacity" ] s))) /\
    Millisecond * 100 = 100000000 /\
    (forall s1 d,
       panicked s1 = false -> intake s1 = ML_Sleep scm d ->
       step (Intake TakeFirst) s1 = Some (set_intake (ML_Track scm) s1) /\
       (stopC (p s1) = true ->
        step (Intake TakeStop) s1 =
        Some (set_intake
                (ML_Tracked scm (ackID_zero, Some (Errorf "consumer stopped"))) s1)) /\
       (stopC (p s1) = false -> step (Intake TakeStop) s1 = None)).
Proof.
  intros s scm Hlive Hi Hfull.
  split; [|split; [reflexivity|]].
  - intros c. unfold step. rewrite Hlive. unfold messageLoop_step. rewrite Hi.
    rewrite (GetAckID_failed _ _ _ Hfull). simpl.
    rewrite set_ackMgr_same. reflexivity.
  - intros s1 d Hlive1 Hi1. repeat split.
    + unfold step. rewrite Hlive1. unfold messageLoop_step. rewrite Hi1. reflexivity.
    + intros Hstop. unfold step. rewrite Hlive1. unfold messageLoop_step.
      rewrite Hi1, Hstop. reflexivity.
    + intros Hstop. unfold step. rewrite Hlive1. unfold messageLoop_step.
      rewrite Hi1, Hstop. reflexivity.
Qed.

(** C8.  A tracked record is wrapped with its handle and offered on the
    output channel in a select with the stop channel: it is sent when
    the channel has room, and when the stop channel is closed [deliver]
    may return instead, the message being dropped.  A dropped message is
    never in the channel or with a worker, no worker ever resolves its
    handle, its entry stays tracked and Pending, and (offsets being
    produced in order) the commit level stays below its offset. *)
Theorem deliver_sends_or_abandons :
  forall pTopic pPartition opts cap highWaterMark sched s,
    run sched (boot pTopic pPartition opts cap highWaterMark) = Some s ->
    (forall scm aid c, panicked s = false -> intake s = ML_Tracked scm (aid, None) ->
       step (Intake c) s = Some (set_intake (ML_Send (newMessage scm aid)) s)) /\
    (forall msg, panicked s = false -> intake s = ML_Send msg ->
       ((List.length (msgCh (p s)) < msgCap (p s))%nat ->
        step (Intake TakeFirst) s =
        Some (set_intake ML_Select
                (emit [EvSend msg] (set_msgCh (msgCh (p s) ++ [msg]) s)))) /\
       (stopC (p s) = true ->
        step (Intake TakeStop) s =
        Some (set_intake ML_Select (set_abandoned (abandoned s ++ [msg]) s))) /\
       (stopC (p s) = false -> step (Intake TakeStop) s = None)) /\
    (forall m, In m (abandoned s) ->
       ~ In m (msgCh (p s)) /\ ~ In m (held s) /\
       ~ In (EvSend m) (trace s) /\
       ~ In (EvAck (msg_ackID m)) (trace s) /\
       ~ In (EvNack (msg_ackID m)) (trace s) /\
       In (entry_of m) (unacked (ackMgr (p s))) /\
       (feed_ordered noCommit sched = true ->
        commitLevel (ackMgr (p s)) < Offset (msg_scm m))).
Proof.
  intros pTopic pPartition opts cap highWaterMark sched s Hrun.
  split; [|split].
  - intros scm aid c Hlive Hi. unfold step. rewrite Hlive.
    unfold messageLoop_step. rewrite Hi. reflexivity.
  - intros msg Hlive Hi. repeat split.
    + intros Hroom. unfold step. rewrite Hlive. unfold messageLoop_step. rewrite Hi.
      apply Nat.ltb_lt in Hroom. rewrite Hroom. reflexivity.
    + intros Hstop. unfold step. rewrite Hlive. unfold messageLoop_step.
      rewrite Hi, Hstop. reflexivity.
    + intros Hstop. unfold step. rewrite Hlive. unfold messageLoop_step.
      rewrite Hi, Hstop. reflexivity.
  - intros m Hm.
    pose proof (reachable_handle_inv _ _ _ _ _ _ _ Hrun) as (_ & _ & I3 & I4 & I5 & I6).
    assert (Hch : ~ In m (msgCh (p s))).
    { intros Hin. apply (I3 m m); auto. }
    assert (Hheld : ~ In m (held s)).
    { intros Hin. apply (I3 m m); auto. }
    assert (Hentry : In (entry_of m) (unacked (ackMgr (p s)))) by (apply I4; auto).
    repeat split; try assumption.
    + intros Hsend. destruct (I6 m Hsend); contradiction.
    + intros Hack. destruct (I5 (msg_ackID m)) as (m' & Hin & Heq); [auto|].
      apply (I3 m m'); auto.
    + intros Hnack. destruct (I5 (msg_ackID m)) as (m' & Hin & Heq); [auto|].
      apply (I3 m m'); auto.
    + intros Hord.
      destruct (order_inv_run sched _ _ _ (order_inv_boot _ _ _ _ _) Hord Hrun)
        as (last & _ & Hchain & _).
      eapply chain_member; [eassumption|].
      unfold offsets_in_order. apply in_or_app. left.
      change (Offset (msg_scm m)) with (e_offset (entry_of m)).
      apply in_map. assumption.
Qed.

(** C9.  When [trackOffset] returns an error, [deliver] returns at once:
    the loop is back at its select and nothing else has changed, so no
    message was sent, none was created with a handle and nothing went to
    the dead-letter queue.  The error is either one [GetAckID] answered
    that is not the capacity error, or "consumer stopped" from the wait;
    on both paths the failed registration tracked nothing. *)
Theorem deliver_skips_untracked :
  forall s scm aid err,
    panicked s = false ->
    intake s = ML_Tracked scm (aid, Some err) ->
    (forall c, step (Intake c) s = Some (set_intake ML_Select s)) /\
    (forall e, is_ErrCapacity e = false ->
               after_GetAckID (inr e) = TrackReturn (ackID_zero, Some e)) /\
    (forall offset m e, fst (GetAckID offset m) = inr e ->
                        snd (GetAckID offset m) = m) /\
    (forall s0 d, panicked s0 = false -> intake s0 = ML_Sleep scm d ->
                  stopC (p s0) = true ->
                  step (Intake TakeStop) s0 =
                  Some (set_intake
                          (ML_Tracked scm (ackID_zero, Some (Errorf "consumer stopped")))
                          s0)).
Proof.
  intros s scm aid err Hlive Hi. repeat split.
  - intros c. unfold step. rewrite Hlive. unfold messageLoop_step. rewrite Hi. reflexivity.
  - intros e He. simpl. rewrite He. reflexivity.
  - intros offset m e Hf. rewrite (GetAckID_failed _ _ _ Hf). reflexivity.
  - intros s0 d Hlive0 Hi0 Hstop. unfold step. rewrite Hlive0.
    unfold messageLoop_step. rewrite Hi0, Hstop. reflexivity.
Qed.

(** C10.  When [commitLoop] takes the stop case of its select it calls
    [markOffset] (the level is read, and pushed if it is an offset) and
    then returns; a loop that has returned has done this exactly once.
    The body of [stop] calls [markOffset] as well, so when both have
    finished the final level has been read twice, once at line 145 and
    once at line 207. *)
Theorem final_commit_by_loop_and_stop :
  forall pTopic pPartition opts cap highWaterMark sched s,
    run sched (boot pTopic pPartition opts cap highWaterMark) = Some s ->
    (forall t, panicked s = false -> commit s = CL_Select t ->
       (stopC (p s) = true ->
        step (Commit TakeStop) s = Some (set_commit (CL_MarkRead t ThenReturn) s)) /\
       (stopC (p s) = false -> step (Commit TakeStop) s = None)) /\
    (forall t c, panicked s = false -> commit s = CL_MarkRead t ThenReturn ->
       let latestOff := fst (CommitLevel (ackMgr (p s))) in
       step (Commit c) s =
       Some (set_commit (CL_MarkPush t ThenReturn latestOff)
               (emit [EvCommitLevel AtLoopExit latestOff]
                  (set_ackMgr (snd (CommitLevel (ackMgr (p s)))) s)))) /\
    (forall t c latestOff,
       panicked s = false -> commit s = CL_MarkPush t ThenReturn latestOff ->
       step (Commit c) s =
       Some (set_commit CL_Return (markOffset_push AtLoopExit latestOff s))) /\
    (commit s = CL_Return ->
     stopC (p s) = true /\
     exists l, filter (by_site AtLoopExit) (trace s)
               = mark_events AtLoopExit pTopic pPartition l) /\
    (shutdown_complete s ->
     exists l, filter (by_site AtStop) (trace s)
               = mark_events AtStop pTopic pPartition l) /\
    (commit s = CL_Return -> shutdown_complete s ->
     exists l l', In (EvCommitLevel AtLoopExit l) (trace s) /\
                  In (EvCommitLevel AtStop l') (trace s)).
Proof.
  intros pTopic pPartition opts cap highWaterMark sched s Hrun.
  pose proof (reachable_commit_inv _ _ _ _ _ _ _ Hrun) as (_ & _ & Hc).
  pose proof (reachable_shutdown_inv _ _ _ _ _ _ _ Hrun) as Hinv.
  destruct (reachable_names _ _ _ _ _ _ _ Hrun) as [Ht Hi].
  assert (Hloop : commit s = CL_Return ->
                  stopC (p s) = true /\
                  exists l, filter (by_site AtLoopExit) (trace s)
                            = mark_events AtLoopExit pTopic pPartition l).
  { intros E. rewrite E in Hc. rewrite <- Ht, <- Hi. exact Hc. }
  assert (Hstop : shutdown_complete s ->
                  exists l, filter (by_site AtStop) (trace s)
                            = mark_events AtStop pTopic pPartition l).
  { intros Hdone. destruct (shutdown_inv_complete s Hinv Hdone) as (d & l & Hb).
    exists l. rewrite by_site_AtStop_shutdown, Hb, shutdown_body_marks, Ht, Hi.
    reflexivity. }
  split; [|split; [|split; [|split; [|split]]]]; try assumption.
  - intros t Hlive E. split; intros Hs; unfold step; rewrite Hlive;
      unfold commitLoop_step; rewrite E, Hs; reflexivity.
  - intros t c Hlive E. unfold step. rewrite Hlive. unfold commitLoop_step. rewrite E.
    unfold markOffset_read. destruct (CommitLevel (ackMgr (p s))) as [lvl m'].
    reflexivity.
  - intros t c latestOff Hlive E. unfold step. rewrite Hlive.
    unfold commitLoop_step. rewrite E. reflexivity.
  - intros E Hdone.
    destruct (Hloop E) as (_ & l & Hl). destruct (Hstop Hdone) as (l' & Hl').
    exists l, l'. split.
    + assert (Hin : In (EvCommitLevel AtLoopExit l)
                      (filter (by_site AtLoopExit) (trace s)))
        by (rewrite Hl; left; reflexivity).
      apply filter_In in Hin as [Hin _]. exact Hin.
    + assert (Hin : In (EvCommitLevel AtStop l') (filter (by_site AtStop) (trace s)))
        by (rewrite Hl'; left; reflexivity).
      apply filter_In in Hin as [Hin _]. exact Hin.
Qed.

(** ** The claims on concrete runs *)

Lemma checkpoints_monotone_without_overlap_witness :
  feed_ordered noCommit calm_schedule = true /\
  run calm_schedule demo_boot = Some calm_final /\
  marks_atomic None (trace calm_final) = true /\
  checkpoints (trace calm_final) = [0; 1; 1] /\
  nondecreasing (commit_levels (trace calm_final)) = true /\
  nondecreasing (checkpoints (trace calm_final)) = true.
Proof.
  assert (Hord : feed_ordered noCommit calm_schedule = true) by (vm_compute; reflexivity).
  assert (Hrun : run calm_schedule demo_boot = Some calm_final) by (vm_compute; reflexivity).
  assert (Hatom : marks_atomic None (trace calm_final) = true) by (vm_compute; reflexivity).
  split; [exact Hord|]. split; [exact Hrun|]. split; [exact Hatom|].
  split; [vm_compute; reflexivity|].
  destruct (checkpoints_monotone_without_overlap
              "orders" 0 demo_options 2%nat 10 calm_schedule calm_final Hord Hrun)
    as [Hreads Hpush].
  split; [exact Hreads|exact (Hpush Hatom)].
Defined.

Lemma pending_within_maxOutstanding_witness :
  run calm_schedule demo_boot = Some calm_final /\
  maxOutstanding (ackMgr (p calm_final)) = 3 /\
  Z.of_nat (pendingCount (ackMgr (p calm_final))) <= 3.
Proof.
  assert (Hrun : run calm_schedule demo_boot = Some calm_final)
    by (vm_compute; reflexivity).
  split; [exact Hrun|].
  destruct (pending_within_maxOutstanding "orders" 0 demo_options 2%nat 10
              calm_schedule calm_final Hrun) as (_ & Hmax & _ & Hle).
  split; [exact Hmax|]. apply Hle. vm_compute. discriminate.
Defined.

Lemma Drain_zero_is_Stop_witness :
  run two_delivered demo_boot = Some delivered_state /\
  panicked delivered_state = false /\
  lifecycle (p delivered_state) <> Stopped /\
  exists s',
    run (Call_Stop :: repeat (Caller 0%nat) 7) delivered_state = Some s' /\
    trace s'
    = (trace delivered_state
       ++ [EvCloseStopC; EvSleep 0; EvCommitLevel AtStop (-1);
           EvPartitionClose; EvCounter KafkaPartitionStopped 1])%list /\
    stopC (p s') = true /\ lifecycle (p s') = Stopped.
Proof.
  assert (Hrun : run two_delivered demo_boot = Some delivered_state)
    by (vm_compute; reflexivity).
  assert (Hlive : panicked delivered_state = false) by reflexivity.
  assert (Hl : lifecycle (p delivered_state) <> Stopped) by discriminate.
  split; [exact Hrun|]. split; [exact Hlive|]. split; [exact Hl|].
  destruct (Drain_zero_is_Stop "orders" 0 demo_options 2%nat 10 two_delivered
              delivered_state Hrun Hlive) as (_ & _ & Hbody & _).
  destruct (Hbody Hl Call_Stop (or_introl eq_refl))
    as (s' & Hr & Ht & Hc & Hs & _).
  exists s'. repeat split; assumption.
Defined.

Lemma commitLoop_tick_witness :
  run two_delivered demo_boot = Some delivered_state /\
  panicked delivered_state = false /\
  commit delivered_state = CL_Select 1000 /\
  1000 = MaxProcessingTime demo_options /\
  step (Commit TakeFirst) delivered_state
    = Some (set_commit (CL_MarkRead 1000 ThenLoop) delivered_state).
Proof.
  assert (Hrun : run two_delivered demo_boot = Some delivered_state)
    by (vm_compute; reflexivity).
  assert (Hlive : panicked delivered_state = false) by reflexivity.
  assert (Hc : commit delivered_state = CL_Select 1000) by reflexivity.
  split; [exact Hrun|]. split; [exact Hlive|]. split; [exact Hc|].
  destruct (commitLoop_tick "orders" 0 demo_options 2%nat 10 two_delivered
              delivered_state 1000 Hrun Hlive Hc) as (Ht & Hstep & _).
  split; [exact Ht|exact Hstep].
Defined.

Lemma shutdown_body_runs_once_witness :
  run contended_schedule demo_boot = Some contended_state /\
  shutdown_complete contended_state /\
  requested demo_options contended_schedule = [1000; 7; 0] /\
  In (EvSleep 0) (trace contended_state) /\
  winner contended_schedule demo_boot = Some 0 /\
  exists l, shutdown_trace (trace contended_state) = shutdown_body "orders" 0 0 l.
Proof.
  assert (Hrun : run contended_schedule demo_boot = Some contended_state)
    by (vm_compute; reflexivity).
  assert (Hdone : shutdown_complete contended_state) by (split; reflexivity).
  assert (Hin : In (EvSleep 0) (trace contended_state))
    by (repeat first [left; reflexivity | right]).
  split; [exact Hrun|]. split; [exact Hdone|]. split; [vm_compute; reflexivity|].
  split; [exact Hin|].
  destruct (shutdown_body_runs_once "orders" 0 demo_options 2%nat 10
              contended_schedule contended_state Hrun)
    as (_ & _ & Hbody & Hsleep & _).
  destruct (Hsleep 0 Hin) as [Hwin0 _].
  split; [exact Hwin0|].
  destruct (Hbody Hdone) as (d & l & Hwin & Htrace).
  exists l. rewrite Hwin0 in Hwin. injection Hwin as <-. exact Htrace.
Defined.

Lemma feed_closed_drains_witness :
  run feed_end_schedule demo_boot = Some feed_end_state /\
  panicked feed_end_state = false /\
  intake feed_end_state = ML_Select /\
  feed (pConsumer feed_end_state) = [] /\
  feed_closed (pConsumer feed_end_state) = true /\
  lifecycle (p feed_end_state) <> Stopped /\
  exists s',
    run (repeat (Intake TakeFirst) 9) feed_end_state = Some s' /\
    intake s' = ML_Return /\
    trace s'
    = (trace feed_end_state
       ++ [EvLog Info "partition message channel closed";
           EvCloseStopC; EvSleep 1000; EvCommitLevel AtStop (-1);
           EvPartitionClose; EvCounter KafkaPartitionStopped 1])%list /\
    stopC (p s') = true /\ lifecycle (p s') = Stopped.
Proof.
  assert (Hrun : run feed_end_schedule demo_boot = Some feed_end_state)
    by (vm_compute; reflexivity).
  assert (Hl : lifecycle (p feed_end_state) <> Stopped) by discriminate.
  repeat (split; [first [exact Hrun | exact Hl | reflexivity]|]).
  destruct (feed_closed_drains "orders" 0 demo_options 2%nat 10 feed_end_schedule
              feed_end_state Hrun eq_refl eq_refl eq_refl eq_refl)
    as (_ & Hbody & _).
  destruct (Hbody Hl) as (s' & Hr & Hret & Ht & Hc & Hs & _).
  exists s'. repeat split; assumption.
Defined.

Lemma trackOffset_backoff_witness :
  panicked full_state = false /\
  intake full_state = ML_Track (demo_record 1) /\
  fst (GetAckID (Offset (demo_record 1)) (ackMgr (p full_state))) = inr ErrCapacity /\
  step (Intake TakeFirst) full_state
    = Some (set_intake (ML_Sleep (demo_record 1) 100000000)
              (emit [ EvCounter KafkaPartitionAckMgrListFull 1;
                      EvLog Error "ackMgr list ran out of capacity" ] full_state)).
Proof.
  assert (Hfull : fst (GetAckID (Offset (demo_record 1)) (ackMgr (p full_state)))
                  = inr ErrCapacity) by reflexivity.
  split; [reflexivity|]. split; [reflexivity|]. split; [exact Hfull|].
  destruct (trackOffset_backoff full_state (demo_record 1) eq_refl eq_refl Hfull)
    as (Hstep & _ & _).
  exact (Hstep TakeFirst).
Defined.

Lemma deliver_sends_or_abandons_witness :
  run abandon_schedule demo_boot = Some abandon_state /\
  feed_ordered noCommit abandon_schedule = true /\
  In abandoned_message (abandoned abandon_state) /\
  ~ In (EvSend abandoned_message) (trace abandon_state) /\
  ~ In (EvAck (msg_ackID abandoned_message)) (trace abandon_state) /\
  In (entry_of abandoned_message) (unacked (ackMgr (p abandon_state))) /\
  commitLevel (ackMgr (p abandon_state)) < Offset (msg_scm abandoned_message).
Proof.
  assert (Hrun : run abandon_schedule demo_boot = Some abandon_state)
    by (vm_compute; reflexivity).
  assert (Hord : feed_ordered noCommit abandon_schedule = true) by reflexivity.
  assert (Hin : In abandoned_message (abandoned abandon_state))
    by (left; reflexivity).
  split; [exact Hrun|]. split; [exact Hord|]. split; [exact Hin|].
  destruct (deliver_sends_or_abandons "orders" 0 demo_options 2%nat 10
              abandon_schedule abandon_state Hrun) as (_ & _ & Hab).
  destruct (Hab abandoned_message Hin) as (_ & _ & Hsend & Hack & _ & Hentry & Hlvl).
  split; [exact Hsend|]. split; [exact Hack|]. split; [exact Hentry|exact (Hlvl Hord)].
Defined.

Lemma deliver_skips_untracked_witness :
  panicked stopped_waiting_state = false /\
  intake stopped_waiting_state
    = ML_Tracked (demo_record 1) (ackID_zero, Some (Errorf "consumer stopped")) /\
  step (Intake TakeFirst) stopped_waiting_state
    = Some (set_intake ML_Select stopped_waiting_state).
Proof.
  split; [reflexivity|]. split; [reflexivity|].
  destruct (deliver_skips_untracked stopped_waiting_state (demo_record 1) ackID_zero
              (Errorf "consumer stopped") eq_refl eq_refl) as (Hstep & _).
  exact (Hstep TakeFirst).
Defined.

Lemma final_commit_by_loop_and_stop_witness :
  run calm_schedule demo_boot = Some calm_final /\
  commit calm_final = CL_Return /\
  shutdown_complete calm_final /\
  exists l l', In (EvCommitLevel AtLoopExit l) (trace calm_final) /\
               In (EvCommitLevel AtStop l') (trace calm_final).
Proof.
  assert (Hrun : run calm_schedule demo_boot = Some calm_final)
    by (vm_compute; reflexivity).
  assert (Hdone : shutdown_complete calm_final) by (split; reflexivity).
  split; [exact Hrun|]. split; [reflexivity|]. split; [exact Hdone|].
  destruct (final_commit_by_loop_and_stop "orders" 0 demo_options 2%nat 10
              calm_schedule calm_final Hrun) as (_ & _ & _ & _ & _ & Hboth).
  exact (Hboth eq_refl Hdone).
Defined.

(** * Further properties of the partition consumer *)

Lemma reachable_order_inv pTopic pPartition opts cap highWaterMark sched s :
  feed_ordered noCommit sched = true ->
  run sched (boot pTopic pPartition opts cap highWaterMark) = Some s ->
  exists last, order_inv last s.
Proof.
  intros Hord Hrun.
  exact (order_inv_run sched _ _ _ (order_inv_boot _ _ _ _ _) Hord Hrun).
Qed.

(** ** Checkpoints are well formed *)

Lemma good_checkpoint_events site l s :
  Forall (good_checkpoint (topic (p s)) (id (p s))) (checkpoint_events site l s).
Proof.
  unfold checkpoint_events. destruct (0 <=? l) eqn:E; [|constructor].
  apply Z.leb_le in E.
  repeat constructor; simpl; auto.
Qed.

Lemma good_checkpoint_step tp part a s s' :
  topic (p s) = tp /\ id (p s) = part /\ Forall (good_checkpoint tp part) (trace s) ->
  step a s = Some s' ->
  topic (p s') = tp /\ id (p s') = part /\ Forall (good_checkpoint tp part) (trace s').
Proof.
  intros Hinv H.
  step_inv H; simpl; destruct Hinv as (Ht & Hi & HF);
    (split; [assumption|split; [assumption|]]); try assumption.
  all: apply Forall_app; split; [assumption|].
  all: try (repeat constructor; simpl; auto; fail).
  all: rewrite <- Ht, <- Hi; apply good_checkpoint_events.
Qed.

(** X1.  Whatever the schedule, [MarkPartitionOffset] is only ever called
    with the consumer's own topic and partition, an offset that is not
    negative (the sentinel is never pushed) and empty metadata. *)
Theorem checkpoints_well_formed :
  forall pTopic pPartition opts cap highWaterMark sched s,
    run sched (boot pTopic pPartition opts cap highWaterMark) = Some s ->
    forall site tp part off md,
      In (EvMarkPartitionOffset site tp part off md) (trace s) ->
      tp = pTopic /\ part = pPartition /\ 0 <= off /\ md = "".
Proof.
  intros pTopic pPartition opts cap highWaterMark sched s Hrun.
  assert (H : topic (p s) = pTopic /\ id (p s) = pPartition /\
              Forall (good_checkpoint pTopic pPartition) (trace s)).
  { revert Hrun.
    apply (run_invariant
             (fun s => topic (p s) = pTopic /\ id (p s) = pPartition /\
                       Forall (good_checkpoint pTopic pPartition) (trace s))).
    - intros a s1 s2. apply good_checkpoint_step.
    - repeat split. constructor. }
  destruct H as (_ & _ & HF).
  intros site tp part off md Hin.
  rewrite Forall_forall in HF. exact (HF _ Hin).
Qed.

Lemma checkpoints_well_formed_witness :
  run calm_schedule demo_boot = Some calm_final /\
  In (EvMarkPartitionOffset AtStop "orders" 0 1 "") (trace calm_final) /\
  ("orders" = "orders" /\ 0 = 0 /\ 0 <= 1 /\ "" = "").
Proof.
  assert (Hrun : run calm_schedule demo_boot = Some calm_final)
    by (vm_compute; reflexivity).
  assert (Hin : In (EvMarkPartitionOffset AtStop "orders" 0 1 "") (trace calm_final))
    by (repeat first [left; reflexivity | right]).
  split; [exact Hrun|]. split; [exact Hin|].
  exact (checkpoints_well_formed "orders" 0 demo_options 2%nat 10 calm_schedule
           calm_final Hrun AtStop "orders" 0 1 "" Hin).
Defined.

(** ** What is pushed was read *)

Lemma in_checkpoint_events e site l s :
  In e (checkpoint_events site l s) ->
  match e with
  | EvMarkPartitionOffset site' _ _ off _ => site' = site /\ off = l
  | EvCommitLevel _ _ => False
  | _ => True
  end.
Proof.
  unfold checkpoint_events. destruct (0 <=? l); simpl; [|contradiction].
  intros [<-|[<-|[<-|[<-|[]]]]]; auto.
Qed.

Lemma read_before_push_step a s s' :
  read_before_push s -> step a s = Some s' -> read_before_push s'.
Proof.
  intros Hinv H.
  step_inv H; unfold read_before_push, stop_threads, holds_level in *; simpl;
    use_eqs; simpl in *.
  all: try assumption.
  all: destruct Hinv as (Hp & Hc & Ht).
  all: repeat match goal with
              | H : nth_error _ _ = Some _ |- _ => apply nth_error_In in H
              end.
  all: repeat split; intros; rewrite ?in_app_iff in *; simpl in *.
  all: repeat first
         [ progress subst
         | match goal with
           | H : In _ (update _ _ _) |- _ => apply in_update in H
           | H : _ \/ _ |- _ => destruct H
           | H : False |- _ => contradiction
           | H : In _ (checkpoint_events _ _ _) |- _ =>
               apply in_checkpoint_events in H; simpl in H;
               try contradiction; try (destruct H; subst)
           | H : @eq event _ _ |- _ =>
               discriminate H || (injection H; intros; clear H; subst)
           | H : @eq stop_pc _ _ |- _ =>
               discriminate H || (injection H; intros; clear H; subst)
           | H : @eq commit_pc _ _ |- _ =>
               discriminate H || (injection H; intros; clear H; subst)
           end ].
  all: try solve [eauto 6 | left; eauto 6 | right; left; reflexivity].
  all: try solve
         [ first [ idtac | left ];
           match goal with
           | |- In (EvCommitLevel AtStop ?l) (trace _) =>
               apply (Ht (SP_MarkPush l) l);
               [first [left; reflexivity | rewrite ?in_app_iff; simpl; tauto]
               |reflexivity]
           | |- In (EvCommitLevel (site_of _) _) (trace _) =>
               first [ apply (Hc _ _ _ eq_refl) | eapply Hc; eassumption ]
           end
         | left;
           match goal with
           | |- In (EvCommitLevel AtStop ?l) (trace _) =>
               apply (Ht (SP_MarkPush l) l);
               [first [left; reflexivity | rewrite ?in_app_iff; simpl; tauto]
               |reflexivity]
           | |- In (EvCommitLevel (site_of _) _) (trace _) =>
               first [ apply (Hc _ _ _ eq_refl) | eapply Hc; eassumption ]
           end ].
  all: left; exact (Hc _ _ _ eq_refl).
Qed.

Lemma read_before_push_boot pTopic pPartition opts cap highWaterMark :
  read_before_push (boot pTopic pPartition opts cap highWaterMark).
Proof.
  unfold read_before_push, holds_level. simpl.
  repeat split; intros; try contradiction; discriminate.
Qed.

(** X2.  Every offset pushed to the broker is a level that [CommitLevel] had
    returned before at the same place of the code (the tick, the end of
    the commit loop, or the stop body): the consumer pushes nothing of
    its own making. *)
Theorem pushed_levels_were_read :
  forall pTopic pPartition opts cap highWaterMark sched s,
    run sched (boot pTopic pPartition opts cap highWaterMark) = Some s ->
    forall site tp part off md,
      In (EvMarkPartitionOffset site tp part off md) (trace s) ->
      In (EvCommitLevel site off) (trace s) /\ In off (commit_levels (trace s)).
Proof.
  intros pTopic pPartition opts cap highWaterMark sched s Hrun.
  assert (Hinv : read_before_push s).
  { revert Hrun. apply run_invariant; [|apply read_before_push_boot].
    intros a s1 s2. apply read_before_push_step. }
  destruct Hinv as (Hp & _ & _).
  intros site tp part off md Hin. specialize (Hp _ _ _ _ _ Hin).
  split; [assumption|].
  clear Hin. induction (trace s) as [|e tr IH]; [contradiction|].
  destruct Hp as [->|Hp]; simpl; [left; reflexivity|].
  destruct e; auto. right. auto.
Qed.

Lemma pushed_levels_were_read_witness :
  run calm_schedule demo_boot = Some calm_final /\
  In (EvMarkPartitionOffset AtTick "orders" 0 0 "") (trace calm_final) /\
  In (EvCommitLevel AtTick 0) (trace calm_final) /\
  In 0 (commit_levels (trace calm_final)).
Proof.
  assert (Hrun : run calm_schedule demo_boot = Some calm_final)
    by (vm_compute; reflexivity).
  assert (Hin : In (EvMarkPartitionOffset AtTick "orders" 0 0 "") (trace calm_final))
    by (repeat first [left; reflexivity | right]).
  split; [exact Hrun|]. split; [exact Hin|].
  exact (pushed_levels_were_read "orders" 0 demo_options 2%nat 10 calm_schedule
           calm_final Hrun AtTick "orders" 0 0 "" Hin).
Defined.

(** ** Records are delivered in the order of their offsets *)

Lemma sent_offsets_app tr1 tr2 :
  sent_offsets (tr1 ++ tr2) = (sent_offsets tr1 ++ sent_offsets tr2)%list.
Proof.
  induction tr1 as [|e tr1 IH]; simpl; [reflexivity|].
  destruct e; simpl; rewrite ?IH; reflexivity.
Qed.

Lemma sent_offsets_checkpoint site l s : sent_offsets (checkpoint_events site l s) = [].
Proof. unfold checkpoint_events. destruct (0 <=? l); reflexivity. Qed.

Lemma chain_increasing lo l rest hi :
  chain lo (l ++ rest) hi -> increasing_from lo l = true.
Proof.
  revert lo; induction l as [|x l IH]; simpl; intros lo H; [reflexivity|].
  destruct H as [Hlt H]. apply andb_true_iff. split.
  - apply Z.ltb_lt. assumption.
  - apply IH. assumption.
Qed.

Lemma delivery_inv_step last a s s' :
  (forall scm, a <> Broker_Produce scm) ->
  delivery_inv last s -> step a s = Some s' -> delivery_inv last s'.
Proof.
  intros Hnp Hinv H.
  step_inv H; try (exfalso; eapply Hnp; reflexivity);
    unfold delivery_inv, msg_offset in *; simpl;
    rewrite ?sent_offsets_app, ?sent_offsets_checkpoint; simpl;
    rewrite ?app_nil_r; use_eqs; simpl in *.
  all: try assumption.
  all: destruct Hinv as (Hs & Hq).
  all: rewrite ?map_app, <- ?app_assoc; simpl.
  all: try solve [ split; first [ assumption
                                | eapply chain_remove; eassumption
                                | eapply chain_drop; eassumption
                                | eapply (chain_remove _ []); eassumption ] ].
  all: destruct Hq as [Hlt Hq]; split; [assumption|].
  all: eapply chain_lower; [|eassumption]; lia.
Qed.

Lemma delivery_inv_produce last scm s s' :
  last < Offset scm ->
  delivery_inv last s -> step (Broker_Produce scm) s = Some s' ->
  delivery_inv (Offset scm) s'.
Proof.
  intros Hlt (Hs & Hq) H.
  step_inv H. unfold delivery_inv. simpl.
  rewrite map_app. simpl. rewrite !app_assoc.
  split; apply (chain_snoc _ _ last); try assumption; rewrite <- app_assoc; assumption.
Qed.

Lemma delivery_inv_run sched : forall last s s',
  delivery_inv last s -> feed_ordered last sched = true ->
  run sched s = Some s' ->
  exists last', delivery_inv last' s'.
Proof.
  induction sched as [|a rest IH]; intros last s s' Hinv Hord Hrun; simpl in Hrun.
  - inversion Hrun; subst. exists last. assumption.
  - destruct (step a s) as [s1|] eqn:E; [|discriminate].
    destruct a;
      try (apply (IH last s1 s'); [|assumption|assumption];
           eapply delivery_inv_step; [|eassumption|eassumption];
           intros scm0 Habs; discriminate).
    simpl in Hord. apply andb_true_iff in Hord as [Hlt Hord].
    apply Z.ltb_lt in Hlt.
    apply (IH (Offset scm) s1 s'); [|assumption|assumption].
    eapply delivery_inv_produce; eassumption.
Qed.

(** X3.  When the broker produces offsets in increasing order, the
    consumer sends its messages on the output channel in strictly
    increasing order of their offsets: no record is sent twice and none
    overtakes another. *)
Theorem delivered_in_offset_order :
  forall pTopic pPartition opts cap highWaterMark sched s,
    feed_ordered noCommit sched = true ->
    run sched (boot pTopic pPartition opts cap highWaterMark) = Some s ->
    increasing_from noCommit (sent_offsets (trace s)) = true.
Proof.
  intros pTopic pPartition opts cap highWaterMark sched s Hord Hrun.
  assert (H0 : delivery_inv noCommit (boot pTopic pPartition opts cap highWaterMark)).
  { unfold delivery_inv. simpl. unfold noCommit. split; lia. }
  destruct (delivery_inv_run sched _ _ _ H0 Hord Hrun) as (last & Hs & _).
  eapply chain_increasing; eassumption.
Qed.

Lemma delivered_in_offset_order_witness :
  feed_ordered noCommit calm_schedule = true /\
  run calm_schedule demo_boot = Some calm_final /\
  sent_offsets (trace calm_final) = [0; 1] /\
  increasing_from noCommit (sent_offsets (trace calm_final)) = true.
Proof.
  assert (Hord : feed_ordered noCommit calm_schedule = true) by (vm_compute; reflexivity).
  assert (Hrun : run calm_schedule demo_boot = Some calm_final)
    by (vm_compute; reflexivity).
  split; [exact Hord|]. split; [exact Hrun|]. split; [vm_compute; reflexivity|].
  exact (delivered_in_offset_order "orders" 0 demo_options 2%nat 10 calm_schedule
           calm_final Hord Hrun).
Defined.

(** ** Every record taken is counted *)

Lemma counter_total_app name tr1 tr2 :
  counter_total name (tr1 ++ tr2) = counter_total name tr1 + counter_total name tr2.
Proof.
  induction tr1 as [|e tr1 IH]; simpl; [reflexivity|].
  destruct e; simpl; rewrite ?IH; try reflexivity.
  destruct name, m; simpl; rewrite ?IH; lia.
Qed.

Lemma counted_checkpoint site l s :
  counter_total KafkaPartitionMessagesIn (checkpoint_events site l s) = 0.
Proof. unfold checkpoint_events. destruct (0 <=? l); reflexivity. Qed.

Lemma counted_step a s s' :
  step a s = Some s' ->
  counter_total KafkaPartitionMessagesIn (trace s')
  + Z.of_nat (List.length (feed (pConsumer s')))
  = counter_total KafkaPartitionMessagesIn (trace s)
    + Z.of_nat (List.length (feed (pConsumer s)))
    + Z.of_nat (List.length (produced [a])).
Proof.
  intros H.
  step_inv H; simpl;
    rewrite ?counter_total_app, ?counted_checkpoint, ?length_app;
    simpl; use_eqs; simpl; lia.
Qed.

(** X5.  Whenever the message loop stands at its select, the
    messages-in counter has been raised once for each record taken from
    the feed, none skipped and none counted twice: the total of the
    counter and the number of records still waiting in the feed make up
    the number of records the broker produced.  (The receive of line 118
    and the count of line 127 are one step here; at the select the count
    for the last record taken has been made in the code as well.) *)
Theorem records_counted_once :
  forall pTopic pPartition opts cap highWaterMark sched s,
    run sched (boot pTopic pPartition opts cap highWaterMark) = Some s ->
    intake s = ML_Select ->
    counter_total KafkaPartitionMessagesIn (trace s)
    + Z.of_nat (List.length (feed (pConsumer s)))
    = Z.of_nat (List.length (produced sched)).
Proof.
  intros pTopic pPartition opts cap highWaterMark sched s Hrun _.
  assert (G : forall sched s0 s1, run sched s0 = Some s1 ->
            counter_total KafkaPartitionMessagesIn (trace s1)
            + Z.of_nat (List.length (feed (pConsumer s1)))
            = counter_total KafkaPartitionMessagesIn (trace s0)
              + Z.of_nat (List.length (feed (pConsumer s0)))
              + Z.of_nat (List.length (produced sched))).
  { clear. induction sched as [|a rest IH]; intros s0 s1 Hrun; simpl in Hrun.
    - inversion Hrun; subst. simpl. lia.
    - destruct (step a s0) as [s2|] eqn:E; [|discriminate].
      rewrite (IH _ _ Hrun), (counted_step _ _ _ E).
      destruct a; simpl; lia. }
  rewrite (G _ _ _ Hrun). simpl. lia.
Qed.

Lemma records_counted_once_witness :
  run two_delivered demo_boot = Some delivered_state /\
  intake delivered_state = ML_Select /\
  produced two_delivered = [0; 1] /\
  counter_total KafkaPartitionMessagesIn (trace delivered_state) = 2 /\
  counter_total KafkaPartitionMessagesIn (trace delivered_state)
  + Z.of_nat (List.length (feed (pConsumer delivered_state)))
  = Z.of_nat (List.length (produced two_delivered)).
Proof.
  assert (Hrun : run two_delivered demo_boot = Some delivered_state)
    by (vm_compute; reflexivity).
  assert (Hi : intake delivered_state = ML_Select) by reflexivity.
  split; [exact Hrun|]. split; [exact Hi|]. split; [vm_compute; reflexivity|].
  split; [vm_compute; reflexivity|].
  exact (records_counted_once "orders" 0 demo_options 2%nat 10 two_delivered
           delivered_state Hrun Hi).
Defined.

(** ** A period that is not positive *)

Lemma early_inv_boot pTopic pPartition opts cap highWaterMark :
  early_inv opts (boot pTopic pPartition opts cap highWaterMark).
Proof.
  unfold early_inv. simpl. repeat split; auto. intros; contradiction.
Qed.

Lemma early_inv_step opts a s s' :
  MaxProcessingTime opts <= 0 ->
  early_inv opts s -> step a s = Some s' -> early_inv opts s'.
Proof.
  intros Hneg Hinv H.
  step_inv H; unfold early_inv in *; simpl; use_eqs; simpl in *.
  all: try assumption.
  all: destruct Hinv as (Hopt & Hpc & Hsites).
  all: try (destruct Hpc; discriminate).
  all: try (rewrite Hopt in *;
            match goal with
            | E : (0 <? _) = true |- _ => apply Z.ltb_lt in E; lia
            end).
  all: repeat split; auto; intros; rewrite ?in_app_iff in *; simpl in *.
  all: repeat first
         [ progress subst
         | match goal with
           | H : _ \/ _ |- _ => destruct H
           | H : False |- _ => contradiction
           | H : In _ (checkpoint_events _ _ _) |- _ =>
               apply in_checkpoint_events in H; simpl in H; destruct H
           | H : @eq event _ _ |- _ =>
               discriminate H || (injection H; intros; clear H; subst)
           end ].
  all: eauto.
Qed.


(** X6.  With a [MaxProcessingTime] that is not positive the commit loop
    never gets to its select: its first step, [time.NewTicker], panics,
    and with the process gone no action is possible any more; so no
    checkpoint is ever pushed from the loop. *)
Theorem nonpositive_period_panics :
  forall pTopic pPartition opts cap highWaterMark sched s,
    MaxProcessingTime opts <= 0 ->
    run sched (boot pTopic pPartition opts cap highWaterMark) = Some s ->
    (commit s = CL_NotStarted \/ commit s = CL_Entry) /\
    (panicked s = false -> commit s = CL_Entry ->
     forall c, step (Commit c) s = Some (panic s) /\
               forall a, step a (panic s) = None) /\
    (forall site tp part off md,
       In (EvMarkPartitionOffset site tp part off md) (trace s) -> site = AtStop).
Proof.
  intros pTopic pPartition opts cap highWaterMark sched s Hneg Hrun.
  assert (Hinv : early_inv opts s).
  { revert Hrun. apply run_invariant; [|apply early_inv_boot].
    intros a s1 s2. apply early_inv_step. assumption. }
  destruct Hinv as (Hopt & Hpc & Hsites).
  split; [assumption|]. split; [|assumption].
  intros Hlive Hentry c. split.
  - unfold step. rewrite Hlive. unfold commitLoop_step. rewrite Hentry, Hopt.
    destruct (0 <? MaxProcessingTime opts) eqn:E; [|reflexivity].
    apply Z.ltb_lt in E. lia.
  - intros a. reflexivity.
Qed.

Lemma nonpositive_period_panics_witness :
  MaxProcessingTime hasty_options <= 0 /\
  run [Call_Start] hasty_boot = Some hasty_state /\
  commit hasty_state = CL_Entry /\
  step (Commit TakeFirst) hasty_state = Some (panic hasty_state) /\
  step Call_Stop (panic hasty_state) = None.
Proof.
  assert (Hneg : MaxProcessingTime hasty_options <= 0) by (simpl; lia).
  assert (Hrun : run [Call_Start] hasty_boot = Some hasty_state)
    by (vm_compute; reflexivity).
  split; [exact Hneg|]. split; [exact Hrun|]. split; [reflexivity|].
  destruct (nonpositive_period_panics "orders" 0 hasty_options 2%nat 10 [Call_Start]
              hasty_state Hneg Hrun) as (_ & Hstep & _).
  destruct (Hstep eq_refl eq_refl TakeFirst) as [Hpanic Hdead].
  split; [exact Hpanic|exact (Hdead Call_Stop)].
Defined.

(** ** Checkpoints stay below what is still tracked *)

Lemma in_commit_levels site off tr :
  In (EvCommitLevel site off) tr -> In off (commit_levels tr).
Proof.
  induction tr as [|e tr IH]; [contradiction|].
  intros [->|Hin]; simpl; [left; reflexivity|].
  destruct e; auto. right. auto.
Qed.

Lemma in_checkpoints off tr :
  In off (checkpoints tr) ->
  exists site tp part md, In (EvMarkPartitionOffset site tp part off md) tr.
Proof.
  induction tr as [|e tr IH]; simpl; [contradiction|].
  destruct e; try (intros H; destruct (IH H) as (site0 & tp0 & part0 & md0 & Hin);
                   exists site0, tp0, part0, md0; right; assumption).
  intros [<-|H].
  - exists site, tp, part, metadata. left. reflexivity.
  - destruct (IH H) as (site0 & tp0 & part0 & md0 & Hin).
    exists site0, tp0, part0, md0. right. assumption.
Qed.

(** X19.  When the broker produces offsets in increasing order, every
    checkpoint pushed so far lies strictly below the offset of every
    record that the ack manager still tracks, that [deliver] is about to
    track, or that waits in the feed: a checkpoint never passes a record
    that is not resolved, whatever the order of the acknowledgements and
    however the commit loop and the stop body interleave. *)
Theorem checkpoints_below_tracked :
  forall pTopic pPartition opts cap highWaterMark sched s,
    feed_ordered noCommit sched = true ->
    run sched (boot pTopic pPartition opts cap highWaterMark) = Some s ->
    forall off,
      In off (checkpoints (trace s)) ->
      Forall (fun e => off < e_offset e) (unacked (ackMgr (p s))) /\
      Forall (fun o => off < o) (untracked (intake s)) /\
      Forall (fun scm => off < Offset scm) (feed (pConsumer s)).
Proof.
  intros pTopic pPartition opts cap highWaterMark sched s Hord Hrun off Hoff.
  destruct (reachable_order_inv _ _ _ _ _ _ _ Hord Hrun)
    as (last & _ & Hchain & Hlevels & _).
  assert (Hinv : read_before_push s).
  { revert Hrun. apply run_invariant; [|apply read_before_push_boot].
    intros a s1 s2. apply read_before_push_step. }
  destruct Hinv as (Hp & _ & _).
  destruct (in_checkpoints _ _ Hoff) as (site & tp & part & md & Hin).
  apply Hp in Hin. apply in_commit_levels in Hin.
  rewrite Forall_forall in Hlevels. specialize (Hlevels _ Hin).
  assert (Hall : forall o, In o (offsets_in_order s) -> off < o).
  { intros o Ho. pose proof (chain_member _ _ _ _ Hchain Ho). lia. }
  unfold offsets_in_order in Hall.
  repeat split; rewrite Forall_forall.
  - intros e He. apply Hall. apply in_app_iff. left. apply in_map. assumption.
  - intros o Ho. apply Hall. apply in_app_iff. right. apply in_app_iff. left. assumption.
  - intros scm Hs. apply Hall. apply in_app_iff. right. apply in_app_iff. right.
    apply in_map. assumption.
Qed.

Lemma checkpoints_below_tracked_witness :
  feed_ordered noCommit one_acked_schedule = true /\
  run one_acked_schedule demo_boot = Some one_acked_state /\
  checkpoints (trace one_acked_state) = [0] /\
  unacked (ackMgr (p one_acked_state)) = [mkEntry 2%nat 1 false] /\
  Forall (fun e => 0 < e_offset e) (unacked (ackMgr (p one_acked_state))).
Proof.
  assert (Hord : feed_ordered noCommit one_acked_schedule = true)
    by (vm_compute; reflexivity).
  assert (Hrun : run one_acked_schedule demo_boot = Some one_acked_state)
    by (vm_compute; reflexivity).
  assert (Hin : In 0 (checkpoints (trace one_acked_state))) by (left; reflexivity).
  split; [exact Hord|]. split; [exact Hrun|].
  split; [reflexivity|]. split; [reflexivity|].
  exact (proj1 (checkpoints_below_tracked "orders" 0 demo_options 2%nat 10
                  one_acked_schedule one_acked_state Hord Hrun 0 Hin)).
Defined.

(** ** Only acknowledged offsets are pushed *)

Lemma acked_offset_app tr evs off :
  acked_offset tr off -> acked_offset (tr ++ evs) off.
Proof.
  intros (m & H1 & H2 & H3). exists m. rewrite !in_app_iff. auto.
Qed.

Lemma level_ok_app tr evs l : level_ok tr l -> level_ok (tr ++ evs) l.
Proof.
  intros [H|H]; [left; assumption|right; apply acked_offset_app; assumption].
Qed.

Lemma evict_level l : forall lvl0 lvl rest,
  evict lvl0 l = (lvl, rest) ->
  (lvl = lvl0 \/ exists e, In e l /\ e_acked e = true /\ e_offset e = lvl) /\
  incl rest l.
Proof.
  induction l as [|x l IH]; simpl; intros lvl0 lvl rest E.
  - inversion E; subst. split; [left; reflexivity|apply incl_refl].
  - destruct (e_acked x) eqn:Hx.
    + destruct (IH _ _ _ E) as [[->|(e & He & Ha & Ho)] Hincl].
      * split; [right; exists x; auto|apply incl_tl; assumption].
      * split; [right; exists e; auto|apply incl_tl; assumption].
    + inversion E; subst. split; [left; reflexivity|apply incl_refl].
Qed.

Lemma ack_inv_frame s s' evs :
  ackMgr (p s') = ackMgr (p s) ->
  trace s' = (trace s ++ evs)%list ->
  commit_levels evs = [] ->
  incl (in_flight_msgs s') (in_flight_msgs s) ->
  (forall m, In m (msgCh (p s') ++ held s') ->
             In m (msgCh (p s) ++ held s) \/ In (EvSend m) evs) ->
  ack_inv s -> ack_inv s'.
Proof.
  intros Hm Ht Hl Hincl Hsent (I1 & I2 & I3 & I4 & I5 & I6 & I7).
  unfold ack_inv. rewrite Hm, Ht. repeat split.
  - assumption.
  - intros m Hin. apply I2. apply Hincl. assumption.
  - intros m e Hin. apply I3. apply Hincl. assumption.
  - intros m Hin. apply in_app_iff. destruct (Hsent m Hin); auto.
  - intros e He Ha. apply acked_offset_app. auto.
  - apply level_ok_app. assumption.
  - intros l Hin. rewrite commit_levels_app, Hl, app_nil_r in Hin.
    apply level_ok_app. auto.
Qed.

Lemma ack_inv_track s s' scm evs :
  ackMgr (p s')
  = mkAckManager (maxOutstanding (ackMgr (p s)))
      (unacked (ackMgr (p s)) ++ [mkEntry (nextID (ackMgr (p s))) (Offset scm) false])
      (commitLevel (ackMgr (p s))) (S (nextID (ackMgr (p s)))) ->
  trace s' = (trace s ++ evs)%list ->
  commit_levels evs = [] ->
  inflight (intake s) = [] ->
  inflight (intake s') = [newMessage scm (nextID (ackMgr (p s)))] ->
  msgCh (p s') = msgCh (p s) -> held s' = held s ->
  ack_inv s -> ack_inv s'.
Proof.
  intros Hm Ht Hl Hold Hnew Hch Hheld (I1 & I2 & I3 & I4 & I5 & I6 & I7).
  unfold ack_inv, in_flight_msgs in *. rewrite Hm, Ht, Hnew, Hch, Hheld. simpl.
  rewrite Hold in *. simpl in *.
  repeat split.
  - intros e He. apply in_app_iff in He as [He|[<-|[]]]; [|simpl; lia].
    specialize (I1 e He). lia.
  - intros m [<-|Hin]; [simpl; lia|]. specialize (I2 m Hin). lia.
  - intros m e [<-|Hin] He Hid; apply in_app_iff in He as [He|[<-|[]]]; simpl in *.
    + specialize (I1 e He). lia.
    + reflexivity.
    + apply I3; assumption.
    + specialize (I2 m Hin). lia.
  - intros m Hin. apply in_app_iff. left. auto.
  - intros e He Ha. apply in_app_iff in He as [He|[<-|[]]]; [|discriminate].
    apply acked_offset_app. auto.
  - apply level_ok_app. assumption.
  - intros l Hin. rewrite commit_levels_app, Hl, app_nil_r in Hin.
    apply level_ok_app. auto.
Qed.

Lemma ack_inv_commit s s' site lvl rest :
  evict (commitLevel (ackMgr (p s))) (unacked (ackMgr (p s))) = (lvl, rest) ->
  ackMgr (p s')
  = mkAckManager (maxOutstanding (ackMgr (p s))) rest lvl (nextID (ackMgr (p s))) ->
  trace s' = (trace s ++ [EvCommitLevel site lvl])%list ->
  incl (in_flight_msgs s') (in_flight_msgs s) ->
  msgCh (p s') = msgCh (p s) -> held s' = held s ->
  ack_inv s -> ack_inv s'.
Proof.
  intros E Hm Ht Hincl Hch Hheld (I1 & I2 & I3 & I4 & I5 & I6 & I7).
  destruct (evict_level _ _ _ _ E) as [Hlvl Hrest].
  assert (Hok : level_ok (trace s) lvl).
  { destruct Hlvl as [->|(e & He & Ha & <-)]; [assumption|].
    right. apply I5; assumption. }
  unfold ack_inv. rewrite Hm, Ht, Hch, Hheld. simpl. repeat split.
  - intros e He. apply I1. apply Hrest. assumption.
  - intros m Hin. apply I2. apply Hincl. assumption.
  - intros m e Hin He. apply I3; [apply Hincl|apply Hrest]; assumption.
  - intros m Hin. apply in_app_iff. left. auto.
  - intros e He Ha. apply acked_offset_app. apply I5; [apply Hrest|]; assumption.
  - apply level_ok_app. assumption.
  - intros l Hin. rewrite commit_levels_app in Hin. simpl in Hin.
    apply level_ok_app. apply in_app_iff in Hin as [Hin|[<-|[]]]; auto.
Qed.

Lemma ack_inv_ack s s' aid m :
  holds aid (held s) = Some m ->
  ackMgr (p s') = snd (Ack aid (ackMgr (p s))) ->
  trace s' = (trace s ++ [EvAck aid])%list ->
  intake s' = intake s -> msgCh (p s') = msgCh (p s) -> held s' = held s ->
  ack_inv s -> ack_inv s'.
Proof.
  intros Hholds Hm Ht Hi Hch Hheld (I1 & I2 & I3 & I4 & I5 & I6 & I7).
  apply holds_some in Hholds as [Hin Hid].
  assert (Hsent : In (EvSend m) (trace s)).
  { apply I4. apply in_app_iff. right. assumption. }
  assert (Hflight : In m (in_flight_msgs s)).
  { unfold in_flight_msgs. rewrite !in_app_iff. auto. }
  assert (Hentries : forall e, In e (unacked (snd (Ack aid (ackMgr (p s))))) ->
            exists e0, In e0 (unacked (ackMgr (p s))) /\
                       e_id e = e_id e0 /\ e_offset e = e_offset e0 /\
                       (e_acked e = true -> e_acked e0 = true \/ e_id e0 = aid)).
  { intros e He. unfold Ack in He.
    destruct (find_entry aid (unacked (ackMgr (p s)))) as [e1|];
      [destruct (e_acked e1)|]; simpl in He;
      try (exists e; repeat split; auto; fail).
    apply in_map_iff in He as (e0 & <- & He0). exists e0.
    unfold mark_acked. destruct (Nat.eqb (e_id e0) aid) eqn:Eid; simpl.
    - apply Nat.eqb_eq in Eid. repeat split; auto.
    - repeat split; auto. }
  assert (Hlevel : commitLevel (snd (Ack aid (ackMgr (p s)))) = commitLevel (ackMgr (p s))).
  { unfold Ack. destruct (find_entry _ _) as [e1|]; [destruct (e_acked e1)|]; reflexivity. }
  unfold ack_inv, in_flight_msgs in *. rewrite Hm, Ht, Hi, Hch, Hheld, Ack_nextID, Hlevel.
  repeat split.
  - intros e He. destruct (Hentries e He) as (e0 & He0 & -> & _). auto.
  - assumption.
  - intros m0 e Hin0 He Heq. destruct (Hentries e He) as (e0 & He0 & Hi0 & -> & _).
    apply I3; [assumption|assumption|congruence].
  - intros m0 Hin0. apply in_app_iff. left. auto.
  - intros e He Ha. destruct (Hentries e He) as (e0 & He0 & Hi0 & -> & Hacked).
    destruct (Hacked Ha) as [Ha0|Hid0].
    + apply acked_offset_app. auto.
    + exists m. rewrite !in_app_iff. split; [auto|]. split.
      * symmetry. apply I3; [assumption|assumption|congruence].
      * right. left. congruence.
  - apply level_ok_app. assumption.
  - intros l Hin0. rewrite commit_levels_app in Hin0. simpl in Hin0.
    rewrite app_nil_r in Hin0. apply level_ok_app. auto.
Qed.

Ltac in_norm := repeat (progress (simpl in *; rewrite ?in_app_iff in * )).

Ltac ack_frame s :=
  first
    [ apply (ack_inv_frame s _ []);
      [ simpl; rewrite ?Nack_same; reflexivity
      | simpl; rewrite ?app_nil_r; reflexivity
      | reflexivity
      | unfold in_flight_msgs; simpl; use_eqs; simpl;
        intros x Hx; in_norm; tauto
      | simpl; use_eqs; simpl;
        intros x Hx; in_norm; tauto
      | assumption ]
    | eapply (ack_inv_frame s);
      [ simpl; rewrite ?Nack_same; reflexivity
      | simpl; reflexivity
      | simpl; rewrite ?commit_levels_checkpoint; reflexivity
      | unfold in_flight_msgs; simpl; use_eqs; simpl;
        intros x Hx; in_norm; tauto
      | simpl; use_eqs; simpl;
        intros x Hx; in_norm;
        intuition (subst; auto)
      | assumption ] ].

Lemma ack_inv_step a s s' :
  ack_inv s -> step a s = Some s' -> ack_inv s'.
Proof.
  intros Hinv H.
  step_inv H.
  all: try solve [ack_frame s].
  all: try assumption.
  all: try solve
         [ eapply (ack_inv_commit s);
           [ eassumption
           | simpl; reflexivity
           | simpl; reflexivity
           | unfold in_flight_msgs; simpl; use_eqs; simpl;
             intros x Hx; in_norm; tauto
           | reflexivity
           | reflexivity
           | assumption ] ].
  - apply (ack_inv_track s _ scm []); try reflexivity; try assumption.
    + simpl. rewrite app_nil_r. reflexivity.
    + rewrite Heqi. reflexivity.
  - eapply (ack_inv_ack s); try eassumption; reflexivity.
Qed.

Lemma ack_inv_boot pTopic pPartition opts cap highWaterMark :
  ack_inv (boot pTopic pPartition opts cap highWaterMark).
Proof.
  unfold ack_inv, in_flight_msgs, level_ok. simpl.
  repeat split; intros; try contradiction. left. reflexivity.
Qed.

(** X20.  Every offset pushed as a checkpoint is the offset of a record
    that was sent on the output channel and whose handle a worker has
    acknowledged since, whatever the schedule and the order of the
    offsets in the feed. *)
Theorem checkpoints_were_acked :
  forall pTopic pPartition opts cap highWaterMark sched s,
    run sched (boot pTopic pPartition opts cap highWaterMark) = Some s ->
    forall site tp part off md,
      In (EvMarkPartitionOffset site tp part off md) (trace s) ->
      exists m,
        In (EvSend m) (trace s) /\ Offset (msg_scm m) = off /\
        In (EvAck (msg_ackID m)) (trace s).
Proof.
  intros pTopic pPartition opts cap highWaterMark sched s Hrun site tp part off md Hin.
  assert (Hack : ack_inv s).
  { revert Hrun. apply run_invariant; [|apply ack_inv_boot].
    intros a s1 s2. apply ack_inv_step. }
  assert (Hread : read_before_push s).
  { revert Hrun. apply run_invariant; [|apply read_before_push_boot].
    intros a s1 s2. apply read_before_push_step. }
  assert (Hgood : topic (p s) = pTopic /\ id (p s) = pPartition /\
                  Forall (good_checkpoint pTopic pPartition) (trace s)).
  { revert Hrun.
    apply (run_invariant
             (fun s => topic (p s) = pTopic /\ id (p s) = pPartition /\
                       Forall (good_checkpoint pTopic pPartition) (trace s))).
    - intros a s1 s2. apply good_checkpoint_step.
    - repeat split. constructor. }
  destruct Hgood as (_ & _ & HF). rewrite Forall_forall in HF.
  pose proof (HF _ Hin) as Hg. simpl in Hg. destruct Hg as (_ & _ & Hpos & _).
  destruct Hread as (Hp & _ & _). apply Hp in Hin. apply in_commit_levels in Hin.
  destruct Hack as (_ & _ & _ & _ & _ & _ & I7).
  destruct (I7 _ Hin) as [Hno|Hacked]; [unfold noCommit in Hno; lia|exact Hacked].
Qed.

Lemma checkpoints_were_acked_witness :
  run one_acked_schedule demo_boot = Some one_acked_state /\
  In (EvMarkPartitionOffset AtTick "orders" 0 0 "") (trace one_acked_state) /\
  exists m,
    In (EvSend m) (trace one_acked_state) /\ Offset (msg_scm m) = 0 /\
    In (EvAck (msg_ackID m)) (trace one_acked_state).
Proof.
  assert (Hrun : run one_acked_schedule demo_boot = Some one_acked_state)
    by (vm_compute; reflexivity).
  assert (Hin : In (EvMarkPartitionOffset AtTick "orders" 0 0 "") (trace one_acked_state))
    by (repeat first [left; reflexivity | right]).
  split; [exact Hrun|]. split; [exact Hin|].
  exact (checkpoints_were_acked "orders" 0 demo_options 2%nat 10 one_acked_schedule
           one_acked_state Hrun AtTick "orders" 0 0 "" Hin).
Defined.

(** * Properties of the test doubles *)

Lemma wrap64_succ a : wrap64 (wrap64 a + 1) = wrap64 (a + 1).
Proof.
  unfold wrap64.
  replace ((a + 2 ^ 63) mod 2 ^ 64 - 2 ^ 63 + 1 + 2 ^ 63)
    with ((a + 2 ^ 63) mod 2 ^ 64 + 1) by ring.
  rewrite Zplus_mod_idemp_l. f_equal. f_equal. ring.
Qed.

(** ** What the consumer sends on was produced *)

Lemma sent_records_app tr1 tr2 :
  sent_records (tr1 ++ tr2) = (sent_records tr1 ++ sent_records tr2)%list.
Proof.
  induction tr1 as [|e tr1 IH]; simpl; [reflexivity|].
  destruct e; simpl; rewrite ?IH; reflexivity.
Qed.

Lemma sent_records_checkpoint site l s : sent_records (checkpoint_events site l s) = [].
Proof. unfold checkpoint_events. destruct (0 <=? l); reflexivity. Qed.

Lemma sent_offsets_records tr : sent_offsets tr = map Offset (sent_records tr).
Proof.
  induction tr as [|e tr IH]; simpl; [reflexivity|].
  destruct e; simpl; rewrite ?IH; reflexivity.
Qed.

Lemma produced_of_records sched : produced sched = map Offset (produced_records sched).
Proof.
  induction sched as [|a rest IH]; simpl; [reflexivity|].
  destruct a; simpl; rewrite ?IH; reflexivity.
Qed.

Lemma feed_ordered_produced sched : forall last,
  feed_ordered last sched = increasing_from last (produced sched).
Proof.
  induction sched as [|a rest IH]; intros last; simpl; [reflexivity|].
  destruct a; simpl; rewrite ?IH; reflexivity.
Qed.

Lemma known_step a s s' :
  step a s = Some s' -> incl (known s') (known s ++ produced_records [a]).
Proof.
  intros H.
  step_inv H; unfold known; simpl;
    rewrite ?sent_records_app, ?sent_records_checkpoint; simpl; use_eqs; simpl;
    intros x Hx; rewrite ?in_app_iff in *; simpl in *; rewrite ?in_app_iff in *;
    tauto.
Qed.

Lemma known_run sched : forall s s',
  run sched s = Some s' -> incl (known s') (known s ++ produced_records sched).
Proof.
  induction sched as [|a rest IH]; intros s s' Hrun; simpl in Hrun.
  - inversion Hrun; subst. simpl. rewrite app_nil_r. apply incl_refl.
  - destruct (step a s) as [s1|] eqn:E; [|discriminate].
    intros x Hx. apply (IH _ _ Hrun) in Hx.
    apply in_app_iff in Hx as [Hx|Hx].
    + apply (known_step _ _ _ E) in Hx.
      rewrite in_app_iff in *. destruct Hx as [Hx|Hx]; [left; assumption|].
      right. destruct a; simpl in *; tauto.
    + rewrite in_app_iff. right. destruct a; simpl; auto.
Qed.

(** ** The mock partition consumer *)

Section Partitioned.

Import PartitionedMock.

Lemma offsets_from_S b k :
  offsets_from b (S k) = (offsets_from b k ++ [wrap64 (b + 1 + Z.of_nat k)])%list.
Proof. unfold offsets_from. rewrite seq_S, map_app. reflexivity. Qed.

Lemma offsets_from_cons b k :
  offsets_from b (S k) = wrap64 (b + 1) :: offsets_from (b + 1) k.
Proof.
  unfold offsets_from. simpl. f_equal; [f_equal; lia|].
  rewrite <- seq_shift, map_map. apply map_ext. intros i. f_equal. lia.
Qed.

Lemma increasing_from_offsets k : forall b lo,
  lo <= b -> int64_min <= b + 1 -> b + Z.of_nat k <= int64_max ->
  increasing_from lo (offsets_from b k) = true /\
  Forall (fun o => b < o <= b + Z.of_nat k) (offsets_from b k).
Proof.
  induction k as [|k IH]; intros b lo Hlo Hmin Hmax.
  - split; [reflexivity|constructor].
  - rewrite offsets_from_cons. rewrite wrap64_exact by lia.
    destruct (IH (b + 1) (b + 1)) as [Hinc Hall]; try lia.
    split.
    + simpl. rewrite Hinc. apply andb_true_iff. split; [apply Z.ltb_lt; lia|reflexivity].
    + constructor; [lia|].
      eapply Forall_impl; [|exact Hall]. simpl. intros; lia.
Qed.

Lemma offsets_from_next b i :
  0 <= i ->
  offsets_from b (Z.to_nat (i + 1))
  = (offsets_from b (Z.to_nat i) ++ [wrap64 (b + 1 + i)])%list.
Proof.
  intros Hi. replace (Z.to_nat (i + 1)) with (S (Z.to_nat i)) by lia.
  rewrite offsets_from_S. rewrite Z2Nat.id by assumption. reflexivity.
Qed.

Ltac close_start_inv Hoff Hwf :=
  repeat split; auto; try lia;
  try (intros; discriminate);
  try (unfold add_int64; rewrite ?wrap64_succ; f_equal; lia);
  try (rewrite offsets_from_next by lia;
       rewrite ?app_assoc, ?map_app in *; rewrite Hoff; reflexivity);
  try (rewrite ?app_assoc in *; apply Forall_app; split;
       [assumption|repeat constructor; unfold well_formed, mock_record; simpl; auto]);
  try (rewrite length_app; simpl; lia);
  try solve [intuition (try congruence; try lia)].

Lemma start_inv_step m0 a w w' :
  start_inv m0 w -> step a w = Some w' -> start_inv m0 w'.
Proof.
  intros Hinv H. unfold step in H.
  destruct (crashed w); [discriminate|].
  destruct Hinv as (Hid & Htp & Hb & Hcap & Hcnt & Hoff & Hwf & Hlen & Hcl & Hpc).
  destruct a.
  - destruct (sender w) eqn:Epc; try discriminate. inversion H; subst; clear H.
    unfold start_inv, history in *. simpl in *.
    close_start_inv Hoff Hwf.
  - unfold start_step, sendMsg, chan_send in H.
    destruct (sender w) eqn:Epc; try discriminate.
    + inversion H; subst; clear H. unfold start_inv, history in *. simpl in *.
      close_start_inv Hoff Hwf.
    + destruct Hpc as [Hofs Hq].
      destruct (i <? 100) eqn:Ei.
      * apply Z.ltb_lt in Ei.
        destruct (ch_closed (msgC (mock w))) eqn:Ecl.
        { inversion H; subst; clear H. unfold start_inv, history in *. simpl in *.
          rewrite Epc. simpl. close_start_inv Hoff Hwf. }
        destruct (Z.of_nat (List.length (ch_buf (msgC (mock w)))) <? ch_cap (msgC (mock w)))
          eqn:Eroom; inversion H; subst; clear H;
          unfold start_inv, history in *; simpl in *; rewrite Hq in *; simpl in *;
          rewrite ?app_nil_r in *;
          [apply Z.ltb_lt in Eroom|apply Z.ltb_ge in Eroom];
          close_start_inv Hoff Hwf.
      * apply Z.ltb_ge in Ei. inversion H; subst; clear H.
        unfold start_inv, history in *. simpl in *.
        assert (i = 100) by lia. subst i.
        close_start_inv Hoff Hwf.
    + destruct Hpc as (Hofs & Hi & Hq1 & Hfull).
      destruct (ch_sendq (msgC (mock w))) eqn:Eq; [|discriminate].
      inversion H; subst; clear H. unfold start_inv, history in *. simpl in *.
      rewrite Eq in *.
      close_start_inv Hoff Hwf.
  - unfold chan_recv, Messages in H. unfold start_inv, history in *.
    destruct (ch_buf (msgC (mock w))) as [|x rest] eqn:Ebuf;
      destruct (ch_sendq (msgC (mock w))) as [|y q] eqn:Eq.
    + destruct (ch_closed (msgC (mock w))) eqn:Ecl; [|discriminate].
      inversion H; subst; clear H.
      rewrite Ebuf, Eq, Ecl. simpl. close_start_inv Hoff Hwf.
    + assert (Hq : q = []).
      { destruct (sender w); simpl in Hpc; try discriminate Hpc;
          try (destruct Hpc as [_ Hpc]; discriminate Hpc).
        destruct Hpc as (_ & _ & Hq1 & _). destruct q; [reflexivity|simpl in Hq1; lia]. }
      subst q. inversion H; subst; clear H. simpl in *.
      rewrite <- ?app_assoc. simpl.
      destruct (sender w); simpl in *; close_start_inv Hoff Hwf.
    + inversion H; subst; clear H. simpl in *.
      rewrite <- ?app_assoc. simpl.
      close_start_inv Hoff Hwf.
      destruct (sender w); simpl in *; close_start_inv Hoff Hwf.
    + assert (Hq : q = []).
      { destruct (sender w); simpl in Hpc; try discriminate Hpc;
          try (destruct Hpc as [_ Hpc]; discriminate Hpc).
        destruct Hpc as (_ & _ & Hq1 & _). destruct q; [reflexivity|simpl in Hq1; lia]. }
      subst q. inversion H; subst; clear H. simpl in *.
      rewrite <- ?app_assoc. simpl.
      destruct (sender w); simpl in *; close_start_inv Hoff Hwf.
  - unfold stop, chan_close in H.
    destruct (ch_closed (msgC (mock w))) eqn:Ecl.
    + inversion H; subst; clear H. unfold start_inv, history in *. simpl in *.
      rewrite Ecl. close_start_inv Hoff Hwf.
    + destruct (ch_sendq (msgC (mock w))) eqn:Eq;
        inversion H; subst; clear H; unfold start_inv, history in *; simpl in *;
        rewrite ?Eq, ?Ecl in *; close_start_inv Hoff Hwf.
  - inversion H; subst; clear H. unfold start_inv, history in *. simpl.
    close_start_inv Hoff Hwf.
Qed.

Lemma mock_run_invariant (allowed : act -> bool) (P : world -> Prop) :
  (forall a w w', allowed a = true -> P w -> step a w = Some w' -> P w') ->
  forall sched w w',
    forallb allowed sched = true -> P w -> PartitionedMock.run sched w = Some w' -> P w'.
Proof.
  intros Hstep. induction sched as [|a rest IH]; intros w w' Hall HP Hrun; simpl in *.
  - inversion Hrun; subst. assumption.
  - apply andb_true_iff in Hall as [Ha Hall].
    destruct (step a w) as [w1|] eqn:E; [|discriminate].
    apply (IH w1 w' Hall); [|assumption].
    eapply Hstep; eassumption.
Qed.

Lemma forallb_any (sched : list act) : forallb (fun _ => true) sched = true.
Proof. induction sched; simpl; auto. Qed.

Lemma start_inv_init tp part b n m0 :
  newMockPartitionedConsumer tp part b n = Some m0 ->
  start_inv m0 (init m0) /\
  id m0 = part /\ topic m0 = tp /\ beginOffset m0 = b /\ ch_cap (msgC m0) = n.
Proof.
  unfold newMockPartitionedConsumer, make_chan.
  destruct (n <? 0) eqn:En; [discriminate|]. apply Z.ltb_ge in En.
  intros H. inversion H; subst; clear H.
  unfold start_inv, history. simpl. repeat split; auto; try lia.
Qed.

Lemma reachable_start_inv tp part b n m0 sched w :
  newMockPartitionedConsumer tp part b n = Some m0 ->
  PartitionedMock.run sched (init m0) = Some w ->
  start_inv m0 w.
Proof.
  intros Hnew Hrun.
  apply (mock_run_invariant (fun _ => true) (start_inv m0)) with (sched := sched)
                                                                 (w := init m0).
  - intros a w1 w2 _. apply start_inv_step.
  - apply forallb_any.
  - apply (start_inv_init _ _ _ _ _ Hnew).
  - assumption.
Qed.

Lemma offsets_from_length b k : List.length (offsets_from b k) = k.
Proof. unfold offsets_from. rewrite length_map, length_seq. reflexivity. Qed.

Lemma history_length m0 w :
  start_inv m0 w -> List.length (history w) = Z.to_nat (sent_count (sender w)).
Proof.
  intros (_ & _ & _ & _ & _ & Hoff & _).
  rewrite <- (length_map Offset), Hoff. apply offsets_from_length.
Qed.

(** X7.  The goroutine of [start] sends the records of the offsets after
    [beginOffset], one after the other and a hundred at most; once it has
    called [wg.Done()] it has sent exactly a hundred.  Every record
    carries the topic and the partition of the mock and the payload made
    of its offset, and the channel never holds more than its buffer
    size. *)
Theorem start_sends_in_order :
  forall tp part b n m0 sched w,
    newMockPartitionedConsumer tp part b n = Some m0 ->
    PartitionedMock.run sched (init m0) = Some w ->
    map Offset (history w) = offsets_from b (List.length (history w)) /\
    (List.length (history w) <= 100)%nat /\
    (sender w = GO_Done -> List.length (history w) = 100%nat) /\
    Forall (mock_record tp part) (history w) /\
    Z.of_nat (List.length (ch_buf (Messages (mock w)))) <= n.
Proof.
  intros tp part b n m0 sched w Hnew Hrun.
  pose proof (reachable_start_inv _ _ _ _ _ _ _ Hnew Hrun) as Hinv.
  pose proof (history_length _ _ Hinv) as Hlen.
  destruct (start_inv_init _ _ _ _ _ Hnew) as (_ & Hid & Htp & Hb & Hcap).
  destruct Hinv as (_ & _ & _ & _ & Hcnt & Hoff & Hwf & Hbuf & _).
  rewrite Hlen. subst b. repeat split.
  - assumption.
  - lia.
  - intros Hdone. rewrite Hdone. reflexivity.
  - unfold well_formed in Hwf. rewrite Htp, Hid in Hwf. exact Hwf.
  - unfold Messages. lia.
Qed.

Lemma start_sends_in_order_witness :
  newMockPartitionedConsumer "orders" 3 41 1 = Some demo_mock /\
  PartitionedMock.run demo_sched (init demo_mock) = Some demo_world /\
  map Offset (history demo_world) = [42; 43] /\
  map Value (history demo_world) = ["msg-42"; "msg-43"] /\
  map Offset (history demo_world) = offsets_from 41 (List.length (history demo_world)).
Proof.
  assert (Hnew : newMockPartitionedConsumer "orders" 3 41 1 = Some demo_mock)
    by reflexivity.
  assert (Hrun : PartitionedMock.run demo_sched (init demo_mock) = Some demo_world)
    by (vm_compute; reflexivity).
  split; [exact Hnew|]. split; [exact Hrun|].
  split; [vm_compute; reflexivity|]. split; [vm_compute; reflexivity|].
  exact (proj1 (start_sends_in_order "orders" 3 41 1 demo_mock demo_sched demo_world
                  Hnew Hrun)).
Defined.

Lemma run_app_mock s1 s2 w :
  PartitionedMock.run (s1 ++ s2) w
  = match PartitionedMock.run s1 w with
    | Some w' => PartitionedMock.run s2 w'
    | None => None
    end.
Proof.
  revert w; induction s1 as [|a s1 IH]; intros w; simpl; [reflexivity|].
  destruct (step a w); [apply IH|reflexivity].
Qed.

Lemma sender_fills nows : forall w offset i,
  crashed w = false ->
  sender w = GO_Loop offset i ->
  ch_closed (msgC (mock w)) = false ->
  i + Z.of_nat (List.length nows) <= 100 ->
  Z.of_nat (List.length (ch_buf (msgC (mock w)))) + Z.of_nat (List.length nows)
  <= ch_cap (msgC (mock w)) ->
  exists w' offset',
    PartitionedMock.run (map Sender nows) w = Some w' /\
    crashed w' = false /\
    sender w' = GO_Loop offset' (i + Z.of_nat (List.length nows)) /\
    received w' = received w /\
    List.length (ch_buf (msgC (mock w')))
    = (List.length (ch_buf (msgC (mock w))) + List.length nows)%nat.
Proof.
  induction nows as [|now rest IH]; intros w offset i Hlive Hpc Hopen Hi Hroom.
  - exists w, offset. simpl. rewrite Z.add_0_r, Nat.add_0_r. auto.
  - simpl List.length in *.
    assert (Hstep : step (Sender now) w
                    = Some (mkWorld
                              (set_msgC
                                 (mkChan (ch_buf (msgC (mock w))
                                            ++ [mkConsumerMessage
                                                  (topic (mock w)) (id (mock w)) offset
                                                  ("msg-" ++ Sprintf_v offset)%string now])
                                         (ch_cap (msgC (mock w)))
                                         (ch_sendq (msgC (mock w))) false)
                                 (mock w))
                              (GO_Loop (add_int64 offset 1) (i + 1)) (received w) false)).
    { unfold step, start_step, sendMsg, chan_send. rewrite Hlive, Hpc, Hopen.
      destruct (i <? 100) eqn:Ei; [|apply Z.ltb_ge in Ei; lia].
      destruct (Z.of_nat (List.length (ch_buf (msgC (mock w)))) <? ch_cap (msgC (mock w)))
        eqn:Er; [reflexivity|apply Z.ltb_ge in Er; lia]. }
    match type of Hstep with _ = Some ?x => set (w1 := x) in * end.
    destruct (IH w1 (add_int64 offset 1) (i + 1))
      as (w' & offset' & Hrun & Hl & Hp & Hr & Hb);
      try reflexivity; try lia.
    { subst w1. simpl. rewrite length_app. simpl. lia. }
    exists w', offset'. simpl. rewrite Hstep.
    split; [exact Hrun|]. split; [assumption|].
    split; [rewrite Hp; f_equal; lia|].
    split; [assumption|].
    rewrite Hb. subst w1. simpl. rewrite length_app. simpl. lia.
Qed.

(** X8.  With room for a hundred records in the buffer the goroutine of
    [start] finishes on its own: it needs no receiver, and leaves the
    hundred records in the channel. *)
Theorem start_finishes_with_room :
  forall tp part b n m0 nows,
    newMockPartitionedConsumer tp part b n = Some m0 ->
    100 <= n ->
    List.length nows = 100%nat ->
    forall t0 t1,
    exists w,
      PartitionedMock.run (Call_start :: Sender t0 :: map Sender nows ++ [Sender t1])
                          (init m0) = Some w /\
      crashed w = false /\ sender w = GO_Done /\ received w = [] /\
      List.length (ch_buf (Messages (mock w))) = 100%nat.
Proof.
  intros tp part b n m0 nows Hnew Hn Hlen t0 t1.
  destruct (start_inv_init _ _ _ _ _ Hnew) as (_ & _ & _ & _ & Hcap).
  assert (Hbuf : ch_buf (msgC m0) = [] /\ ch_closed (msgC m0) = false).
  { unfold newMockPartitionedConsumer, make_chan in Hnew.
    destruct (n <? 0); [discriminate|]. inversion Hnew; subst. split; reflexivity. }
  destruct Hbuf as [Hbuf Hopen].
  destruct (sender_fills nows
              (mkWorld m0 (GO_Loop (add_int64 (beginOffset m0) 1) 0) [] false)
              (add_int64 (beginOffset m0) 1) 0)
    as (w' & offset' & Hrun & Hlive & Hpc & Hrecv & Hb); simpl;
    try reflexivity; try assumption; try lia.
  { rewrite Hbuf. simpl. lia. }
  exists (mkWorld (mock w') GO_Done (received w') false).
  simpl. split.
  - rewrite run_app_mock. simpl in Hrun. rewrite Hrun. simpl.
    unfold step, start_step. rewrite Hlive, Hpc, Hlen. simpl. reflexivity.
  - simpl in *. repeat split; auto.
    unfold Messages. rewrite Hb, Hbuf, Hlen. reflexivity.
Qed.

Lemma start_finishes_with_room_witness :
  newMockPartitionedConsumer "orders" 3 41 100 = Some roomy_mock /\
  100 <= 100 /\
  List.length (repeat 5 100) = 100%nat /\
  exists w,
    PartitionedMock.run (Call_start :: Sender 4 :: map Sender (repeat 5 100) ++ [Sender 6])
                        (init roomy_mock) = Some w /\
    crashed w = false /\ sender w = GO_Done /\ received w = [] /\
    List.length (ch_buf (Messages (mock w))) = 100%nat.
Proof.
  assert (Hnew : newMockPartitionedConsumer "orders" 3 41 100 = Some roomy_mock)
    by reflexivity.
  assert (Hn : 100 <= 100) by lia.
  assert (Hlen : List.length (repeat 5 100) = 100%nat) by reflexivity.
  split; [exact Hnew|]. split; [exact Hn|]. split; [exact Hlen|].
  exact (start_finishes_with_room "orders" 3 41 100 roomy_mock (repeat 5 100)
           Hnew Hn Hlen 4 6).
Defined.

Lemma sender_only_received a w w' :
  sender_only a = true -> step a w = Some w' -> received w' = received w.
Proof.
  intros Ha H. unfold step, start_step in H.
  destruct (crashed w); [discriminate|].
  destruct a as [|t| | |]; try discriminate Ha.
  - destruct (sender w); inversion H; reflexivity.
  - destruct (sender w); try discriminate.
    + inversion H; reflexivity.
    + destruct (i <? 100); [|inversion H; reflexivity].
      destruct (sendMsg (mock w) offset t); inversion H; reflexivity.
    + destruct (ch_sendq (msgC (mock w))); inversion H; reflexivity.
  - inversion H; reflexivity.
Qed.

(** X9.  With a buffer for fewer than a hundred records and nobody
    receiving, the goroutine of [start] never gets to [wg.Done()]: who
    waits for it waits for ever. *)
Theorem start_blocks_without_receiver :
  forall tp part b n m0 sched w,
    newMockPartitionedConsumer tp part b n = Some m0 ->
    n < 100 ->
    forallb sender_only sched = true ->
    PartitionedMock.run sched (init m0) = Some w ->
    sender w <> GO_Done /\ received w = [] /\
    Z.of_nat (List.length (history w)) <= n + 1.
Proof.
  intros tp part b n m0 sched w Hnew Hn Hall Hrun.
  destruct (start_inv_init _ _ _ _ _ Hnew) as (Hinit & _ & _ & _ & Hcap).
  assert (H : start_inv m0 w /\ received w = []).
  { apply (mock_run_invariant sender_only
             (fun w => start_inv m0 w /\ received w = [])) with (sched := sched)
                                                               (w := init m0); auto.
    intros a w1 w2 Ha [Hinv Hrecv] Hstep. split.
    - eapply start_inv_step; eassumption.
    - rewrite (sender_only_received _ _ _ Ha Hstep). assumption. }
  destruct H as [Hinv Hrecv].
  pose proof (history_length _ _ Hinv) as Hlen.
  destruct Hinv as (_ & _ & _ & _ & Hcnt & _ & _ & Hbuf & _ & Hpc).
  assert (Hhist : List.length (history w)
                  = (List.length (ch_buf (msgC (mock w)))
                     + List.length (ch_sendq (msgC (mock w))))%nat).
  { unfold history. rewrite Hrecv. simpl. apply length_app. }
  assert (Hq : (List.length (ch_sendq (msgC (mock w))) <= 1)%nat).
  { destruct (sender w); try (rewrite Hpc; simpl; lia).
    - destruct Hpc as [_ ->]. simpl. lia.
    - destruct Hpc as (_ & _ & H1 & _). exact H1. }
  split; [|split; [assumption|lia]].
  intros Hdone. rewrite Hdone in *. simpl in *. rewrite Hpc in *. simpl in *. lia.
Qed.

Lemma start_blocks_without_receiver_witness :
  newMockPartitionedConsumer "orders" 3 41 1 = Some demo_mock /\
  1 < 100 /\
  forallb sender_only [Call_start; Sender 7; Sender 8; Sender 9] = true /\
  exists w,
    PartitionedMock.run [Call_start; Sender 7; Sender 8; Sender 9] (init demo_mock)
    = Some w /\
    step (Sender 10) w = None /\
    sender w <> GO_Done.
Proof.
  assert (Hnew : newMockPartitionedConsumer "orders" 3 41 1 = Some demo_mock)
    by reflexivity.
  assert (Hn : 1 < 100) by lia.
  assert (Hall : forallb sender_only [Call_start; Sender 7; Sender 8; Sender 9] = true)
    by reflexivity.
  split; [exact Hnew|]. split; [exact Hn|]. split; [exact Hall|].
  eexists. split; [vm_compute; reflexivity|]. split; [vm_compute; reflexivity|].
  eapply (start_blocks_without_receiver "orders" 3 41 1 demo_mock
            [Call_start; Sender 7; Sender 8; Sender 9]); try eassumption.
  vm_compute. reflexivity.
Defined.

Lemma stopped_early_step a w w' :
  stopped_early w -> step a w = Some w' -> stopped_early w'.
Proof.
  intros [Hcnt Hs] H. unfold step in H.
  destruct (crashed w) eqn:Ecr; [discriminate|].
  destruct Hs as [Hs|Hcl]; [congruence|].
  unfold stopped_early.
  destruct a.
  - destruct (sender w) eqn:Epc; try discriminate. inversion H; subst; clear H.
    simpl. split; [lia|auto].
  - unfold start_step, sendMsg, chan_send in H. rewrite Hcl in H.
    destruct (sender w) eqn:Epc; try discriminate.
    + inversion H; subst; clear H. simpl. split; [lia|auto].
    + simpl in Hcnt. destruct (i <? 100) eqn:Ei; [|apply Z.ltb_ge in Ei; lia].
      inversion H; subst; clear H. simpl. rewrite Epc. simpl. auto.
    + destruct (ch_sendq (msgC (mock w))); [|discriminate].
      inversion H; subst; clear H. simpl in *. split; [lia|auto].
  - unfold chan_recv, Messages in H.
    destruct (ch_buf (msgC (mock w))); destruct (ch_sendq (msgC (mock w)));
      rewrite ?Hcl in H; inversion H; subst; clear H; simpl; auto.
  - unfold stop, chan_close in H. rewrite Hcl in H.
    inversion H; subst; clear H. simpl. auto.
  - inversion H; subst; clear H. simpl. auto.
Qed.

(** X10.  [stop] is safe only once the goroutine of [start] has made its last
    send.  Called earlier it ends the process: either at once, when the
    goroutine is waiting in a send, or at the goroutine's next send,
    which finds the channel closed; the goroutine never gets to
    [wg.Done()]. *)
Theorem stop_before_last_send_panics :
  forall w w1 rest w2,
    sent_count (sender w) < 100 ->
    step Call_stop w = Some w1 ->
    PartitionedMock.run rest w1 = Some w2 ->
    sender w2 <> GO_Done /\
    (forall offset i now,
        crashed w2 = false -> sender w2 = GO_Loop offset i ->
        step (Sender now) w2 = Some (crash w2)).
Proof.
  intros w w1 rest w2 Hcnt Hstop Hrun.
  assert (H1 : stopped_early w1).
  { unfold step, stop, chan_close in Hstop.
    destruct (crashed w); [discriminate|].
    destruct (ch_closed (msgC (mock w)));
      [inversion Hstop; split; simpl; auto|].
    destruct (ch_sendq (msgC (mock w))); inversion Hstop; subst; clear Hstop;
      split; simpl; auto. }
  assert (H2 : stopped_early w2).
  { apply (mock_run_invariant (fun _ => true) stopped_early) with (sched := rest)
                                                                  (w := w1); auto.
    - intros a wa wb _. apply stopped_early_step.
    - apply forallb_any. }
  destruct H2 as [Hlt H2].
  split.
  - intros Hdone. rewrite Hdone in Hlt. simpl in Hlt. lia.
  - intros offset i now Hlive Hpc.
    destruct H2 as [Hcr|Hcl]; [congruence|].
    unfold step, start_step, sendMsg, chan_send. rewrite Hlive, Hpc, Hcl.
    rewrite Hpc in Hlt. simpl in Hlt.
    destruct (i <? 100) eqn:Ei; [reflexivity|apply Z.ltb_ge in Ei; lia].
Qed.

Lemma stop_before_last_send_panics_witness :
  sent_count (sender demo_world) < 100 /\
  step Call_stop demo_world = Some closed_world /\
  crashed closed_world = false /\
  sender closed_world = GO_Loop 44 2 /\
  step (Sender 11) closed_world = Some (crash closed_world).
Proof.
  assert (Hcnt : sent_count (sender demo_world) < 100) by (simpl; lia).
  assert (Hstop : step Call_stop demo_world = Some closed_world)
    by (vm_compute; reflexivity).
  split; [exact Hcnt|]. split; [exact Hstop|].
  split; [reflexivity|]. split; [reflexivity|].
  exact (proj2 (stop_before_last_send_panics demo_world closed_world [] closed_world
                  Hcnt Hstop eq_refl) 44 2 11 eq_refl eq_refl).
Defined.

End Partitioned.

(** ** The partition consumer fed by the mock *)

Lemma increasing_from_lift lo b l :
  increasing_from lo l = true -> Forall (fun o => b < o) l ->
  increasing_from b l = true.
Proof.
  destruct l as [|x l]; simpl; [reflexivity|].
  intros H Hall. apply andb_true_iff in H as [_ H]. inversion Hall; subst.
  apply andb_true_iff. split; [apply Z.ltb_lt; assumption|assumption].
Qed.

(** X11.  A partition consumer that reads what the mock's goroutine has sent
    hands on records of the mock only, each with the mock's topic and
    partition and an offset among the hundred after [beginOffset], and
    hands them on in increasing order of their offsets, as long as these
    do not wrap around. *)
Theorem mock_records_delivered_in_order :
  forall tp part b n m0 msched w,
    PartitionedMock.newMockPartitionedConsumer tp part b n = Some m0 ->
    PartitionedMock.run msched (PartitionedMock.init m0) = Some w ->
    noCommit <= b -> b + 100 <= int64_max ->
    forall pTopic pPartition opts cap highWaterMark sched s,
      produced_records sched = PartitionedMock.history w ->
      run sched (boot pTopic pPartition opts cap highWaterMark) = Some s ->
      increasing_from b (sent_offsets (trace s)) = true /\
      Forall (fun r => mock_record tp part r /\ b < Offset r <= b + 100)
             (sent_records (trace s)).
Proof.
  intros tp part b n m0 msched w Hnew Hmrun Hlo Hhi
         pTopic pPartition opts cap highWaterMark sched s Hfeed Hrun.
  pose proof (reachable_start_inv _ _ _ _ _ _ _ Hnew Hmrun) as Hinv.
  destruct (start_inv_init _ _ _ _ _ Hnew) as (_ & Hid & Htp & Hb & _).
  destruct Hinv as (_ & _ & _ & _ & Hcnt & Hoff & Hwf & _).
  rewrite Hb in Hoff.
  destruct (increasing_from_offsets
              (Z.to_nat (PartitionedMock.sent_count (PartitionedMock.sender w))) b noCommit)
    as [Hinc Hrange]; try assumption.
  { unfold noCommit, int64_min in *. lia. }
  { lia. }
  assert (Hall : Forall (fun r => mock_record tp part r /\ b < Offset r <= b + 100)
                        (PartitionedMock.history w)).
  { rewrite <- Hoff in Hrange. apply Forall_map in Hrange.
    unfold PartitionedMock.well_formed in Hwf. rewrite Htp, Hid in Hwf.
    rewrite Forall_forall in *. intros r Hr. split; [apply Hwf; assumption|].
    specialize (Hrange r Hr). simpl in Hrange. lia. }
  assert (Hsent : Forall (fun r => mock_record tp part r /\ b < Offset r <= b + 100)
                         (sent_records (trace s))).
  { rewrite Forall_forall in *. intros r Hr. apply Hall. rewrite <- Hfeed.
    assert (Hk : In r (known s)) by (unfold known; apply in_app_iff; left; assumption).
    apply (known_run _ _ _ Hrun) in Hk. simpl in Hk. exact Hk. }
  split; [|exact Hsent].
  assert (Hord : feed_ordered noCommit sched = true).
  { rewrite feed_ordered_produced, produced_of_records, Hfeed, Hoff. exact Hinc. }
  assert (H0 : delivery_inv noCommit (boot pTopic pPartition opts cap highWaterMark)).
  { unfold delivery_inv. simpl. unfold noCommit. split; lia. }
  destruct (delivery_inv_run sched _ _ _ H0 Hord Hrun) as (last & Hs & _).
  apply chain_increasing in Hs.
  apply (increasing_from_lift noCommit); [assumption|].
  rewrite sent_offsets_records. apply Forall_map.
  eapply Forall_impl; [|exact Hsent]. simpl. intros r [_ Hr]. lia.
Qed.

Lemma mock_records_delivered_in_order_witness :
  PartitionedMock.newMockPartitionedConsumer "orders" 3 41 1
  = Some PartitionedMock.demo_mock /\
  PartitionedMock.run PartitionedMock.demo_sched
                      (PartitionedMock.init PartitionedMock.demo_mock)
  = Some PartitionedMock.demo_world /\
  noCommit <= 41 /\ 41 + 100 <= int64_max /\
  produced_records fed_schedule = PartitionedMock.history PartitionedMock.demo_world /\
  run fed_schedule fed_boot = Some fed_state /\
  sent_offsets (trace fed_state) = [42; 43] /\
  increasing_from 41 (sent_offsets (trace fed_state)) = true /\
  Forall (fun r => mock_record "orders" 3 r /\ 41 < Offset r <= 41 + 100)
         (sent_records (trace fed_state)).
Proof.
  assert (Hnew : PartitionedMock.newMockPartitionedConsumer "orders" 3 41 1
                 = Some PartitionedMock.demo_mock) by reflexivity.
  assert (Hmrun : PartitionedMock.run PartitionedMock.demo_sched
                    (PartitionedMock.init PartitionedMock.demo_mock)
                  = Some PartitionedMock.demo_world) by (vm_compute; reflexivity).
  assert (Hlo : noCommit <= 41) by (unfold noCommit; lia).
  assert (Hhi : 41 + 100 <= int64_max) by (unfold int64_max; lia).
  assert (Hfeed : produced_records fed_schedule
                  = PartitionedMock.history PartitionedMock.demo_world)
    by (vm_compute; reflexivity).
  assert (Hrun : run fed_schedule fed_boot = Some fed_state) by (vm_compute; reflexivity).
  split; [exact Hnew|]. split; [exact Hmrun|]. split; [exact Hlo|]. split; [exact Hhi|].
  split; [exact Hfeed|]. split; [exact Hrun|]. split; [vm_compute; reflexivity|].
  exact (mock_records_delivered_in_order "orders" 3 41 1 PartitionedMock.demo_mock
           PartitionedMock.demo_sched PartitionedMock.demo_world Hnew Hmrun Hlo Hhi
           "orders" 3 demo_options 2%nat 0 fed_schedule fed_state Hfeed Hrun).
Defined.

(** ** The mock cluster consumer *)

Section Sarama.

Import SaramaMock.

Lemma last_cons_default (A : Type) (l : list A) : forall z d,
  last (z :: l) d = last l z.
Proof.
  induction l as [|x l IH]; intros z d; [reflexivity|].
  change (last (z :: x :: l) d) with (last (x :: l) d).
  rewrite (IH x d), (IH x z). reflexivity.
Qed.

Lemma find_mark_all marks : forall m k,
  Int32Map.find k (offsets (mark_all m marks))
  = match marked_for k marks with
    | [] => Int32Map.find k (offsets m)
    | o :: rest => Some (last rest o)
    end.
Proof.
  unfold mark_all, marked_for.
  induction marks as [|[[tp part] off] marks IH]; intros m k; simpl; [reflexivity|].
  rewrite IH. simpl. rewrite Int32MapFacts.add_o.
  destruct (Z_as_OT.eq_dec part k) as [->|Hne].
  - rewrite Z.eqb_refl. simpl.
    destruct (map snd (filter (fun mk => snd (fst mk) =? k) marks));
      [reflexivity|rewrite last_cons_default; reflexivity].
  - apply Z.eqb_neq in Hne. rewrite Hne.
    destruct (map snd (filter (fun mk => snd (fst mk) =? k) marks)); reflexivity.
Qed.

(** X12.  The mock keeps one offset for each partition, whatever the topic:
    after any sequence of marks [offset] answers the last offset marked
    for the partition asked for, taken as an [int32], and zero when none
    was marked.  [MarkOffset] marks the offset of a record for its
    partition in the same way; topic and metadata play no part. *)
Theorem offset_is_last_mark :
  forall marks id,
    offset (mark_all newMockSaramaConsumer marks) id
    = last (marked_for (wrap32 id) marks) 0 /\
    (forall m msg tp metadata metadata',
        MarkOffset m msg metadata
        = MarkPartitionOffset m tp (Partition msg) (Offset msg) metadata').
Proof.
  intros marks id. split; [|reflexivity].
  unfold offset. rewrite find_mark_all.
  destruct (marked_for (wrap32 id) marks) as [|o rest]; [reflexivity|].
  rewrite last_cons_default. reflexivity.
Qed.

Lemma find_replay tp part tr : forall m,
  Forall (good_checkpoint tp part) tr ->
  Int32Map.find part (offsets (replay tr m))
  = match checkpoints tr with
    | [] => Int32Map.find part (offsets m)
    | o :: rest => Some (last rest o)
    end /\
  (forall k, k <> part ->
             Int32Map.find k (offsets (replay tr m)) = Int32Map.find k (offsets m)).
Proof.
  unfold replay.
  induction tr as [|e tr IH]; intros m HF; simpl; [split; reflexivity|].
  inversion HF as [|e' tr' He HF']; subst.
  destruct e; simpl; try exact (IH m HF').
  simpl in He. destruct He as (_ & -> & _ & _).
  destruct (IH (MarkPartitionOffset m tp0 part off metadata) HF') as [H1 H2].
  split.
  - rewrite H1. simpl. rewrite Int32MapFacts.add_eq_o by reflexivity.
    destruct (checkpoints tr); [reflexivity|rewrite last_cons_default; reflexivity].
  - intros k Hk. rewrite (H2 k Hk). simpl.
    apply Int32MapFacts.add_neq_o. congruence.
Qed.

Lemma reachable_good_checkpoints pTopic pPartition opts cap highWaterMark sched s :
  run sched (boot pTopic pPartition opts cap highWaterMark) = Some s ->
  Forall (good_checkpoint pTopic pPartition) (trace s).
Proof.
  intros Hrun.
  assert (H : topic (p s) = pTopic /\ id (p s) = pPartition /\
              Forall (good_checkpoint pTopic pPartition) (trace s)).
  { revert Hrun.
    apply (run_invariant
             (fun s => topic (p s) = pTopic /\ id (p s) = pPartition /\
                       Forall (good_checkpoint pTopic pPartition) (trace s))).
    - intros a s1 s2. apply good_checkpoint_step.
    - repeat split. constructor. }
  tauto.
Qed.

Lemma wrap32_small z : int32_min <= z <= int32_max -> wrap32 z = z.
Proof.
  unfold wrap32, int32_min, int32_max. intros H.
  rewrite Z.mod_small; lia.
Qed.

(** X13.  A mock that receives the checkpoints of a partition consumer
    answers, for the consumer's partition, the last offset the consumer
    has pushed, and zero before the first push; for every other
    partition it answers zero. *)
Theorem mock_offset_is_last_checkpoint :
  forall pTopic pPartition opts cap highWaterMark sched s,
    int32_min <= pPartition <= int32_max ->
    run sched (boot pTopic pPartition opts cap highWaterMark) = Some s ->
    offset (replay (trace s) newMockSaramaConsumer) pPartition
    = last (checkpoints (trace s)) 0 /\
    (forall id, wrap32 id <> pPartition ->
                offset (replay (trace s) newMockSaramaConsumer) id = 0).
Proof.
  intros pTopic pPartition opts cap highWaterMark sched s Hrange Hrun.
  pose proof (reachable_good_checkpoints _ _ _ _ _ _ _ Hrun) as HF.
  destruct (find_replay pTopic pPartition (trace s) newMockSaramaConsumer HF) as [H1 H2].
  unfold offset. split.
  - rewrite (wrap32_small _ Hrange), H1.
    destruct (checkpoints (trace s)); [reflexivity|].
    rewrite last_cons_default. reflexivity.
  - intros id Hid. rewrite (H2 _ Hid). reflexivity.
Qed.

Lemma mock_offset_is_last_checkpoint_witness :
  int32_min <= 0 <= int32_max /\
  run calm_schedule demo_boot = Some calm_final /\
  checkpoints (trace calm_final) = [0; 1; 1] /\
  offset (replay (trace calm_final) newMockSaramaConsumer) 0 = 1.
Proof.
  assert (Hrange : int32_min <= 0 <= int32_max) by (unfold int32_min, int32_max; lia).
  assert (Hrun : run calm_schedule demo_boot = Some calm_final)
    by (vm_compute; reflexivity).
  split; [exact Hrange|]. split; [exact Hrun|]. split; [vm_compute; reflexivity|].
  exact (proj1 (mock_offset_is_last_checkpoint "orders" 0 demo_options 2%nat 10
                  calm_schedule calm_final Hrange Hrun)).
Defined.

Lemma Empty_find (m : Int32Map.t Z) k : Int32Map.Empty m -> Int32Map.find k m = None.
Proof.
  intros He. destruct (Int32Map.find k m) eqn:E; [|reflexivity].
  apply Int32MapFacts.find_mapsto_iff in E. exfalso. exact (He _ _ E).
Qed.

(** X14.  [HighWaterMarks] answers a map with the one topic "test", under
    which it holds a copy of the offsets marked. *)
Theorem HighWaterMarks_copies_offsets :
  forall m,
    (exists inner,
        StringMap.find "test" (HighWaterMarks m) = Some inner /\
        forall k, Int32Map.find k inner = Int32Map.find k (offsets m)) /\
    (forall tp, tp <> "test" -> StringMap.find tp (HighWaterMarks m) = None).
Proof.
  intros m. unfold HighWaterMarks.
  apply Int32MapProps.fold_rec.
  - intros m0 He. split.
    + exists (Int32Map.empty Z). split.
      * apply StringMapFacts.add_eq_o. reflexivity.
      * intros k. rewrite (Empty_find _ _ He). apply Int32MapFacts.empty_o.
    + intros tp Htp. rewrite StringMapFacts.add_neq_o by congruence.
      apply StringMapFacts.empty_o.
  - intros k e result m1 m2 Hmaps Hnotin Hadd [(inner & Hfind & Hcopy) Hother].
    rewrite Hfind. split.
    + exists (Int32Map.add k e inner). split.
      * apply StringMapFacts.add_eq_o. reflexivity.
      * intros k0. rewrite (Hadd k0), !Int32MapFacts.add_o.
        destruct (Z_as_OT.eq_dec k k0); [reflexivity|apply Hcopy].
    + intros tp Htp. rewrite StringMapFacts.add_neq_o by congruence.
      apply Hother. assumption.
Qed.

End Sarama.

(** ** The mock dead-letter producer *)

Section DLQ.

Import DLQMock.

Lemma SendMessage_effect d msg r :
  SendMessage d msg = Some r ->
  exists key,
    Key msg = Some (StringEncoder key) /\
    keys (s_mock r) = StringMap.add key tt (keys d) /\
    closed (s_mock r) = closed d /\
    s_partition r = 0 /\ s_offset r = 0 /\
    ((s_err r = None /\ size (s_mock r) = add_int (size d) 1 /\
      (size d < 5 -> StringMap.mem key (keys d) = true)) \/
     (s_err r = Some (Errorf "intermittent error") /\ size (s_mock r) = size d /\
      size d < 5 /\ StringMap.mem key (keys d) = false)).
Proof.
  unfold SendMessage. destruct (Key msg) as [[key|b]|]; try discriminate.
  intros H. exists key. split; [reflexivity|].
  destruct (size d <? 5) eqn:E5.
  - apply Z.ltb_lt in E5.
    destruct (StringMap.mem key (keys d)) eqn:Em; inversion H; subst; clear H; simpl;
      repeat split; auto.
  - apply Z.ltb_ge in E5. inversion H; subst; clear H; simpl.
    repeat split; auto. left. repeat split; auto. lia.
Qed.

Lemma has_key_eq k msg key :
  Key msg = Some (StringEncoder key) -> has_key k msg = true -> key = k.
Proof.
  unfold has_key. intros ->. apply String.eqb_eq.
Qed.

Lemma send_all_keys msgs : forall d errs d' k,
  send_all d msgs = Some (errs, d') ->
  StringMap.mem k (keys d) = true \/ existsb (has_key k) msgs = true ->
  StringMap.mem k (keys d') = true.
Proof.
  induction msgs as [|msg rest IH]; intros d errs d' k Hsend Hk; simpl in *.
  - inversion Hsend; subst. destruct Hk as [Hk|Hk]; [assumption|discriminate].
  - destruct (SendMessage d msg) as [r|] eqn:E; [|discriminate].
    destruct (send_all (s_mock r) rest) as [[errs' d1]|] eqn:E'; [|discriminate].
    inversion Hsend; subst; clear Hsend.
    destruct (SendMessage_effect _ _ _ E) as (key & HK & Hkeys & _).
    apply (IH _ _ _ k E').
    destruct Hk as [Hk|Hk].
    + left. rewrite Hkeys.
      destruct (String_as_OT.eq_dec key k) as [->|Hne].
      * apply StringMapFacts.add_eq_b. reflexivity.
      * rewrite StringMapFacts.add_neq_b by assumption. assumption.
    + apply orb_true_iff in Hk as [Hk|Hk]; [|right; assumption].
      left. rewrite Hkeys. apply StringMapFacts.add_eq_b.
      apply (has_key_eq _ _ _ HK Hk).
Qed.

(** X15.  A send that failed succeeds when it is tried again: once a key has
    been sent, with whatever result and whatever was sent in between,
    the next send with that key returns no error and is counted. *)
Theorem retry_succeeds :
  forall d msgs errs d' k msg,
    send_all d msgs = Some (errs, d') ->
    existsb (has_key k) msgs = true ->
    Key msg = Some (StringEncoder k) ->
    exists r,
      SendMessage d' msg = Some r /\
      s_err r = None /\ s_partition r = 0 /\ s_offset r = 0 /\
      backlog (s_mock r) = add_int (backlog d') 1.
Proof.
  intros d msgs errs d' k msg Hsend Hk HK.
  assert (Hmem : StringMap.mem k (keys d') = true)
    by (eapply send_all_keys; eauto).
  unfold SendMessage. rewrite HK, Hmem.
  destruct (size d' <? 5); eexists; split; try reflexivity; simpl; auto.
Qed.

Lemma retry_succeeds_witness :
  send_all newMockDLQProducer demo_sends = Some (demo_errs, demo_producer) /\
  existsb (has_key "k2") demo_sends = true /\
  exists r,
    SendMessage demo_producer (keyed "k2") = Some r /\
    s_err r = None /\ backlog demo_producer = 1 /\ backlog (s_mock r) = 2.
Proof.
  assert (Hsend : send_all newMockDLQProducer demo_sends = Some (demo_errs, demo_producer))
    by (vm_compute; reflexivity).
  assert (Hk : existsb (has_key "k2") demo_sends = true) by reflexivity.
  split; [exact Hsend|]. split; [exact Hk|].
  destruct (retry_succeeds newMockDLQProducer demo_sends demo_errs demo_producer
              "k2" (keyed "k2") Hsend Hk eq_refl) as (r & Hr & Herr & _ & _ & Hb).
  exists r. split; [exact Hr|]. split; [exact Herr|].
  split; [vm_compute; reflexivity|]. rewrite Hb. vm_compute. reflexivity.
Defined.

Lemma failures_known msgs : forall d errs d' k,
  send_all d msgs = Some (errs, d') ->
  StringMap.mem k (keys d) = true ->
  failures k msgs errs = 0%nat.
Proof.
  induction msgs as [|msg rest IH]; intros d errs d' k Hsend Hk; simpl in *.
  - inversion Hsend; subst. reflexivity.
  - destruct (SendMessage d msg) as [r|] eqn:E; [|discriminate].
    destruct (send_all (s_mock r) rest) as [[errs' d1]|] eqn:E'; [|discriminate].
    inversion Hsend; subst; clear Hsend.
    destruct (SendMessage_effect _ _ _ E) as (key & HK & Hkeys & _ & _ & _ & Hres).
    assert (Hk' : StringMap.mem k (keys (s_mock r)) = true).
    { rewrite Hkeys. destruct (String_as_OT.eq_dec key k) as [->|Hne].
      - apply StringMapFacts.add_eq_b. reflexivity.
      - rewrite StringMapFacts.add_neq_b by assumption. assumption. }
    rewrite (IH _ _ _ k E' Hk').
    destruct (has_key k msg) eqn:Eh; [|reflexivity].
    apply (has_key_eq _ _ _ HK) in Eh. subst key.
    destruct Hres as [(-> & _)|(_ & _ & _ & Hno)]; [reflexivity|congruence].
Qed.

(** X16.  In any sequence of sends at most one send fails for each key, and a
    send fails only for a key that was not sent before and while fewer
    than five sends have succeeded. *)
Theorem each_key_fails_at_most_once :
  forall d msgs errs d' k,
    send_all d msgs = Some (errs, d') ->
    (failures k msgs errs <= 1)%nat /\
    (StringMap.mem k (keys d) = true -> failures k msgs errs = 0%nat) /\
    (5 <= size d -> size d + Z.of_nat (List.length msgs) <= int64_max ->
     Forall (fun e => e = None) errs).
Proof.
  intros d msgs errs d' k Hsend. split; [|split].
  - revert d errs d' Hsend.
    induction msgs as [|msg rest IH]; intros d errs d' Hsend; simpl in *.
    + inversion Hsend; subst. simpl. lia.
    + destruct (SendMessage d msg) as [r|] eqn:E; [|discriminate].
      destruct (send_all (s_mock r) rest) as [[errs' d1]|] eqn:E'; [|discriminate].
      inversion Hsend; subst; clear Hsend.
      destruct (has_key k msg) eqn:Eh; simpl.
      * assert (Hk' : StringMap.mem k (keys (s_mock r)) = true).
        { destruct (SendMessage_effect _ _ _ E) as (key & HK & Hkeys & _).
          rewrite Hkeys. apply StringMapFacts.add_eq_b.
          apply (has_key_eq _ _ _ HK Eh). }
        rewrite (failures_known _ _ _ _ _ E' Hk').
        destruct (failed (s_err r)); simpl; lia.
      * apply (IH _ _ _ E').
  - intros Hk. eapply failures_known; eassumption.
  - revert d errs d' Hsend.
    induction msgs as [|msg rest IH]; intros d errs d' Hsend H5 Hmax; simpl in *.
    + inversion Hsend; subst. constructor.
    + destruct (SendMessage d msg) as [r|] eqn:E; [|discriminate].
      destruct (send_all (s_mock r) rest) as [[errs' d1]|] eqn:E'; [|discriminate].
      inversion Hsend; subst; clear Hsend.
      destruct (SendMessage_effect _ _ _ E) as (key & _ & _ & _ & _ & _ & Hres).
      destruct Hres as [(Herr & Hsize & _)|(_ & _ & Hlt & _)]; [|lia].
      assert (Hs : size (s_mock r) = size d + 1).
      { rewrite Hsize. unfold add_int. apply wrap64_exact.
        unfold int64_min, int64_max in *. lia. }
      constructor; [assumption|].
      apply (IH _ _ _ E'); rewrite Hs; lia.
Qed.

Lemma each_key_fails_at_most_once_witness :
  send_all newMockDLQProducer demo_sends = Some (demo_errs, demo_producer) /\
  failures "k1" demo_sends demo_errs = 1%nat /\
  (failures "k1" demo_sends demo_errs <= 1)%nat.
Proof.
  assert (Hsend : send_all newMockDLQProducer demo_sends = Some (demo_errs, demo_producer))
    by (vm_compute; reflexivity).
  split; [exact Hsend|]. split; [reflexivity|].
  exact (proj1 (each_key_fails_at_most_once newMockDLQProducer demo_sends demo_errs
                  demo_producer "k1" Hsend)).
Defined.

Lemma wrap64_add_l a b : wrap64 (wrap64 a + b) = wrap64 (a + b).
Proof.
  unfold wrap64.
  replace ((a + 2 ^ 63) mod 2 ^ 64 - 2 ^ 63 + b + 2 ^ 63)
    with ((a + 2 ^ 63) mod 2 ^ 64 + b) by ring.
  rewrite Zplus_mod_idemp_l. f_equal. f_equal. ring.
Qed.

Lemma wrap64_range z : int64_min <= wrap64 z <= int64_max.
Proof.
  unfold wrap64, int64_min, int64_max.
  pose proof (Z.mod_pos_bound (z + 2 ^ 63) (2 ^ 64)). lia.
Qed.

Lemma send_all_backlog msgs : forall d,
  int64_min <= size d <= int64_max ->
  match send_all d msgs with
  | Some (errs, d') =>
      forallb string_key msgs = true /\
      List.length errs = List.length msgs /\
      backlog d' = wrap64 (backlog d + Z.of_nat (successes errs)) /\
      closed d' = closed d
  | None => forallb string_key msgs = false
  end.
Proof.
  induction msgs as [|msg rest IH]; intros d Hd; simpl.
  - repeat split. unfold successes, backlog. simpl. rewrite Z.add_0_r.
    symmetry. apply wrap64_exact. assumption.
  - destruct (SendMessage d msg) as [r|] eqn:E.
    + destruct (SendMessage_effect _ _ _ E) as (key & HK & _ & Hcl & _ & _ & Hres).
      assert (Hr : int64_min <= size (s_mock r) <= int64_max).
      { destruct Hres as [(_ & -> & _)|(_ & -> & _)]; [apply wrap64_range|assumption]. }
      specialize (IH (s_mock r) Hr).
      assert (Hsk : string_key msg = true) by (unfold string_key; rewrite HK; reflexivity).
      rewrite Hsk. simpl.
      destruct (send_all (s_mock r) rest) as [[errs d']|]; [|exact IH].
      destruct IH as (Hall & Hlen & Hb & Hc).
      split; [assumption|]. split; [simpl; congruence|]. split; [|congruence].
      rewrite Hb. unfold backlog, successes in *. simpl.
      destruct Hres as [(-> & Hs & _)|(-> & Hs & _)]; simpl; rewrite Hs.
      * unfold add_int. rewrite wrap64_add_l. f_equal. lia.
      * reflexivity.
    + unfold SendMessage in E. unfold string_key at 1.
      destruct (Key msg) as [[key|b]|]; try reflexivity.
      destruct (size d <? 5); [destruct (StringMap.mem key (keys d))|]; discriminate.
Qed.

(** X17.  [backlog] is the number of the sends that succeeded, as an [int];
    and a sequence of sends goes through exactly when every key is a
    [StringEncoder], the type assertion panicking otherwise. *)
Theorem backlog_counts_successes :
  forall msgs,
    match send_all newMockDLQProducer msgs with
    | Some (errs, d') =>
        forallb string_key msgs = true /\
        List.length errs = List.length msgs /\
        backlog d' = wrap64 (Z.of_nat (successes errs))
    | None => forallb string_key msgs = false
    end.
Proof.
  intros msgs.
  pose proof (send_all_backlog msgs newMockDLQProducer) as H.
  destruct (send_all newMockDLQProducer msgs) as [[errs d']|].
  - destruct H as (H1 & H2 & H3 & _).
    + simpl. unfold int64_min, int64_max. lia.
    + repeat split; assumption.
  - apply H. simpl. unfold int64_min, int64_max. lia.
Qed.

End DLQ.

(** ** Closing the mocks *)

Lemma wrap64_is_one z : wrap64 z = 1 <-> z mod 2 ^ 64 = 1.
Proof.
  unfold wrap64.
  rewrite <- (Zplus_mod_idemp_l z).
  pose proof (Z.mod_pos_bound z (2 ^ 64)) as Hr.
  set (r := z mod 2 ^ 64) in *.
  destruct (Z_lt_ge_dec r (2 ^ 63)) as [Hlt|Hge].
  - rewrite Z.mod_small by lia. lia.
  - replace (r + 2 ^ 63) with (r - 2 ^ 63 + 1 * 2 ^ 64) by ring.
    rewrite Z_mod_plus_full. rewrite Z.mod_small by lia. lia.
Qed.

Lemma sarama_closed_after n :
  SaramaMock.closed (Nat.iter n SaramaMock.Close SaramaMock.newMockSaramaConsumer)
  = wrap64 (Z.of_nat n).
Proof.
  induction n as [|n IH]; [reflexivity|].
  simpl Nat.iter. unfold SaramaMock.Close at 1. simpl. rewrite IH.
  unfold add_int64. rewrite wrap64_add_l. f_equal. lia.
Qed.

Lemma dlq_closed_after n :
  DLQMock.closed (Nat.iter n DLQMock.Close DLQMock.newMockDLQProducer)
  = wrap64 (Z.of_nat n).
Proof.
  induction n as [|n IH]; [reflexivity|].
  simpl Nat.iter. unfold DLQMock.Close at 1. simpl. rewrite IH.
  unfold add_int64. rewrite wrap64_add_l. f_equal. lia.
Qed.

(** X18.  The cluster consumer and the dead-letter producer count their
    [Close] calls, so [isClosed] holds after exactly one call (up to the
    wrap-around of the counter) and no longer after a second one; the
    partition consumer stores the flag, and stays closed however often
    it is closed. *)
Theorem isClosed_counts_calls :
  forall n,
    SaramaMock.isClosed (Nat.iter n SaramaMock.Close SaramaMock.newMockSaramaConsumer)
    = (Z.of_nat n mod 2 ^ 64 =? 1) /\
    DLQMock.isClosed (Nat.iter n DLQMock.Close DLQMock.newMockDLQProducer)
    = (Z.of_nat n mod 2 ^ 64 =? 1) /\
    forall m, PartitionedMock.isClosed (Nat.iter (S n) PartitionedMock.Close m) = true.
Proof.
  intros n.
  assert (H : (wrap64 (Z.of_nat n) =? 1) = (Z.of_nat n mod 2 ^ 64 =? 1)).
  { destruct (Z.of_nat n mod 2 ^ 64 =? 1) eqn:E.
    - apply Z.eqb_eq. apply wrap64_is_one. apply Z.eqb_eq. assumption.
    - apply Z.eqb_neq. intros Hw. apply wrap64_is_one in Hw.
      apply Z.eqb_neq in E. contradiction. }
  split; [|split].
  - unfold SaramaMock.isClosed. rewrite sarama_closed_after. exact H.
  - unfold DLQMock.isClosed. rewrite dlq_closed_after. exact H.
  - intros m. reflexivity.
Qed.
